(** * CairoSVG surface: a shallow embedding of [cairosvg/surface.py]

    The module under study turns a parsed SVG tree into calls on a cairo
    drawing context.  The embedding follows the Python text function by
    function and keeps its names.

    - Python [str] values are Rocq strings, read as sequences of code points
      below 256.
    - Python [float] is IEEE binary64, embedded as Rocq's primitive floats, so
      every arithmetic result below is the bit-exact double the interpreter
      would compute.  Python [int] is [Z].
    - A call either returns, raises, or is cut off by the fuel of an
      unbounded [while] loop: type [res].
    - The cairo context is an external collaborator.  Its state is the
      history of the calls made on it; its two queries
      ([get_current_point], [text_extents]) and the C math library are
      parameters of the development.  Python semantics is that of
      Python 3 (true division, [None] not ordered, dicts in insertion
      order).
    - What lies outside the module is a parameter where [draw] reaches
      it: [Tree] of [cairosvg.parser], the [_create_surface] of the
      concrete subclass, and the attributes that a surface inherits from
      [object] or gets from its subclass, which [draw] calls when an
      element is named after one of them. *)

From Stdlib Require Import ZArith List String Ascii Bool Floats Lia.
Import ListNotations.
Open Scope string_scope.

Set Implicit Arguments.

(** ** Outcomes of a Python call *)

Inductive exn : Type :=
| ValueError
| TypeError
| ZeroDivisionError
| OverflowError
| UnboundLocalError
| NotImplementedError
| KeyError
| IndexError
| AttributeError.

Inductive res (A : Type) : Type :=
| Ok (a : A)
| Raise (e : exn)
| Timeout.

Arguments Raise {A} e.
Arguments Timeout {A}.

Definition bind {A B : Type} (m : res A) (f : A -> res B) : res B :=
  match m with
  | Ok a => f a
  | Raise e => Raise e
  | Timeout => Timeout
  end.

Declare Scope res_scope.
Delimit Scope res_scope with res.
Notation "x <- m ;; k" := (bind m (fun x => k))
  (at level 61, m at next level, right associativity) : res_scope.
Notation "' pat <- m ;; k" := (bind m (fun x => match x with pat => k end))
  (at level 61, pat pattern, m at next level, right associativity) : res_scope.
Open Scope res_scope.

(** ** Python strings *)

Module Str.

Definition code (c : ascii) : N := N_of_ascii c.

Definition between (lo hi : N) (c : ascii) : bool :=
  ((lo <=? code c) && (code c <=? hi))%N.

(** [str.isspace] on one code point below 256. *)
Definition isspace (c : ascii) : bool :=
  between 9 13 c || between 28 32 c || (code c =? 133)%N || (code c =? 160)%N.

(** Decimal digits, the ones [float] and [int] read. *)
Definition isdecimal (c : ascii) : bool := between 48 57 c.

(** [str.isdigit] on one code point: the decimal digits and the superscripts
    two, three and one. *)
Definition isdigit_char (c : ascii) : bool :=
  isdecimal c || (code c =? 178)%N || (code c =? 179)%N || (code c =? 185)%N.

Fixpoint all_chars (p : ascii -> bool) (s : string) : bool :=
  match s with
  | "" => true
  | String c s' => p c && all_chars p s'
  end.

(** [s.isdigit()]: at least one character, and all of them digits. *)
Definition isdigit (s : string) : bool :=
  match s with
  | "" => false
  | _ => all_chars isdigit_char s
  end.

Definition lower_char (c : ascii) : ascii :=
  if between 65 90 c || (between 192 222 c && negb (code c =? 215)%N)
  then ascii_of_N (code c + 32) else c.

(** [upper] leaves the three code points whose upper case lies outside
    the modelled range (181, 223, 255) unchanged. *)
Definition upper_char (c : ascii) : ascii :=
  if between 97 122 c || (between 224 254 c && negb (code c =? 247)%N)
  then ascii_of_N (code c - 32) else c.

Fixpoint map_chars (f : ascii -> ascii) (s : string) : string :=
  match s with
  | "" => ""
  | String c s' => String (f c) (map_chars f s')
  end.

Definition lower : string -> string := map_chars lower_char.
Definition upper : string -> string := map_chars upper_char.

Definition truthy (s : string) : bool :=
  match s with "" => false | _ => true end.

Fixpoint startswith (p s : string) : bool :=
  match p, s with
  | "", _ => true
  | String a p', String b s' => Ascii.eqb a b && startswith p' s'
  | String _ _, "" => false
  end.

Fixpoint drop (n : nat) (s : string) : string :=
  match n, s with
  | O, _ => s
  | S n', String _ s' => drop n' s'
  | S _, "" => ""
  end.

Fixpoint take (n : nat) (s : string) : string :=
  match n, s with
  | S n', String c s' => String c (take n' s')
  | _, _ => ""
  end.

(** [s[i:j]] for non-negative constant bounds. *)
Definition slice (i j : nat) (s : string) : string := take (j - i) (drop i s).

(** [s.partition(sep)] when [sep] occurs: the text before its first
    occurrence and the text after it. *)
Fixpoint find (sep s : string) : option (string * string) :=
  if startswith sep s then Some ("", drop (String.length sep) s)
  else match s with
       | "" => None
       | String c s' =>
           match find sep s' with
           | Some (a, b) => Some (String c a, b)
           | None => None
           end
       end.

(** [sub in s]. *)
Definition contains (sub s : string) : bool :=
  match find sub s with Some _ => true | None => false end.

(** [s.split(sep, n)] for a non-empty [sep]. *)
Fixpoint split_n (sep : string) (n : nat) (s : string) : list string :=
  match n with
  | O => [s]
  | S n' =>
      match find sep s with
      | None => [s]
      | Some (a, b) => a :: split_n sep n' b
      end
  end.

(** [s.split(sep)]: no more splits than characters. *)
Definition split (sep s : string) : list string :=
  split_n sep (String.length s) s.

(** [s.replace(old, new, n)] for a non-empty [old]: the first [n]
    occurrences, left to right, without overlap. *)
Fixpoint replace_n (old new : string) (n : nat) (s : string) : string :=
  match n with
  | O => s
  | S n' =>
      match find old s with
      | None => s
      | Some (a, b) => a ++ new ++ replace_n old new n' b
      end
  end.

Definition replace (old new s : string) : string :=
  replace_n old new (String.length s) s.

Fixpoint lstrip_by (p : ascii -> bool) (s : string) : string :=
  match s with
  | "" => ""
  | String c s' => if p c then lstrip_by p s' else s
  end.

Fixpoint rstrip_by (p : ascii -> bool) (s : string) : string :=
  match s with
  | "" => ""
  | String c s' =>
      match rstrip_by p s' with
      | "" => if p c then "" else String c ""
      | r => String c r
      end
  end.

Definition strip_by (p : ascii -> bool) (s : string) : string :=
  rstrip_by p (lstrip_by p s).

Fixpoint mem_char (c : ascii) (chars : string) : bool :=
  match chars with
  | "" => false
  | String d chars' => Ascii.eqb c d || mem_char c chars'
  end.

(** [s.strip()], [s.strip(chars)], [s.lstrip(chars)]. *)
Definition strip (s : string) : string := strip_by isspace s.
Definition strip_chars (chars s : string) : string :=
  strip_by (fun c => mem_char c chars) s.
Definition lstrip_chars (chars s : string) : string :=
  lstrip_by (fun c => mem_char c chars) s.

(** [s.split()]: the maximal runs of non-space characters. *)
Fixpoint words_aux (cur : string) (s : string) : list string :=
  match s with
  | "" => match cur with "" => [] | _ => [cur] end
  | String c s' =>
      if isspace c
      then match cur with "" => words_aux "" s' | _ => cur :: words_aux "" s' end
      else words_aux (cur ++ String c "") s'
  end.

Definition words (s : string) : list string := words_aux "" s.

(** ["".join(2 * char for char in s)]. *)
Fixpoint double_chars (s : string) : string :=
  match s with
  | "" => ""
  | String c s' => String c (String c (double_chars s'))
  end.

End Str.

(** ** Python numbers *)

(** The values the module computes with: [None], an [int] or a [float]. *)
Inductive pyval : Type :=
| VNone
| VInt (z : Z)
| VFloat (f : float).

Module Num.

Definition is_inf (f : float) : bool :=
  (PrimFloat.eqb f infinity || PrimFloat.eqb f neg_infinity)%float.

(** The double nearest to an integer ([float(n)]); too large an integer
    raises. *)
Definition of_Z (z : Z) : res float :=
  let f := SF2Prim (binary_normalize prec emax z 0 false) in
  if is_inf f then Raise OverflowError else Ok f.

(** The double nearest to [m * 10^e] for [m >= 0], as [float(str)]
    rounds a decimal numeral. *)
Definition of_decimal (m : Z) (e : Z) : float :=
  match m with
  | Zpos p =>
      if (0 <=? e)%Z
      then SF2Prim (binary_normalize prec emax (m * 10 ^ e) 0 false)
      else SF2Prim (SFdiv prec emax (S754_finite false p 0)
                          (S754_finite false (Z.to_pos (10 ^ (- e))) 0))
  | _ => 0%float
  end.

(** [a / b] on two integers: the correctly rounded quotient. *)
Definition div_Z (a b : Z) : res float :=
  if (b =? 0)%Z then Raise ZeroDivisionError
  else
    let sgn := xorb (a <? 0)%Z (b <? 0)%Z in
    match Z.abs a with
    | Zpos p =>
        let f := SF2Prim (SFdiv prec emax (S754_finite sgn p 0)
                                (S754_finite false (Z.to_pos (Z.abs b)) 0)) in
        if is_inf f then Raise OverflowError else Ok f
    | _ => Ok (if sgn then (-0)%float else 0%float)
    end.

Definition as_float (v : pyval) : res float :=
  match v with
  | VNone => Raise TypeError
  | VInt z => of_Z z
  | VFloat f => Ok f
  end.

Definition arith (fz : Z -> Z -> Z) (ff : float -> float -> float)
           (a b : pyval) : res pyval :=
  match a, b with
  | VInt x, VInt y => Ok (VInt (fz x y))
  | VNone, _ | _, VNone => Raise TypeError
  | _, _ =>
      x <- as_float a ;; y <- as_float b ;; Ok (VFloat (ff x y))
  end.

Definition add : pyval -> pyval -> res pyval := arith Z.add PrimFloat.add.
Definition sub : pyval -> pyval -> res pyval := arith Z.sub PrimFloat.sub.
Definition mul : pyval -> pyval -> res pyval := arith Z.mul PrimFloat.mul.

(** True division; a zero divisor raises whatever the dividend. *)
Definition div (a b : pyval) : res pyval :=
  match a, b with
  | VInt x, VInt y => f <- div_Z x y ;; Ok (VFloat f)
  | VNone, _ | _, VNone => Raise TypeError
  | _, _ =>
      x <- as_float a ;; y <- as_float b ;;
      if PrimFloat.eqb y 0%float then Raise ZeroDivisionError
      else Ok (VFloat (x / y)%float)
  end.

Definition neg (a : pyval) : res pyval :=
  match a with
  | VNone => Raise TypeError
  | VInt x => Ok (VInt (- x))
  | VFloat f => Ok (VFloat (- f)%float)
  end.

(** [a < b].  An integer met by a float is compared through its double,
    which is exact for the small integer literals of the module. *)
Definition lt (a b : pyval) : res bool :=
  match a, b with
  | VInt x, VInt y => Ok (x <? y)%Z
  | VNone, _ | _, VNone => Raise TypeError
  | _, _ => x <- as_float a ;; y <- as_float b ;; Ok (PrimFloat.ltb x y)
  end.

Definition gt (a b : pyval) : res bool := lt b a.

(** Truth value of a number or [None]. *)
Definition truthy (a : pyval) : bool :=
  match a with
  | VNone => false
  | VInt z => negb (z =? 0)%Z
  | VFloat f => negb (PrimFloat.eqb f 0%float)
  end.

(** [max(a, b)]: the second argument only when it is greater. *)
Definition max (a b : pyval) : res pyval :=
  g <- gt b a ;; Ok (if g then b else a).

End Num.

(** ** The builtins [float(str)] and [int(str, base)] *)

Module Parse.

Definition digit_value (c : ascii) : Z := (Z.of_N (Str.code c) - 48)%Z.

Definition decimal_digit (c : ascii) : option Z :=
  if Str.isdecimal c then Some (digit_value c) else None.

Definition hex_digit (c : ascii) : option Z :=
  if Str.isdecimal c then Some (digit_value c)
  else if Str.between 97 102 c then Some (Z.of_N (Str.code c) - 87)%Z
  else if Str.between 65 70 c then Some (Z.of_N (Str.code c) - 55)%Z
  else None.

Definition is_underscore (c : ascii) : bool := Ascii.eqb c "_"%char.

(** A run of digits in which single underscores may separate digits.
    Returns the accumulated value, the number of digits read and the
    unread text. *)
Fixpoint scan_digits (digit : ascii -> option Z) (base acc : Z) (n : nat)
         (s : string) : Z * nat * string :=
  match s with
  | "" => (acc, n, s)
  | String c s' =>
      match digit c with
      | Some d => scan_digits digit base (acc * base + d)%Z (S n) s'
      | None =>
          if is_underscore c && negb (Nat.eqb n 0) then
            match s' with
            | String d _ =>
                match digit d with
                | Some _ => scan_digits digit base acc n s'
                | None => (acc, n, s)
                end
            | "" => (acc, n, s)
            end
          else (acc, n, s)
      end
  end.

Definition take_sign (s : string) : bool * string :=
  match s with
  | String "-" s' => (true, s')
  | String "+" s' => (false, s')
  | _ => (false, s)
  end.

Definition signed (neg : bool) (f : float) : float :=
  if neg then (- f)%float else f.

(** The exponent part of a decimal numeral: nothing, or [e], an optional
    sign and at least one digit, up to the end of the text. *)
Definition exponent (s : string) : option Z :=
  match s with
  | "" => Some 0%Z
  | String c s' =>
      if Ascii.eqb c "e"%char || Ascii.eqb c "E"%char then
        let '(neg, s'') := take_sign s' in
        match scan_digits decimal_digit 10 0 0 s'' with
        | (e, S _, "") => Some (if neg then (- e)%Z else e)
        | _ => None
        end
      else None
  end.

(** The white space that [float] and [int] skip at both ends of a text:
    the ASCII white space, and the white space above 127, which these
    constructors turn into a space first.  The separators 28 to 31, which
    [str.strip] removes, are not among it: [float] and [int] raise
    [ValueError] on them. *)
Definition blank (c : ascii) : bool :=
  Str.between 9 13 c || (Str.code c =? 32)%N || (Str.code c =? 133)%N
  || (Str.code c =? 160)%N.

Definition strip (s : string) : string := Str.strip_by blank s.

(** [float(s)]. *)
Definition float (s : string) : res PrimFloat.float :=
  let '(neg, body) := take_sign (strip s) in
  let name := Str.lower body in
  if String.eqb name "inf" || String.eqb name "infinity"
  then Ok (signed neg infinity)
  else if String.eqb name "nan" then Ok nan
  else
    let '(m1, n1, r1) := scan_digits decimal_digit 10 0 0 body in
    let '(m2, n2, r2) :=
      match r1 with
      | String "." r => scan_digits decimal_digit 10 m1 0 r
      | _ => (m1, O, r1)
      end in
    match (n1 + n2)%nat, exponent r2 with
    | S _, Some e => Ok (signed neg (Num.of_decimal m2 (e - Z.of_nat n2)))
    | _, _ => Raise ValueError
    end.

(** [int(s)] in base ten. *)
Definition int (s : string) : res Z :=
  let '(neg, body) := take_sign (strip s) in
  match scan_digits decimal_digit 10 0 0 body with
  | (z, S _, "") => Ok (if neg then (- z)%Z else z)
  | _ => Raise ValueError
  end.

(** [int(s, 16)]: an optional [0x] prefix, which one underscore may
    follow. *)
Definition int16 (s : string) : res Z :=
  let '(neg, body) := take_sign (strip s) in
  let digits :=
    match body with
    | String "0" (String x r) =>
        if Ascii.eqb x "x"%char || Ascii.eqb x "X"%char
        then match r with String "_" r' => r' | _ => r end
        else body
    | _ => body
    end in
  match scan_digits hex_digit 16 0 0 digits with
  | (z, S _, "") => Ok (if neg then (- z)%Z else z)
  | _ => Raise ValueError
  end.

End Parse.

(** ** Module-level constants and helpers of [surface.py] *)

#[warnings="-inexact-float"]
Definition f_25_4 : float := 25.4%float.
#[warnings="-inexact-float"]
Definition f_2_54 : float := 2.54%float.
(** [math.pi]. *)
#[warnings="-inexact-float"]
Definition pi : float := 3.141592653589793%float.

Definition DPI : pyval := VFloat 72.

(** A coefficient of the [UNITS] table. *)
Inductive coef : Type :=
| CNum (v : pyval)
| CNoneCoef
| CNotImplemented.

(** [UNITS], in the order the dict literal lists its keys. *)
Definition UNITS : list (string * coef) :=
  [ ("mm", CNum (VFloat (1 / f_25_4)));
    ("cm", CNum (VFloat (1 / f_2_54)));
    ("in", CNum (VInt 1));
    ("pt", CNum (VFloat (1 / 72)));
    ("pc", CNum (VFloat (1 / 6)));
    ("px", CNoneCoef);
    ("em", CNotImplemented);
    ("ex", CNotImplemented);
    ("%", CNotImplemented) ].

Definition PATH_LETTERS : string := "achlmqstvzACHLMQSTVZ".

Definition PATH_TAGS : list string :=
  ["circle"; "line"; "path"; "polyline"; "polygon"; "rect"].

(** The loop [while "  " in string: string = string.replace("  ", " ")];
    each round shortens the string, so its length bounds the rounds. *)
Fixpoint collapse_spaces (fuel : nat) (s : string) : string :=
  match fuel with
  | O => s
  | S fuel' =>
      if Str.contains "  " s
      then collapse_spaces fuel' (Str.replace "  " " " s)
      else s
  end.

Definition normalize (s : string) : string :=
  let s := Str.replace "-" " -" s in
  let s := Str.replace "," " " s in
  collapse_spaces (String.length s) s.

(** [DPI * coefficient if coefficient else 1]. *)
Definition unit_factor (coefficient : coef) : res pyval :=
  match coefficient with
  | CNum v => if Num.truthy v then Num.mul DPI v else Ok (VInt 1)
  | CNoneCoef => Ok (VInt 1)
  | CNotImplemented => Raise TypeError
  end.

(** The [for unit, coefficient in UNITS.items()] loop of [size]; falling
    off its end returns [None]. *)
Fixpoint size_units (units : list (string * coef)) (s : string) : res pyval :=
  match units with
  | [] => Ok VNone
  | (unit, coefficient) :: rest =>
      if Str.contains unit s then
        number <- Parse.float (Str.strip_chars (" " ++ unit) s) ;;
        factor <- unit_factor coefficient ;;
        Num.mul (VFloat number) factor
      else size_units rest s
  end.

Definition size (string : option string) : res pyval :=
  match string with
  | None => Ok (VInt 0)
  | Some s =>
      if negb (Str.truthy s) then Ok (VInt 0)
      else if Str.isdigit (Str.lstrip_chars " -" (Str.replace_n "." "" 1 s))
      then number <- Parse.float s ;; Ok (VFloat number)
      else size_units UNITS s
  end.

Definition unpack2 {A : Type} (l : list A) : res (A * A) :=
  match l with [a; b] => Ok (a, b) | _ => Raise ValueError end.
Definition unpack3 {A : Type} (l : list A) : res (A * A * A) :=
  match l with [a; b; c] => Ok (a, b, c) | _ => Raise ValueError end.
Definition unpack4 {A : Type} (l : list A) : res (A * A * A * A) :=
  match l with [a; b; c; d] => Ok (a, b, c, d) | _ => Raise ValueError end.

(** [point(string)]: [(x, y, trailing_text)]. *)
Definition point (s : string) : res (pyval * pyval * string) :=
  if negb (Str.truthy s) then Ok (VInt 0, VInt 0, "")
  else
    '(x, y, rest) <- unpack3 (Str.split_n " " 2 (Str.strip s ++ " ")) ;;
    vx <- size (Some x) ;;
    vy <- size (Some y) ;;
    Ok (vx, vy, rest).

Fixpoint mapM {A B : Type} (f : A -> res B) (l : list A) : res (list B) :=
  match l with
  | [] => Ok []
  | a :: l' => b <- f a ;; bs <- mapM f l' ;; Ok (b :: bs)
  end.

(** ** Dicts with string keys *)

Module Dict.

Definition t : Type := list (string * string).

Fixpoint get (k : string) (d : t) : option string :=
  match d with
  | [] => None
  | (k', v) :: d' => if String.eqb k k' then Some v else get k d'
  end.

Definition mem (k : string) (d : t) : bool :=
  match get k d with Some _ => true | None => false end.

Fixpoint del (k : string) (d : t) : t :=
  match d with
  | [] => []
  | (k', v) :: d' => if String.eqb k k' then del k d' else (k', v) :: del k d'
  end.

Definition set (k v : string) (d : t) : t := (k, v) :: del k d.

End Dict.

(** ** The colour parser *)

Section Color.

(** The name table of [cairosvg/colors.py], which this file imports. *)
Variable COLORS : Dict.t.

(** [tuple(float(i) for i in string.strip(chars).split(","))]. *)
Definition float_tuple (chars s : string) : res (list float) :=
  mapM Parse.float (Str.split "," (Str.strip_chars chars s)).

(** [int(value, 16) / 255.]. *)
Definition hex_channel (value : string) : res pyval :=
  z <- Parse.int16 value ;; Num.div (VInt z) (VFloat 255).

(** The hexadecimal forms, lines 91-97 of [color]: the short forms are
    doubled, a ninth character makes the last two an alpha, and the
    channels are the slices [1:3], [3:5] and [5:7]. *)
Definition hex_color (s : string) (opacity : pyval)
  : res (pyval * pyval * pyval * pyval) :=
  let s := if Nat.eqb (String.length s) 4 || Nat.eqb (String.length s) 5
           then "#" ++ Str.double_chars (Str.drop 1 s) else s in
  opacity <- (if Nat.eqb (String.length s) 9
              then z <- Parse.int16 (Str.slice 7 9 s) ;;
                   q <- Num.div (VInt z) (VInt 255) ;;
                   Num.mul opacity q
              else Ok opacity) ;;
  r <- hex_channel (Str.slice 1 3 s) ;;
  g <- hex_channel (Str.slice 3 5 s) ;;
  b <- hex_channel (Str.slice 5 7 s) ;;
  Ok (r, g, b, opacity).

Definition color (string : option string) (opacity : pyval)
  : res (pyval * pyval * pyval * pyval) :=
  match string with
  | None => Ok (VInt 0, VInt 0, VInt 0, VInt 0)
  | Some s =>
      if negb (Str.truthy s) || String.eqb s "none"
      then Ok (VInt 0, VInt 0, VInt 0, VInt 0)
      else
        let s := Str.lower (Str.strip s) in
        if Str.startswith "rgba" s then
          '(r, g, b, a) <- (l <- float_tuple " rgba()" s ;; unpack4 l) ;;
          a' <- Num.mul (VFloat a) opacity ;;
          Ok (VFloat r, VFloat g, VFloat b, a')
        else if Str.startswith "rgb" s then
          '(r, g, b) <- (l <- float_tuple " rgb()" s ;; unpack3 l) ;;
          Ok (VFloat r, VFloat g, VFloat b, opacity)
        else
          hex_color (match Dict.get s COLORS with Some v => v | None => s end)
                    opacity
  end.

End Color.

(** ** The document tree

    A node of [cairosvg.parser]: a dict of attributes with a tag, children,
    text and the flag that marks the root of a tree. *)

#[warnings="-register-all"]
Inductive node : Type :=
  Node { tag : string;
         attrs : Dict.t;
         children : list node;
         text_of : option string;
         root : bool }.

Definition get (n : node) (k : string) : option string := Dict.get k (attrs n).

Definition set_attr (k v : string) (n : node) : node :=
  Node (tag n) (Dict.set k v (attrs n)) (children n) (text_of n) (root n).

Definition del_attr (k : string) (n : node) : node :=
  Node (tag n) (Dict.del k (attrs n)) (children n) (text_of n) (root n).

Definition set_text (t : string) (n : node) : node :=
  Node (tag n) (attrs n) (children n) (Some t) (root n).

(** ** The cairo context

    The calls the module makes on [self.context], with the arguments cairo
    receives (doubles). *)

Module Ctx.

Inductive slant : Type := SlantNormal | SlantItalic | SlantOblique.
Inductive weight : Type := WeightNormal | WeightBold.

Inductive op : Type :=
| save
| restore
| move_to (x y : float)
| line_to (x y : float)
| rel_move_to (dx dy : float)
| rel_line_to (dx dy : float)
| curve_to (x1 y1 x2 y2 x3 y3 : float)
| rel_curve_to (dx1 dy1 dx2 dy2 dx3 dy3 : float)
| close_path
| new_sub_path
| arc (xc yc radius angle1 angle2 : float)
| arc_negative (xc yc radius angle1 angle2 : float)
| rectangle (x y width height : float)
| translate (tx ty : float)
| scale (sx sy : float)
| rotate (angle : float)
| set_matrix (xx yx xy yy x0 y0 : float)
| set_fill_rule_even_odd
| set_source_rgba (r g b a : float)
| fill_preserve
| set_line_width (width : float)
| stroke
| select_font_face (family : string) (s : slant) (w : weight)
| set_font_size (size : float)
| show_text (t : string)
| text_path (t : string).

End Ctx.

(** The mutable state of a [Surface]: the calls received so far by its
    context, oldest first, and [self.cursor_position]. *)
Record surface : Type :=
  Surface { context : list Ctx.op; cursor_position : pyval * pyval }.

(** A method of [Surface]: it runs from a state and leaves a state, also
    when it raises. *)
Definition M (A : Type) : Type := surface -> res A * surface.

Definition ret {A : Type} (a : A) : M A := fun s => (Ok a, s).

Definition bindM {A B : Type} (m : M A) (f : A -> M B) : M B :=
  fun s =>
    match m s with
    | (Ok a, s') => f a s'
    | (Raise e, s') => (Raise e, s')
    | (Timeout, s') => (Timeout, s')
    end.

Definition lift {A : Type} (r : res A) : M A := fun s => (r, s).

Definition raise {A : Type} (e : exn) : M A := lift (Raise e).

(** A call on the context, appended to its history. *)
Definition call (o : Ctx.op) : M unit :=
  fun s => (Ok tt, Surface (context s ++ [o])%list (cursor_position s)).

Definition set_cursor_position (p : pyval * pyval) : M unit :=
  fun s => (Ok tt, Surface (context s) p).

Declare Scope surface_scope.
Delimit Scope surface_scope with surface.
Notation "x <- m ;; k" := (bindM m (fun x => k))
  (at level 61, m at next level, right associativity) : surface_scope.
Notation "' pat <- m ;; k" := (bindM m (fun x => match x with pat => k end))
  (at level 61, pat pattern, m at next level, right associativity) : surface_scope.
Notation "m ;;; k" := (bindM m (fun _ => k))
  (at level 61, right associativity) : surface_scope.

(** A call whose arguments are Python values: cairo refuses [None] with a
    [TypeError] and converts an [int]. *)
Definition call2 (f : float -> float -> Ctx.op) (a b : pyval) : M unit :=
  (x <- lift (Num.as_float a) ;; y <- lift (Num.as_float b) ;;
   call (f x y))%surface.

Definition call4 (f : float -> float -> float -> float -> Ctx.op)
           (a b c d : pyval) : M unit :=
  (x <- lift (Num.as_float a) ;; y <- lift (Num.as_float b) ;;
   z <- lift (Num.as_float c) ;; w <- lift (Num.as_float d) ;;
   call (f x y z w))%surface.

Definition call5 (f : float -> float -> float -> float -> float -> Ctx.op)
           (a b c d e : pyval) : M unit :=
  (x <- lift (Num.as_float a) ;; y <- lift (Num.as_float b) ;;
   z <- lift (Num.as_float c) ;; w <- lift (Num.as_float d) ;;
   v <- lift (Num.as_float e) ;;
   call (f x y z w v))%surface.

Definition call6
           (f : float -> float -> float -> float -> float -> float -> Ctx.op)
           (a b c d e g : pyval) : M unit :=
  (x <- lift (Num.as_float a) ;; y <- lift (Num.as_float b) ;;
   z <- lift (Num.as_float c) ;; w <- lift (Num.as_float d) ;;
   v <- lift (Num.as_float e) ;; u <- lift (Num.as_float g) ;;
   call (f x y z w v u))%surface.

Definition call1 (f : float -> Ctx.op) (a : pyval) : M unit :=
  (x <- lift (Num.as_float a) ;; call (f x))%surface.

(** [quadratic_points]: the control points of the cubic that draws a
    quadratic curve. *)
Definition quadratic_points (x1 y1 x2 y2 x3 y3 : pyval)
  : res (pyval * pyval * pyval * pyval * pyval * pyval) :=
  let blend (a b : pyval) : res pyval :=
    a2 <- Num.mul a (VInt 2) ;; a23 <- Num.div a2 (VInt 3) ;;
    b3 <- Num.div b (VInt 3) ;; Num.add a23 b3 in
  xq1 <- blend x2 x1 ;;
  yq1 <- blend y2 y1 ;;
  xq2 <- blend x2 x3 ;;
  yq2 <- blend y2 y3 ;;
  Ok (xq1, yq1, xq2, yq2, x3, y3).

(** ** Geometry helpers

    [cos], [sin], [atan] and [pow] are the functions of the C math library
    that Python's [math] module and [float.__pow__] call. *)

Section Geometry.

Variables cos sin atan : float -> float.
Variable pow : float -> float -> float.

Definition is_nan (f : float) : bool := negb (PrimFloat.eqb f f).
Definition is_finite (f : float) : bool := negb (is_nan f) && negb (Num.is_inf f).

(** A one-argument function of [math]: a result that is not a number, or is
    infinite, for an argument that is not, is a domain error. *)
Definition math1 (fn : float -> float) (v : pyval) : res pyval :=
  x <- Num.as_float v ;;
  let r := fn x in
  if (is_nan r && negb (is_nan x)) || (Num.is_inf r && is_finite x)
  then Raise ValueError else Ok (VFloat r).

(** [math.radians]. *)
Definition radians (x : float) : float := (x * (pi / 180))%float.

(** [v ** 2]; a float result out of range raises. *)
Definition pow2 (v : pyval) : res pyval :=
  match v with
  | VNone => Raise TypeError
  | VInt z => Ok (VInt (z * z))
  | VFloat x =>
      let r := pow x 2 in
      if Num.is_inf r && is_finite x then Raise OverflowError else Ok (VFloat r)
  end.

(** [v ** .5].  For a negative finite base Python returns a complex
    number, which the comparisons of [point_angle] then refuse; no call on
    the context lies between, so the refusal is raised here. *)
Definition pow_half (v : pyval) : res pyval :=
  x <- Num.as_float v ;;
  if PrimFloat.ltb x 0 && is_finite x then Raise TypeError
  else Ok (VFloat (pow x 0.5)).

(** [point_angle(cx, cy, px, py)]. *)
Definition point_angle (cx cy px py : pyval) : res pyval :=
  g <- Num.gt cx px ;;
  let angle := if g then VFloat pi else VInt 0 in
  g' <- Num.gt cy py ;;
  angle <- Num.mul angle (if g' then VInt (-1) else VInt 1) ;;
  d <- Num.sub cx px ;;
  t <- (if Num.truthy d
        then a <- Num.sub cy py ;;
             d' <- Num.sub cx px ;;
             q <- Num.div (VInt 1) d' ;;
             Num.mul a q
        else Ok (VFloat infinity)) ;;
  at_ <- math1 atan t ;;
  Num.add angle at_.

(** [rotate(x, y, angle)]. *)
Definition rotate (x y angle : pyval) : res (pyval * pyval) :=
  c <- math1 cos angle ;; xc <- Num.mul x c ;;
  s <- math1 sin angle ;; ys <- Num.mul y s ;;
  x' <- Num.sub xc ys ;;
  c' <- math1 cos angle ;; yc <- Num.mul y c' ;;
  s' <- math1 sin angle ;; xs <- Num.mul x s' ;;
  y' <- Num.add yc xs ;;
  Ok (x', y').

(** *** The arc branch of [path], between parsing and drawing *)

(** Lines 308-316: the end point, relative to the start, with the
    rotation cancelled and the y axis divided by the ratio of the radii;
    returns its angle with the x axis and its distance to the origin. *)
Definition arc_chord (radii_ratio rotation x3 y3 : pyval)
  : res (pyval * pyval) :=
  r <- Num.neg rotation ;;
  '(xe, ye) <- rotate x3 y3 r ;;
  ye <- Num.div ye radii_ratio ;;
  angle <- point_angle (VInt 0) (VInt 0) xe ye ;;
  xx <- pow2 xe ;; yy <- pow2 ye ;; sum <- Num.add xx yy ;;
  xe <- pow_half sum ;;
  Ok (angle, xe).

(** Line 320: [rx = max(rx, xe / 2)]. *)
Definition arc_radius (rx xe : pyval) : res pyval :=
  h <- Num.div xe (VInt 2) ;; Num.max rx h.

(** Lines 308-339: [(xc, yc, rx, angle1, angle2)], the arguments of the
    circular arc drawn in the rotated and scaled frame. *)
Definition arc_center (rx radii_ratio rotation : pyval) (large sweep : bool)
           (x3 y3 : pyval)
  : res (pyval * pyval * pyval * pyval * pyval) :=
  '(angle, xe) <- arc_chord radii_ratio rotation x3 y3 ;;
  rx <- arc_radius rx xe ;;
  xc <- Num.div xe (VInt 2) ;;
  rr <- pow2 rx ;; cc <- pow2 xc ;; diff <- Num.sub rr cc ;;
  yc <- pow_half diff ;;
  yc <- (if negb (xorb large sweep) then Num.neg yc else Ok yc) ;;
  '(xe, ye) <- rotate xe (VInt 0) angle ;;
  '(xc, yc) <- rotate xc yc angle ;;
  angle1 <- point_angle xc yc (VInt 0) (VInt 0) ;;
  angle2 <- point_angle xc yc xe ye ;;
  Ok (xc, yc, rx, angle1, angle2).

End Geometry.

(** ** Viewport fitting *)

Definition node_format (n : node)
  : res (pyval * pyval * option (list pyval)) :=
  width <- size (get n "width") ;;
  height <- size (get n "height") ;;
  match get n "viewBox" with
  | None => Ok (width, height, None)
  | Some vb =>
      if negb (Str.truthy vb) then Ok (width, height, None)
      else
        viewbox <- mapM (fun pos => size (Some pos)) (Str.words vb) ;;
        width <- (if Num.truthy width then Ok width
                  else match nth_error viewbox 2 with
                       | Some v => Ok v
                       | None => Raise IndexError
                       end) ;;
        height <- (if Num.truthy height then Ok height
                   else match nth_error viewbox 3 with
                        | Some v => Ok v
                        | None => Raise IndexError
                        end) ;;
        Ok (width, height, Some viewbox)
  end.

Open Scope surface_scope.

(** [Surface._set_context_size]; an absent, empty-string or empty-tuple
    [viewbox] is false. *)
Definition _set_context_size (width height : pyval)
           (viewbox : option (list pyval)) : M unit :=
  match viewbox with
  | None | Some [] => ret tt
  | Some vb =>
      ' (x, y, x_size, y_size) <- lift (unpack4 vb) ;;
      x_ratio <- lift (Num.div width x_size) ;;
      y_ratio <- lift (Num.div height y_size) ;;
      g <- lift (Num.gt x_ratio y_ratio) ;;
      if g then
        tx <- lift (a <- Num.mul x_size y_ratio ;; b <- Num.sub width a ;;
                    Num.div b (VInt 2))%res ;;
        call2 Ctx.translate tx (VInt 0) ;;;
        call2 Ctx.scale y_ratio y_ratio ;;;
        nx <- lift (Num.neg x) ;;
        ny <- lift (a <- Num.neg y ;; q <- Num.div a y_ratio ;;
                    Num.mul q x_ratio)%res ;;
        call2 Ctx.translate nx ny
      else
        l <- lift (Num.lt x_ratio y_ratio) ;;
        if l then
          ty <- lift (a <- Num.mul y_size x_ratio ;; b <- Num.sub height a ;;
                      Num.div b (VInt 2))%res ;;
          call2 Ctx.translate (VInt 0) ty ;;;
          call2 Ctx.scale x_ratio x_ratio ;;;
          nx <- lift (a <- Num.neg x ;; q <- Num.div a x_ratio ;;
                      Num.mul q y_ratio)%res ;;
          ny <- lift (Num.neg y) ;;
          call2 Ctx.translate nx ny
        else
          call2 Ctx.scale x_ratio y_ratio ;;;
          nx <- lift (Num.neg x) ;;
          ny <- lift (Num.neg y) ;;
          call2 Ctx.translate nx ny
  end.

(** ** The [transform] attribute (in [Surface.draw]) *)

(** The loop [while transformation: value, transformation =
    transformation.split(" ", 1); values.append(size(value))]. *)
Fixpoint transform_values (fuel : nat) (transformation : string)
  : res (list pyval) :=
  if negb (Str.truthy transformation) then Ok []
  else match fuel with
       | O => Timeout
       | S fuel' =>
           (' (value, rest) <- unpack2 (Str.split_n " " 1 transformation) ;;
            v <- size (Some value) ;;
            vs <- transform_values fuel' rest ;;
            Ok (v :: vs))%res
       end.

(** [cairo.Matrix] applied to the unpacked [values]: at most six numbers,
    the missing ones taken from the identity. *)
Definition matrix_of (values : list pyval) : res Ctx.op :=
  (fs <- mapM Num.as_float values ;;
   match fs with
   | [] => Ok (Ctx.set_matrix 1 0 0 1 0 0)
   | [a] => Ok (Ctx.set_matrix a 0 0 1 0 0)
   | [a; b] => Ok (Ctx.set_matrix a b 0 1 0 0)
   | [a; b; c] => Ok (Ctx.set_matrix a b c 1 0 0)
   | [a; b; c; d] => Ok (Ctx.set_matrix a b c d 0 0)
   | [a; b; c; d; e] => Ok (Ctx.set_matrix a b c d e 0)
   | [a; b; c; d; e; f] => Ok (Ctx.set_matrix a b c d e f)
   | _ => Raise TypeError
   end)%res.

(** [float(v)] on a number. *)
Definition float_of_value (v : pyval) : res float := Num.as_float v.

(** The three-way branch on [ttype] once [values] is read. *)
Definition apply_transform (ttype : string) (values : list pyval) : M unit :=
  if String.eqb ttype "matrix" then
    m <- lift (matrix_of values) ;; call m
  else if String.eqb ttype "rotate" then
    v <- lift (match values with v :: _ => Ok v | [] => Raise IndexError end) ;;
    f <- lift (float_of_value v) ;;
    call (Ctx.rotate (radians f))
  else
    let values :=
      if Nat.eqb (List.length values) 1 then (values ++ values)%list else values in
    match values with
    | [a; b] =>
        if String.eqb ttype "scale" then call2 Ctx.scale a b
        else call2 Ctx.translate a b
    | _ => raise TypeError
    end.

(** The loop over [("scale", "translate", "matrix", "rotate")] for one
    piece of the attribute; the inner [while] leaves [transformation]
    empty for the types that follow. *)
Fixpoint transform_types (ttypes : list string) (transformation : string)
  : M unit :=
  match ttypes with
  | [] => ret tt
  | ttype :: rest =>
      if Str.contains ttype transformation then
        let t := Str.replace ttype "" transformation in
        let t := Str.replace "(" "" t in
        let t := Str.strip (normalize t) ++ " " in
        values <- lift (transform_values (String.length t) t) ;;
        apply_transform ttype values ;;;
        transform_types rest ""
      else transform_types rest transformation
  end.

Fixpoint iterM {A : Type} (f : A -> M unit) (l : list A) : M unit :=
  match l with
  | [] => ret tt
  | a :: l' => f a ;;; iterM f l'
  end.

(** The transform list [t] applied to the context. *)
Definition resolve_transform (t : string) : M unit :=
  iterM (transform_types ["scale"; "translate"; "matrix"; "rotate"])
        (Str.split ")" t).

(** [if node.get("transform"): ...]. *)
Definition transform (n : node) : M unit :=
  match get n "transform" with
  | Some t => if Str.truthy t then resolve_transform t else ret tt
  | None => ret tt
  end.

(** ** [Surface.path] *)

(** The local variables of [path] that live across iterations of its loop.
    A coordinate not yet assigned is [None]; [last_letter] starts as
    Python's [None], which is [None] here too.  [letter] is always bound:
    the loop [for letter in PATH_LETTERS] that pads the letters leaves it
    at ["Z"]. *)
Record locals : Type :=
  Locals { letter : string;
           last_letter : option string;
           x1 : option pyval; y1 : option pyval;
           x2 : option pyval; y2 : option pyval;
           x3 : option pyval; y3 : option pyval }.

Definition read {A : Type} (v : option A) : res A :=
  match v with Some a => Ok a | None => Raise UnboundLocalError end.

Definition set_letter (l : string) (L : locals) : locals :=
  Locals l (last_letter L) (x1 L) (y1 L) (x2 L) (y2 L) (x3 L) (y3 L).
Definition set_last_letter (l : string) (L : locals) : locals :=
  Locals (letter L) (Some l) (x1 L) (y1 L) (x2 L) (y2 L) (x3 L) (y3 L).
Definition set_p1 (a b : pyval) (L : locals) : locals :=
  Locals (letter L) (last_letter L) (Some a) (Some b) (x2 L) (y2 L) (x3 L) (y3 L).
Definition set_p2 (a b : pyval) (L : locals) : locals :=
  Locals (letter L) (last_letter L) (x1 L) (y1 L) (Some a) (Some b) (x3 L) (y3 L).
Definition set_p3 (a b : pyval) (L : locals) : locals :=
  Locals (letter L) (last_letter L) (x1 L) (y1 L) (x2 L) (y2 L) (Some a) (Some b).

(** [last_letter in chars]; the left operand must be a string. *)
Definition last_letter_in (chars : string) (L : locals) : res bool :=
  match last_letter L with
  | None => Raise TypeError
  | Some l => Ok (Str.contains l chars)
  end.

Section Methods.

Variables cos sin atan : float -> float.
Variable pow : float -> float -> float.

(** [context.get_current_point()], a function of the calls the context
    has received. *)
Variable get_current_point : list Ctx.op -> float * float.

Definition current_point : M (float * float) :=
  fun s => (Ok (get_current_point (context s)), s).

(** The arc branch ([letter in "aA"]). *)
Definition path_arc (string : string) (L : locals) : M (String.string * locals) :=
  here <- current_point ;; let px := fst here in let py := snd here in
  ' (rx, ry, string) <- lift (point string) ;;
  radii_ratio <- lift (Num.div ry rx) ;;
  ' (rotation, large, sweep, string) <-
    lift (unpack4 (Str.split_n " " 3 string)) ;;
  rotation <- lift (r <- Parse.float rotation ;; Ok (radians r))%res ;;
  large <- lift (z <- Parse.int large ;; Ok (negb (z =? 0)%Z))%res ;;
  sweep <- lift (z <- Parse.int sweep ;; Ok (negb (z =? 0)%Z))%res ;;
  ' (ex, ey, string) <- lift (point string) ;;
  ' (ex, ey) <-
    (if String.eqb (letter L) "A"
     then ex' <- lift (Num.sub ex (VFloat px)) ;;
          ey' <- lift (Num.sub ey (VFloat py)) ;;
          ret (ex', ey')
     else ret (ex, ey)) ;;
  ' (xc, yc, rx, angle1, angle2) <-
    lift (arc_center cos sin atan pow rx radii_ratio (VFloat rotation)
                     large sweep ex ey) ;;
  call Ctx.save ;;;
  call (Ctx.translate px py) ;;;
  call (Ctx.rotate rotation) ;;;
  call2 Ctx.scale (VInt 1) radii_ratio ;;;
  call5 (if sweep then Ctx.arc else Ctx.arc_negative)
        xc yc rx angle1 angle2 ;;;
  call Ctx.restore ;;;
  ret (string, set_p3 ex ey (set_p1 (VFloat px) (VFloat py) L)).

(** The three points of [c] and [C]. *)
Definition three_points (string : string)
  : res (pyval * pyval * pyval * pyval * pyval * pyval * String.string) :=
  (' (a, b, string) <- point string ;;
   ' (c, d, string) <- point string ;;
   ' (e, f, string) <- point string ;;
   Ok (a, b, c, d, e, f, string))%res.

(** The inner loop of [q] and [Q]: pairs of points until [string] is
    empty; each round consumes text, so the length bounds the rounds. *)
Fixpoint quadratic_loop (fuel : nat) (curve : pyval -> pyval -> pyval ->
                                             pyval -> pyval -> pyval -> M unit)
         (string : string) (L : locals) : M locals :=
  if negb (Str.truthy string) then ret L
  else match fuel with
       | O => lift Timeout
       | S fuel' =>
           ' (a, b, string) <- lift (point string) ;;
           ' (c, d, string) <- lift (point string) ;;
           let L := set_p3 c d (set_p2 a b L) in
           ' (xq1, yq1, xq2, yq2, xq3, yq3) <-
             lift (p1x <- read (x1 L) ;; p1y <- read (y1 L) ;;
                   quadratic_points p1x p1y a b c d)%res ;;
           curve xq1 yq1 xq2 yq2 xq3 yq3 ;;;
           quadratic_loop fuel' curve string L
       end.

(** The end of a quadratic chain ([t], [T]) from the start point
    [(p1x, p1y)]. *)
Definition quadratic_end (curve : pyval -> pyval -> pyval ->
                                  pyval -> pyval -> pyval -> M unit)
           (p1x p1y : pyval) (string : string) (L : locals)
  : M (String.string * locals) :=
  let L := set_p1 p1x p1y L in
  a <- lift (d <- Num.mul (VInt 2) p1x ;; o <- read (x2 L) ;; Num.sub d o)%res ;;
  let L := Locals (letter L) (last_letter L) (x1 L) (y1 L) (Some a) (y2 L)
                  (x3 L) (y3 L) in
  b <- lift (d <- Num.mul (VInt 2) p1y ;; o <- read (y2 L) ;; Num.sub d o)%res ;;
  let L := set_p2 a b L in
  ' (c, d, string) <- lift (point string) ;;
  let L := set_p3 c d L in
  ' (xq1, yq1, xq2, yq2, xq3, yq3) <-
    lift (quadratic_points p1x p1y a b c d) ;;
  curve xq1 yq1 xq2 yq2 xq3 yq3 ;;;
  ret (string, L).

(** The first control point of [s] and [S]: the difference of the last
    two points after one of [letters], else [default]. *)
Definition smooth_start (letters : string) (dx dy : pyval) (L : locals)
  : res (pyval * pyval) :=
  (inx <- last_letter_in letters L ;;
   a <- (if inx then p <- read (x3 L) ;; q <- read (x2 L) ;; Num.sub p q
         else Ok dx) ;;
   iny <- last_letter_in letters L ;;
   b <- (if iny then p <- read (y3 L) ;; q <- read (y2 L) ;; Num.sub p q
         else Ok dy) ;;
   Ok (a, b))%res.

(** [x, string = string.split(" ", 1)] followed by [size(x)]. *)
Definition one_number (string : string) : res (pyval * String.string) :=
  (' (x, string) <- unpack2 (Str.split_n " " 1 string) ;;
   v <- size (Some x) ;;
   Ok (v, string))%res.

Definition rel_curve_to := call6 Ctx.rel_curve_to.
Definition curve_to := call6 Ctx.curve_to.

(** One round of the loop [while string:] of [path]. *)
Definition path_step (string : String.string) (L : locals)
  : M (String.string * locals) :=
  let string := Str.strip string in
  ' (string, L) <-
    (if Str.contains (hd "" (Str.split_n " " 1 string)) PATH_LETTERS
     then ' (l, rest) <- lift (unpack2 (Str.split_n " " 1 (string ++ " "))) ;;
          ret (rest, set_letter l L)
     else ret (string, L)) ;;
  let letter := letter L in
  ' (string, L) <-
    (if Str.contains letter "aA" then path_arc string L
     else if String.eqb letter "c" then
       ' (a, b, c, d, e, f, string) <- lift (three_points string) ;;
       rel_curve_to a b c d e f ;;;
       ret (string, set_p3 e f (set_p2 c d (set_p1 a b L)))
     else if String.eqb letter "C" then
       ' (a, b, c, d, e, f, string) <- lift (three_points string) ;;
       curve_to a b c d e f ;;;
       ret (string, set_p3 e f (set_p2 c d (set_p1 a b L)))
     else if String.eqb letter "h" then
       ' (x, string) <- lift (one_number string) ;;
       call2 Ctx.rel_line_to x (VInt 0) ;;;
       ret (string, L)
     else if String.eqb letter "H" then
       ' (x, string) <- lift (one_number string) ;;
       here <- current_point ;; let py := snd here in
       call2 Ctx.line_to x (VFloat py) ;;;
       ret (string, L)
     else if String.eqb letter "l" then
       ' (x, y, string) <- lift (point string) ;;
       call2 Ctx.rel_line_to x y ;;;
       ret (string, L)
     else if String.eqb letter "L" then
       ' (x, y, string) <- lift (point string) ;;
       call2 Ctx.line_to x y ;;;
       ret (string, L)
     else if String.eqb letter "m" then
       ' (x, y, string) <- lift (point string) ;;
       call2 Ctx.rel_move_to x y ;;;
       ret (string, L)
     else if String.eqb letter "M" then
       ' (x, y, string) <- lift (point string) ;;
       call2 Ctx.move_to x y ;;;
       ret (string, L)
     else if String.eqb letter "q" then
       ' (string, next_string) <- lift (unpack2 (Str.split_n "t" 1 string)) ;;
       let L := set_p1 (VInt 0) (VInt 0) L in
       L <- quadratic_loop (String.length string) rel_curve_to string L ;;
       ret ("t" ++ next_string, L)
     else if String.eqb letter "Q" then
       ' (string, next_string) <- lift (unpack2 (Str.split_n "T" 1 string)) ;;
       here <- current_point ;; let px := fst here in let py := snd here in
       let L := set_p1 (VFloat px) (VFloat py) L in
       L <- quadratic_loop (String.length string) curve_to string L ;;
       ret ("T" ++ next_string, L)
     else if String.eqb letter "s" then
       ' (a, b) <- lift (smooth_start "cs" (VInt 0) (VInt 0) L) ;;
       ' (c, d, string) <- lift (point string) ;;
       ' (e, f, string) <- lift (point string) ;;
       rel_curve_to a b c d e f ;;;
       ret (string, set_p3 e f (set_p2 c d (set_p1 a b L)))
     else if String.eqb letter "S" then
       here <- current_point ;; let x := fst here in let y := snd here in
       ' (a, b) <- lift (smooth_start "CS" (VFloat x) (VFloat y) L) ;;
       ' (c, d, string) <- lift (point string) ;;
       ' (e, f, string) <- lift (point string) ;;
       curve_to a b c d e f ;;;
       ret (string, set_p3 e f (set_p2 c d (set_p1 a b L)))
     else if String.eqb letter "t" then
       quadratic_end rel_curve_to (VInt 0) (VInt 0) string L
     else if String.eqb letter "T" then
       here <- current_point ;; let px := fst here in let py := snd here in
       quadratic_end curve_to (VFloat px) (VFloat py) string L
     else if String.eqb letter "v" then
       ' (y, string) <- lift (one_number string) ;;
       call2 Ctx.rel_line_to (VInt 0) y ;;;
       ret (string, L)
     else if String.eqb letter "V" then
       ' (y, string) <- lift (one_number string) ;;
       here <- current_point ;; let px := fst here in
       call2 Ctx.line_to (VFloat px) y ;;;
       ret (string, L)
     else if Str.contains letter "zZ" then
       call Ctx.close_path ;;;
       ret (string, L)
     else raise NotImplementedError) ;;
  ret (Str.strip string, set_last_letter letter L).

(** The loop [while string:].  Nothing bounds its rounds, so it runs on
    fuel: [path_rounds] makes a round and tests [string] again, and is cut
    off when a round is due and no fuel is left. *)
Fixpoint path_rounds (fuel : nat) (string : String.string) (L : locals)
  : M unit :=
  match fuel with
  | O => lift Timeout
  | S fuel' =>
      ' (string, L) <- path_step string L ;;
      if Str.truthy string then path_rounds fuel' string L else ret tt
  end.

Definition path_loop (fuel : nat) (string : String.string) (L : locals)
  : M unit :=
  if Str.truthy string then path_rounds fuel string L else ret tt.

(** [for letter in PATH_LETTERS: string = string.replace(letter,
    " %s " % letter)]. *)
Fixpoint pad_letters (letters : String.string) (string : String.string)
  : String.string :=
  match letters with
  | "" => string
  | String l letters' =>
      pad_letters letters'
                  (Str.replace (String l "") (" " ++ String l " ") string)
  end.

(** The locals on entry to the loop. *)
Definition path_locals : locals :=
  Locals "Z" None None None None None None None.

(** [path] on the text of the [d] attribute. *)
Definition path_data (fuel : nat) (d : String.string) : M unit :=
  path_loop fuel (normalize (pad_letters PATH_LETTERS d)) path_locals.

Definition path (fuel : nat) (n : node) : M unit :=
  path_data fuel (match get n "d" with Some d => d | None => "" end).

(** *** Shape handlers

    A handler may assign attributes of its node; it returns the node as
    it leaves it. *)

Definition two_pi : pyval := VFloat (2 * pi).

Definition circle (n : node) : M node :=
  call Ctx.new_sub_path ;;;
  xc <- lift (a <- size (get n "x") ;; b <- size (get n "cx") ;; Num.add a b)%res ;;
  yc <- lift (a <- size (get n "y") ;; b <- size (get n "cy") ;; Num.add a b)%res ;;
  r <- lift (size (get n "r")) ;;
  call5 Ctx.arc xc yc r (VInt 0) two_pi ;;;
  ret n.

Definition ellipse (n : node) : M node :=
  y_scale_ratio <- lift (a <- size (get n "ry") ;; b <- size (get n "rx") ;;
                         Num.div a b)%res ;;
  call Ctx.new_sub_path ;;;
  call Ctx.save ;;;
  call2 Ctx.scale (VInt 1) y_scale_ratio ;;;
  xc <- lift (a <- size (get n "x") ;; b <- size (get n "cx") ;; Num.add a b)%res ;;
  yc <- lift (a <- size (get n "y") ;; b <- size (get n "cy") ;;
              c <- Num.add a b ;; Num.div c y_scale_ratio)%res ;;
  r <- lift (size (get n "rx")) ;;
  call5 Ctx.arc xc yc r (VInt 0) two_pi ;;;
  call Ctx.restore ;;;
  ret n.

Definition line (n : node) : M node :=
  ' (a, b, c, d) <- lift (l <- mapM size [get n "x1"; get n "y1";
                                          get n "x2"; get n "y2"] ;;
                          unpack4 l)%res ;;
  call2 Ctx.move_to a b ;;;
  call2 Ctx.line_to c d ;;;
  ret n.

(** The loop [while points:] of [polyline]; each round consumes text. *)
Fixpoint polyline_loop (fuel : nat) (points : String.string) : M unit :=
  if negb (Str.truthy points) then ret tt
  else match fuel with
       | O => lift Timeout
       | S fuel' =>
           ' (x, y, points) <- lift (point points) ;;
           call2 Ctx.line_to x y ;;;
           polyline_loop fuel' points
       end.

Definition polyline (n : node) : M node :=
  match get n "points" with
  | None => raise AttributeError
  | Some p =>
      let points := normalize p in
      if Str.truthy points then
        ' (x, y, points) <- lift (point points) ;;
        call2 Ctx.move_to x y ;;;
        polyline_loop (String.length points) points ;;;
        ret n
      else ret n
  end.

Definition polygon (n : node) : M node :=
  n <- polyline n ;;
  call Ctx.close_path ;;;
  ret n.

Definition rect (n : node) : M node :=
  x <- lift (size (get n "x")) ;;
  y <- lift (size (get n "y")) ;;
  width <- lift (size (get n "width")) ;;
  height <- lift (size (get n "height")) ;;
  call4 Ctx.rectangle x y width height ;;;
  ret n.

(** [context.text_extents(text)]: [(x_bearing, y_bearing, width, height,
    x_advance, y_advance)], a function of the context's history. *)
Variable text_extents :
  list Ctx.op -> String.string -> float * float * float * float * float * float.

(** [getattr(cairo, ("font_slant_%s" % style).upper(),
    cairo.FONT_SLANT_NORMAL)] and its sibling for the weight. *)
Definition font_slant (style : option String.string) : Ctx.slant :=
  match style with
  | None => Ctx.SlantNormal
  | Some s =>
      let u := Str.upper s in
      if String.eqb u "ITALIC" then Ctx.SlantItalic
      else if String.eqb u "OBLIQUE" then Ctx.SlantOblique
      else Ctx.SlantNormal
  end.

Definition font_weight (weight : option String.string) : Ctx.weight :=
  match weight with
  | None => Ctx.WeightNormal
  | Some s => if String.eqb (Str.upper s) "BOLD" then Ctx.WeightBold
              else Ctx.WeightNormal
  end.

Definition get_default (n : node) (k default : String.string) : String.string :=
  match get n k with Some v => v | None => default end.

Definition falsy (v : option String.string) : bool :=
  match v with Some s => negb (Str.truthy s) | None => true end.

(** [float(node.get(k, 1))]. *)
Definition float_attr (n : node) (k : String.string) : res float :=
  match get n k with
  | Some v => Parse.float v
  | None => Ok 1%float
  end.

Variable COLORS : Dict.t.

(** [context.set_source_rgba] on the unpacked [color(string, opacity)]. *)
Definition set_source (string : option String.string) (opacity : pyval)
  : M unit :=
  ' (r, g, b, a) <- lift (color COLORS string opacity) ;;
  call4 Ctx.set_source_rgba r g b a.

Definition text (n : node) : M node :=
  let n := if falsy (get n "fill")
           then set_attr "fill" (if falsy (get n "color") then "#000000"
                                 else get_default n "color" "") n
           else n in
  let t := match text_of n with
           | Some t => if Str.truthy t then Str.strip t else ""
           | None => ""
           end in
  let n := set_text t n in
  font_size <- lift (size (Some (get_default n "font-size" "12pt"))) ;;
  call (Ctx.select_font_face (get_default n "font-family" "Sans")
                             (font_slant (get n "font-style"))
                             (font_weight (get n "font-weight"))) ;;;
  call1 Ctx.set_font_size font_size ;;;
  extents <- (fun s => (Ok (text_extents (context s) t), s)) ;;
  let '(x_bearing, _, width, _, _, _) := extents in
  x <- lift (size (get n "x")) ;;
  y <- lift (size (get n "y")) ;;
  x <- lift (match get n "text-anchor" with
             | Some a =>
                 if String.eqb a "middle"
                 then Num.sub x (VFloat (width / 2 + x_bearing))
                 else if String.eqb a "end"
                 then Num.sub x (VFloat (width + x_bearing))
                 else Ok x
             | None => Ok x
             end) ;;
  opacity <- lift (float_attr n "opacity") ;;
  call2 Ctx.move_to x y ;;;
  set_source (get n "fill") (VFloat opacity) ;;;
  call (Ctx.show_text t) ;;;
  call2 Ctx.move_to x y ;;;
  call (Ctx.text_path t) ;;;
  let n := set_attr "fill" "#00000000" n in
  here <- current_point ;; let px := fst here in let py := snd here in
  set_cursor_position (VFloat px, VFloat py) ;;;
  ret n.

(** The builtin [str] on a number. *)
Variable str : pyval -> String.string.

Definition tspan (n : node) : M node :=
  ' (x, y) <- (fun s => (Ok (cursor_position s), s)) ;;
  x <- lift (match get n "x" with Some v => size (Some v) | None => Ok x end) ;;
  y <- lift (match get n "y" with Some v => size (Some v) | None => Ok y end) ;;
  nx <- lift (d <- size (get n "dx") ;; Num.add x d)%res ;;
  let n := set_attr "x" (str nx) n in
  ny <- lift (d <- size (get n "dy") ;; Num.add y d)%res ;;
  let n := set_attr "y" (str ny) n in
  text n.

(** [Tree(href, node)] of [cairosvg.parser]: the tree a [use] refers
    to. *)
Variable Tree : option String.string -> node -> res node.

Definition xlink_href : String.string := "{http://www.w3.org/1999/xlink}href".

Definition use (draw : node -> M unit) (n : node) : M node :=
  call Ctx.save ;;;
  x <- lift (size (get n "x")) ;;
  y <- lift (size (get n "y")) ;;
  call2 Ctx.translate x y ;;;
  let n := del_attr "x" n in
  let n := del_attr "y" n in
  let n := del_attr "viewBox" n in
  tree <- lift (Tree (get n xlink_href) n) ;;
  ' (width, height, viewbox) <- lift (node_format tree) ;;
  _set_context_size width height viewbox ;;;
  draw tree ;;;
  call Ctx.restore ;;;
  call Ctx.restore ;;;
  ret n.

Definition tref (draw : node -> M unit) (n : node) : M node := use draw n.

Definition mem_string (s : String.string) (l : list String.string) : bool :=
  existsb (String.eqb s) l.

(** [Surface._create_surface] as [Surface] has it: an abstract method. *)
Definition abstract_create_surface (tree : node) : M unit :=
  raise NotImplementedError.

(** The [_create_surface] of the surface that draws.  With the method of
    [Surface] itself, [__init__] raises before anything is drawn; a
    surface that draws is an instance of a subclass, whose method creates
    [self.cairo] and [self.context]. *)
Variable _create_surface : node -> M unit.

(** The attributes of a surface that the class statement of [Surface]
    does not create: those inherited from [object] and those a concrete
    subclass adds.  [other_attr name] is [None] when [hasattr(self, name)]
    is false for such a name, and otherwise what calling the attribute
    with a node does, returning the node as the call leaves it. *)
Variable other_attr : String.string -> option (node -> M node).

(** [Surface.__init__]: the fields are set anew, [self.context] has
    received no call yet, and the tree is drawn. *)
Definition __init__ (draw : node -> M unit) (tree : node) : M unit :=
  (fun _ => (Ok tt, Surface [] (VInt 0, VInt 0))) ;;;
  _create_surface tree ;;;
  draw tree.

(** Attributes that [Surface] defines and that cannot be called with a
    node: [read] and [_set_context_size] take another number of
    arguments; the fields that [__init__] sets are not callable;
    [__metaclass__], the class [abc.ABCMeta], needs three arguments; and
    the attributes that the class statement creates, the doc string, the
    module name, the instance dictionary and the weak reference slot, are
    not callable.  Each raises [TypeError]. *)
Definition not_handlers : list String.string :=
  ["read"; "_set_context_size"; "cairo"; "context"; "cursor_position";
   "bytesio"; "__metaclass__"; "__doc__"; "__module__"; "__dict__";
   "__weakref__"].

(** [if hasattr(self, node.tag): getattr(self, node.tag)(node)]: the
    attribute named by the tag, whatever it is, is called with the
    node. *)
Definition dispatch (draw : node -> M unit) (fuel : nat) (n : node) : M node :=
  let t := tag n in
  if String.eqb t "circle" then circle n
  else if String.eqb t "ellipse" then ellipse n
  else if String.eqb t "path" then path fuel n ;;; ret n
  else if String.eqb t "line" then line n
  else if String.eqb t "polyline" then polyline n
  else if String.eqb t "polygon" then polygon n
  else if String.eqb t "rect" then rect n
  else if String.eqb t "tref" then tref draw n
  else if String.eqb t "tspan" then tspan n
  else if String.eqb t "text" then text n
  else if String.eqb t "use" then use draw n
  else if String.eqb t "draw" then draw n ;;; ret n
  else if String.eqb t "__init__" then __init__ draw n ;;; ret n
  else if String.eqb t "_create_surface" then _create_surface n ;;; ret n
  else if mem_string t not_handlers then raise TypeError
  else match other_attr t with
       | Some attr => attr n
       | None => ret n
       end.

(** [Surface.draw].  The fuel bounds the depth of the recursion, which
    the trees a [use] loads may make unbounded, and the rounds of the
    loop of [path]. *)
Fixpoint draw (fuel : nat) (n : node) : M unit :=
  match fuel with
  | O => lift Timeout
  | S fuel' =>
      if String.eqb (tag n) "defs" then ret tt
      else
        call Ctx.save ;;;
        x <- lift (size (get n "x")) ;;
        y <- lift (size (get n "y")) ;;
        call2 Ctx.move_to x y ;;;
        transform n ;;;
        let n := if mem_string (tag n) PATH_TAGS && falsy (get n "stroke-width")
                 then set_attr "stroke-width" "1" n else n in
        n <- dispatch (draw fuel') fuel' n ;;
        opacity <- lift (float_attr n "opacity") ;;
        stroke_opacity <- lift (o <- float_attr n "stroke-opacity" ;;
                                Ok (opacity * o)%float)%res ;;
        fill_opacity <- lift (o <- float_attr n "fill-opacity" ;;
                              Ok (opacity * o)%float)%res ;;
        (if match get n "fill-rule" with
            | Some r => String.eqb r "evenodd"
            | None => false
            end
         then call Ctx.set_fill_rule_even_odd else ret tt) ;;;
        set_source (get n "fill") (VFloat fill_opacity) ;;;
        call Ctx.fill_preserve ;;;
        width <- lift (size (get n "stroke-width")) ;;
        call1 Ctx.set_line_width width ;;;
        set_source (get n "stroke") (VFloat stroke_opacity) ;;;
        call Ctx.stroke ;;;
        iterM (draw fuel') (children n) ;;;
        if negb (root n) then call Ctx.restore else ret tt
  end.

End Methods.

(** * Vocabulary of the properties *)

Unset Implicit Arguments.

(** Whether a result is the float [expected]. *)
Definition is_float (expected : float) (r : res pyval) : bool :=
  match r with
  | Ok (VFloat f) => PrimFloat.eqb f expected
  | _ => false
  end.

(** The units of the table, in order. *)
Definition unit_names : list string := map fst UNITS.

(** Hexadecimal digits, and strings made of them. *)
Definition is_hex (c : ascii) : bool :=
  match Parse.hex_digit c with Some _ => true | None => false end.

(** [hex_channel] returns a float. *)
Definition channel_ok (s : string) : bool :=
  match hex_channel s with Ok (VFloat _) => true | _ => false end.

Definition hex_string (s : string) : bool := Str.all_chars is_hex s.

(** A name table none of whose keys starts with [#]. *)
Definition no_hash_key (COLORS : Dict.t) : Prop :=
  forall k, Str.startswith "#" k = true -> Dict.get k COLORS = None.

(** [_set_context_size] on floats and a four-number view box. *)
Definition fit (width height x y x_size y_size : float) : M unit :=
  _set_context_size (VFloat width) (VFloat height)
                    (Some [VFloat x; VFloat y; VFloat x_size; VFloat y_size]).

(** The state after further calls on the context. *)
Definition after (st : surface) (ops : list Ctx.op) : surface :=
  Surface (context st ++ ops) (cursor_position st).

(** The state after further calls, made one at a time. *)
Definition after_each (st : surface) (ops : list Ctx.op) : surface :=
  fold_left (fun s o => after s [o]) ops st.

(** [a * 2 / 3 + b / 3], the blend of [quadratic_points], on floats. *)
Definition blend (a b : float) : float := (a * 2 / 3 + b / 3)%float.

(** The values of the math library that the C standard fixes exactly:
    [cos] and [sin] at a zero, [atan] at a zero and at the infinities, and
    the two powers the module takes, as the product and the correctly
    rounded square root.  Everywhere else the value is not a number, which
    [math1] turns into an error, so that a run which succeeds with these
    functions has used the exact values only. *)
Module Exact.

Definition is_zero (x : float) : bool := PrimFloat.eqb x 0.
Definition cos (x : float) : float := if is_zero x then 1%float else nan.
Definition sin (x : float) : float := if is_zero x then x else nan.
Definition atan (x : float) : float :=
  if is_zero x then x
  else if PrimFloat.eqb x infinity then (pi / 2)%float
  else if PrimFloat.eqb x neg_infinity then (- (pi / 2))%float
  else nan.
Definition pow (x y : float) : float :=
  if PrimFloat.eqb y 2 then (x * x)%float
  else if PrimFloat.eqb y 0.5 then PrimFloat.sqrt x
  else nan.
End Exact.

(** The radius [rx] that the arc branch uses for the centre, from the
    operands of the command ([x3], [y3] relative to the start point):
    lines 297 and 308-320. *)
Definition corrected_rx (cos sin atan : float -> float) (pow : float -> float -> float)
  (rx ry rotation x3 y3 : pyval) : res pyval :=
  (radii_ratio <- Num.div ry rx ;;
   chord <- arc_chord cos sin atan pow radii_ratio rotation x3 y3 ;;
   arc_radius rx (snd chord))%res.

(** The length [xe] of line 316 on float operands: the offset [(x3, y3)]
    of the end point from the start point is rotated by [- rotation], its
    y component is divided by [ry / rx], and the distance of the result
    to the origin is taken. *)
Definition reduced_chord (cos sin : float -> float)
           (pow : float -> float -> float)
           (rx ry rotation x3 y3 : float) : float :=
  let xe := (x3 * cos (- rotation) - y3 * sin (- rotation))%float in
  let ye := ((y3 * cos (- rotation) + x3 * sin (- rotation)) / (ry / rx))%float in
  pow (pow xe 2 + pow ye 2)%float 0.5%float.

(** Half the distance between the start point of an arc and its end
    point, the latter at [(x3, y3)] from the former. *)
Definition half_chord (x3 y3 : float) : float :=
  (PrimFloat.sqrt (x3 * x3 + y3 * y3) / 2)%float.

(** A call that leaves the stack of saved states as it is. *)
Definition plain (o : Ctx.op) : bool :=
  match o with Ctx.save | Ctx.restore => false | _ => true end.

(** The number of saved states after [ops], from [d] of them; [None] when
    a [restore] finds none. *)
Fixpoint depth_after (d : nat) (ops : list Ctx.op) : option nat :=
  match ops with
  | [] => Some d
  | Ctx.save :: ops' => depth_after (S d) ops'
  | Ctx.restore :: ops' =>
      match d with
      | O => None
      | S d' => depth_after d' ops'
      end
  | _ :: ops' => depth_after d ops'
  end.

(** No node of the subtree carries the root flag. *)
Fixpoint no_root (n : node) : bool :=
  match n with
  | Node _ _ cs _ r => negb r && forallb no_root cs
  end.

Definition plain_children (n : node) : bool := forallb no_root (children n).

(** The names, other than those of the handlers, that [hasattr] finds on
    the surface and whose call may return: [_create_surface], and the
    attributes that [Surface] does not define itself. *)
Definition foreign (other_attr : string -> option (node -> M node))
           (t : string) : bool :=
  String.eqb t "_create_surface"
  || match other_attr t with Some _ => true | None => false end.

(** No element of the subtree is named after such an attribute. *)
Fixpoint known_tags (other_attr : string -> option (node -> M node))
         (n : node) : bool :=
  match n with
  | Node t _ cs _ _ =>
      negb (foreign other_attr t) && forallb (known_tags other_attr) cs
  end.

(** The names under which [draw] finds a method that draws the same node
    again: [draw] itself and [__init__]. *)
Definition recursive_tag (t : string) : bool :=
  String.eqb t "draw" || String.eqb t "__init__".

(** What [use] expects of the tree it loads: the root of a tree, which
    [draw] does not skip, with the flag nowhere below it. *)
Definition drawn_root (other_attr : string -> option (node -> M node))
           (t : node) : Prop :=
  root t = true /\ String.eqb (tag t) "defs" = false /\
  plain_children t = true /\ known_tags other_attr t = true.

Definition loads_roots (other_attr : string -> option (node -> M node))
           (Tree : option string -> node -> res node) : Prop :=
  forall href n t, Tree href n = Ok t -> drawn_root other_attr t.

(** The saved states a frame of [draw] leaves behind: one for the root,
    none otherwise (and none for [defs], which is skipped). *)
Definition frame_depth (n : node) : nat :=
  if String.eqb (tag n) "defs" then 0 else if root n then 1 else 0.

(** What a handler keeps of its node. *)
Definition same (n n' : node) : Prop :=
  tag n' = tag n /\ children n' = children n /\ root n' = root n.

(** [hoare m a b Q]: when [m] returns, its result satisfies [Q], the
    context has received further calls only, and these take any stack of
    [d + a] saved states to [d + b]. *)
Definition hoare {A : Type} (m : M A) (a b : nat) (Q : A -> Prop) : Prop :=
  forall st x st',
    m st = (Ok x, st') ->
    Q x /\
    exists ops, context st' = (context st ++ ops)%list /\
                forall d, depth_after (d + a) ops = Some (d + b).

(** [closes m a b tail Q]: when [m] returns, its result satisfies [Q] and
    the calls it has made are some calls that take any stack of [d + a]
    saved states to [d + b], followed by the calls [tail]. *)
Definition closes {A : Type} (m : M A) (a b : nat) (tail : list Ctx.op)
           (Q : A -> Prop) : Prop :=
  forall st x st',
    m st = (Ok x, st') ->
    Q x /\
    exists body, context st' = (context st ++ body ++ tail)%list /\
                 forall d, depth_after (d + a) body = Some (d + b).

(** The calls of a frame of [draw] on [n]: nothing for [defs]; otherwise
    a [save], calls that leave the stack of saved states as they find it
    and never restore below it, and a [restore] unless [n] is
    root-flagged. *)
Definition frame (n : node) (ops : list Ctx.op) : Prop :=
  if String.eqb (tag n) "defs" then ops = []
  else exists body,
      ops = (Ctx.save :: body ++ (if root n then [] else [Ctx.restore]))%list /\
      forall d, depth_after d body = Some d.

(** [m] makes the calls of a frame on [n]. *)
Definition framed (m : M unit) (n : node) : Prop :=
  forall st st',
    m st = (Ok tt, st') ->
    exists ops, context st' = (context st ++ ops)%list /\ frame n ops.

(** A document to run [draw] on: a group with a transform holding a path
    with an arc, a [use], a [defs], an ellipse and a text; the tree that
    the [use] loads; and stand-ins for the collaborators' queries. *)
Definition example_group : node :=
  Node "g" [("transform", "translate(5)")]
       [ Node "path" [("d", "M0,0 L10,10 a1,1 0 0 1 4,0 Z"); ("fill", "#ff0000")]
              [] None false;
         Node "use" [("x", "3")] [] None false;
         Node "defs" [] [Node "rect" [] [] None false] None false;
         Node "ellipse" [("rx", "3"); ("ry", "2")] [] None false;
         Node "text" [("x", "5")] [] (Some " hi ") false ]
       None false.

Definition example_tree : node := Node "svg" [] [example_group] None true.

Definition example_Tree (href : option string) (n : node) : res node :=
  Ok (Node "svg" [("width", "10"); ("height", "10"); ("viewBox", "0 0 20 20")]
           [Node "rect" [("width", "5"); ("height", "5")] [] None false]
           None true).

(** Stand-ins for the subclass and for a few of the attributes that
    [object] hands down: a [_create_surface] that makes no call, the
    comparisons, which return [NotImplemented] for a node, and [__str__],
    [__repr__] and [__hash__], which take no argument. *)
Definition example_create_surface (n : node) : M unit := ret tt.

Definition example_attr (name : string) : option (node -> M node) :=
  if mem_string name ["__eq__"; "__ne__"; "__lt__"; "__le__"; "__gt__"; "__ge__"]
  then Some ret
  else if mem_string name ["__str__"; "__repr__"; "__hash__"]
  then Some (fun _ => raise TypeError)
  else None.

Definition example_draw : nat -> node -> M unit :=
  draw Exact.cos Exact.sin Exact.atan Exact.pow
       (fun _ => (0, 0)%float) (fun _ _ => (0, 0, 0, 0, 0, 0)%float)
       [("red", "#ff0000")] (fun _ => "0"%string) example_Tree
       example_create_surface example_attr.

Definition fresh_surface : surface := Surface [] (VInt 0, VInt 0).

(** A reference that resolves to a [defs] element, and one that resolves
    to a tree without the root flag. *)
Definition defs_Tree (href : option string) (n : node) : res node :=
  Ok (Node "defs" [] [Node "rect" [] [] None false] None true).

Definition unflagged_Tree (href : option string) (n : node) : res node :=
  Ok (Node "svg" [] [] None false).

(** ** Path text and runs of [path]

    The vocabulary of the property that [path] never reaches its
    [raise NotImplementedError]. *)

(** One of the letters of [PATH_LETTERS]. *)
Definition is_letter (c : ascii) : bool := Str.mem_char c PATH_LETTERS.

(** [s] is empty or starts with a space. *)
Definition space_or_end (s : string) : bool :=
  match s with
  | "" => true
  | String d _ => Ascii.eqb d " "
  end.

(** Every character of [s] in the set [P] is followed by a space or ends
    [s]. *)
Fixpoint padded_by (P : ascii -> bool) (s : string) : bool :=
  match s with
  | "" => true
  | String c r => (negb (P c) || space_or_end r) && padded_by P r
  end.

(** Every path letter of [s] is followed by a space or ends [s]. *)
Definition padded (s : string) : bool := padded_by is_letter s.

(** Every occurrence of the character [l] replaced by [new]: what
    [s.replace(l, new)] computes for a one-character [l]. *)
Fixpoint subst_char (l : ascii) (new s : string) : string :=
  match s with
  | "" => ""
  | String c r =>
      if Ascii.eqb l c then new ++ subst_char l new r
      else String c (subst_char l new r)
  end.

(** No character of [s] is in the set [P]. *)
Fixpoint none_in (P : ascii -> bool) (s : string) : bool :=
  match s with
  | "" => true
  | String c r => negb (P c) && none_in P r
  end.

(** The result [r] is not [NotImplementedError], and satisfies [Q] when it
    is a value. *)
Definition rspec {A : Type} (r : res A) (Q : A -> Prop) : Prop :=
  r <> Raise NotImplementedError /\ forall x, r = Ok x -> Q x.

Abbreviation safe r := (rspec r (fun _ => True)).

(** The same of a method, from every surface. *)
Definition spec {A : Type} (m : M A) (Q : A -> Prop) : Prop :=
  forall st, rspec (fst (m st)) Q.

(** The tests of the chain of branches of [path], in its order. *)
Definition handled (l : string) : bool :=
  Str.contains l "aA"
  || String.eqb l "c" || String.eqb l "C"
  || String.eqb l "h" || String.eqb l "H"
  || String.eqb l "l" || String.eqb l "L"
  || String.eqb l "m" || String.eqb l "M"
  || String.eqb l "q" || String.eqb l "Q"
  || String.eqb l "s" || String.eqb l "S"
  || String.eqb l "t" || String.eqb l "T"
  || String.eqb l "v" || String.eqb l "V"
  || Str.contains l "zZ".

(** What a round of the loop keeps: the text is padded and the letter is
    one of the chain of branches. *)
Definition round_ok (r : string * locals) : Prop :=
  padded (fst r) = true /\ handled (letter (snd r)) = true.

(** The context call of a quadratic branch does not raise the error. *)
Definition curve_ok (curve : pyval -> pyval -> pyval ->
                             pyval -> pyval -> pyval -> M unit) : Prop :=
  forall a b c d e g, spec (curve a b c d e g) (fun _ => True).

(** ** Outcomes, termination and divisions

    The vocabulary of the properties of the parsers and of the handlers
    that follow those of the claims. *)

(** What [DPI * coefficient if coefficient else 1] can be. *)
Definition factor_shape (c : coef) : Prop :=
  unit_factor c = Raise TypeError \/
  unit_factor c = Ok (VInt 1) \/
  exists k, unit_factor c = Ok (VFloat k).

(** What [size] can return or raise. *)
Definition size_shape (r : res pyval) : Prop :=
  match r with
  | Ok (VInt z) => False
  | Ok (VFloat _) | Ok VNone => True
  | Raise e => e = ValueError \/ e = TypeError
  | Timeout => False
  end.

(** A float between 0 and 1. *)
Definition in_unit_interval (f : float) : bool :=
  PrimFloat.leb 0 f && PrimFloat.leb f 1.

Definition channel_in_range (s : string) : bool :=
  match hex_channel s with
  | Ok (VFloat f) => in_unit_interval f
  | _ => false
  end.

(** The names [draw] looks for in a piece of the attribute. *)
Definition transform_names : list string :=
  ["scale"; "translate"; "matrix"; "rotate"].

Definition names_absent (t : string) : Prop :=
  forall name, In name transform_names -> Str.contains name t = false.

(** A bare numeral in the words of the specification: an optional leading
    minus, then decimal digits with one optional decimal point among
    them. *)
Definition bare_numeral (s : string) : bool :=
  let body := match s with String "-" r => r | _ => s end in
  let digits := Str.replace_n "." "" 1 body in
  match digits with
  | "" => false
  | _ => Str.all_chars Str.isdecimal digits
  end.

(** The first of the units without a coefficient, in the order of
    [UNITS], that [s] holds. *)
Definition first_unsupported (s : string) : string :=
  if Str.contains "em" s then "em"
  else if Str.contains "ex" s then "ex" else "%".

(** A number that [size] returns: the integer 0 or a float. *)
Definition sized (v : pyval) : Prop := v = VInt 0 \/ exists f, v = VFloat f.

(** A value that [size] returns: [None] or a number of that kind. *)
Definition size_value (v : pyval) : Prop := v = VNone \/ sized v.

(** A number of that kind that is zero. *)
Definition zero_size (v : pyval) : Prop := sized v /\ Num.truthy v = false.

Definition is_None (v : pyval) : bool :=
  match v with VNone => true | _ => false end.

(** [m] does not return from [st], and leaves it as it is. *)
Definition stops {A : Type} (m : M A) (st : surface) : Prop :=
  snd (m st) = st /\ forall x, fst (m st) <> Ok x.

(** [m] is not cut off for want of fuel. *)
Definition finishes {A : Type} (m : M A) : Prop :=
  forall st, fst (m st) <> Timeout.

(** [r] is not the error [ZeroDivisionError]. *)
Definition no_zero_division {A : Type} (r : res A) : Prop := r <> Raise ZeroDivisionError.

(** [m] does not raise [ZeroDivisionError], from any state. *)
Definition never_divides_by_zero {A : Type} (m : M A) : Prop :=
  forall st, no_zero_division (fst (m st)).

(** A character of an operand: no white space, none of the characters
    that [color] strips, and no upper-case letter. *)
Definition operand_char (c : ascii) : bool :=
  negb (Str.isspace c) && negb (Str.mem_char c " rgba(),")
  && Ascii.eqb (Str.lower_char c) c.

Definition operand (s : string) : bool :=
  Str.truthy s && Str.all_chars operand_char s.

(** A non-empty string of decimal digits. *)
Definition digits (s : string) : bool :=
  Str.truthy s && Str.all_chars Str.isdecimal s.

(** The text of a unit: no digit, no dot, no space, no minus sign. *)
Definition unit_text (u : string) : bool :=
  Str.all_chars (fun c => negb (Str.isdigit_char c) && negb (Str.mem_char c ". -")) u.

(** A name of the table that does not hide the unit [u]: it is the text
    of a unit and does not occur in [u]. *)
Definition before_unit (u : string) (entry : string * coef) : bool :=
  Str.truthy (fst entry) && unit_text (fst entry)
  && negb (Str.contains (fst entry) u).

(** Every minus sign of [s] follows a space ([prev] tells whether a space
    precedes [s]). *)
Fixpoint dash_after_space (prev : bool) (s : string) : bool :=
  match s with
  | "" => true
  | String c r =>
      (negb (Ascii.eqb c "-") || prev) && dash_after_space (Ascii.eqb c " ") r
  end.

(** No two spaces in a row in [s] ([prev] as above). *)
Fixpoint single_spaces (prev : bool) (s : string) : bool :=
  match s with
  | "" => true
  | String c r =>
      negb (prev && Ascii.eqb c " ") && single_spaces (Ascii.eqb c " ") r
  end.

(** None of the attributes [keys] is present in [n]. *)
Definition lacks (n : node) (keys : list string) : Prop :=
  forall k, In k keys -> get n k = None.

(** The elements on which [draw] runs a loop without a measure or calls
    itself outside the tree or on the same node, or runs code that is not
    of this class: [path], the elements that load a tree, the elements
    named [draw] or [__init__], and the elements named after another
    attribute of the surface. *)
Definition unbounded_tag (other_attr : string -> option (node -> M node))
           (t : string) : bool :=
  String.eqb t "path" || String.eqb t "use" || String.eqb t "tref"
  || recursive_tag t || foreign other_attr t.

(** No such element in the tree. *)
Fixpoint bounded (other_attr : string -> option (node -> M node))
         (n : node) : bool :=
  match n with
  | Node t _ cs _ _ =>
      negb (unbounded_tag other_attr t) && forallb (bounded other_attr) cs
  end.

(** The height of the tree. *)
Fixpoint height (n : node) : nat :=
  match n with
  | Node _ _ cs _ _ => S (fold_right (fun c h => Nat.max (height c) h) 0%nat cs)
  end.

(** * Properties *)

(** Two results that differ in a float are told apart by a boolean test that
    computes. *)
Ltac differ_by test :=
  let H := fresh in
  intro H; apply (f_equal test) in H; vm_compute in H; discriminate H.

(** ** The value parser *)

(** C4, as the code has it: [size] returns the integer 0 for a missing or
    empty string, 10.0 for "10", 72.0 for "1in" and 72.0 for "72pt": the
    number is multiplied by [DPI * coefficient], that is by 72 * (1/72). *)
Theorem size_examples :
  size None = Ok (VInt 0) /\
  size (Some "") = Ok (VInt 0) /\
  size (Some "10") = Ok (VFloat 10) /\
  size (Some "1in") = Ok (VFloat 72) /\
  size (Some "72pt") = Ok (VFloat 72).
Proof. repeat split; vm_compute; reflexivity. Qed.

(** C4 as stated fails: [size("72pt")] is not 1.0. *)
Lemma size_72pt_is_not_1 : size (Some "72pt") <> Ok (VFloat 1).
Proof. differ_by (is_float 1). Qed.

Lemma size_units_no_unit (units : list (string * coef)) (s : string) :
  (forall unit, In unit (map fst units) -> Str.contains unit s = false) ->
  size_units units s = Ok VNone.
Proof.
  induction units as [|[unit coefficient] rest IH]; intros H; simpl.
  - reflexivity.
  - rewrite (H unit) by (left; reflexivity).
    apply IH. intros u Hu. apply H. right. exact Hu.
Qed.


Lemma no_unit_in_foo (s : string) :
  Str.contains "mm" s = false -> Str.contains "cm" s = false ->
  Str.contains "in" s = false -> Str.contains "pt" s = false ->
  Str.contains "pc" s = false -> Str.contains "px" s = false ->
  Str.contains "em" s = false -> Str.contains "ex" s = false ->
  Str.contains "%" s = false ->
  forall unit, In unit unit_names -> Str.contains unit s = false.
Proof.
  intros ? ? ? ? ? ? ? ? ? unit Hin. simpl in Hin.
  repeat (destruct Hin as [<-|Hin]; [assumption|]). contradiction.
Qed.



(** ** The colour parser on hexadecimal strings *)

Ltac each_char c :=
  destruct c as [[] [] [] [] [] [] [] []]; try discriminate.

Lemma hex_not_space (c : ascii) : is_hex c = true -> Str.isspace c = false.
Proof. each_char c; intros _; reflexivity. Qed.

Lemma hex_lower (c : ascii) : is_hex c = true -> is_hex (Str.lower_char c) = true.
Proof. each_char c; intros _; reflexivity. Qed.

Lemma hex_channel_two (a b : ascii) :
  is_hex a = true -> is_hex b = true -> channel_ok (String a (String b "")) = true.
Proof.
  each_char a; intros _; each_char b; intros _; vm_compute; reflexivity.
Qed.

Lemma hex_channel_one (a : ascii) :
  is_hex a = true -> channel_ok (String a "") = true.
Proof. each_char a; intros _; vm_compute; reflexivity. Qed.

Lemma rstrip_hex (s : string) :
  hex_string s = true -> Str.rstrip_by Str.isspace s = s.
Proof.
  induction s as [|c r IH]; intros H; [reflexivity|].
  apply andb_prop in H. destruct H as [Hc Hr].
  simpl. rewrite (IH Hr).
  destruct r; [rewrite (hex_not_space c Hc)|]; reflexivity.
Qed.

Lemma lower_hex (s : string) :
  hex_string s = true -> hex_string (Str.lower s) = true.
Proof.
  induction s as [|c r IH]; intros H; [reflexivity|].
  apply andb_prop in H. destruct H as [Hc Hr].
  change (hex_string (Str.lower (String c r)))
    with (is_hex (Str.lower_char c) && hex_string (Str.lower r)).
  rewrite (hex_lower c Hc). exact (IH Hr).
Qed.

Lemma lower_length (s : string) : String.length (Str.lower s) = String.length s.
Proof.
  induction s as [|c r IH]; [reflexivity|].
  change (S (String.length (Str.lower r)) = S (String.length r)).
  rewrite IH. reflexivity.
Qed.

Lemma color_hash (COLORS : Dict.t) (digits : string) (opacity : pyval) :
  no_hash_key COLORS -> hex_string digits = true ->
  color COLORS (Some ("#" ++ digits)) opacity
  = hex_color ("#" ++ Str.lower digits) opacity.
Proof.
  intros HC Hd. unfold color.
  change ("#" ++ digits) with (String "#" digits).
  cbn [Str.truthy negb orb].
  replace (String "#" digits =? "none") with false by reflexivity.
  assert (Hs : Str.strip (String "#" digits) = String "#" digits).
  { unfold Str.strip, Str.strip_by.
    change (Str.lstrip_by Str.isspace (String "#" digits)) with (String "#" digits).
    change (Str.rstrip_by Str.isspace (String "#" digits))
      with (match Str.rstrip_by Str.isspace digits with
            | "" => "#" | r => String "#" r end).
    rewrite (rstrip_hex digits Hd). destruct digits; reflexivity. }
  rewrite Hs.
  change (Str.lower (String "#" digits)) with (String "#" (Str.lower digits)).
  change (Str.startswith "rgba" (String "#" (Str.lower digits))) with false.
  change (Str.startswith "rgb" (String "#" (Str.lower digits))) with false.
  cbv iota. rewrite HC by reflexivity. reflexivity.
Qed.

Lemma channel_ok_inv (s : string) :
  channel_ok s = true -> exists f, hex_channel s = Ok (VFloat f).
Proof.
  unfold channel_ok. destruct (hex_channel s) as [[| |f]| |]; try discriminate.
  intros _. exists f. reflexivity.
Qed.

Lemma hex_string_cons (c : ascii) (r : string) :
  hex_string (String c r) = true -> is_hex c = true /\ hex_string r = true.
Proof. intros H. apply andb_prop in H. exact H. Qed.

Lemma hex_color_short (ds : string) (opacity : pyval) :
  hex_string ds = true -> (String.length ds <= 2)%nat ->
  hex_color ("#" ++ ds) opacity = Raise ValueError.
Proof.
  intros H Hlen.
  destruct ds as [|a [|b [|c r]]]; [reflexivity| | |simpl in Hlen; lia].
  - destruct (hex_string_cons _ _ H) as [Ha _].
    unfold hex_color. cbn -[hex_channel].
    destruct (channel_ok_inv _ (hex_channel_one a Ha)) as [f ->]. reflexivity.
  - destruct (hex_string_cons _ _ H) as [Ha H1].
    destruct (hex_string_cons _ _ H1) as [Hb _].
    unfold hex_color. cbn -[hex_channel].
    destruct (channel_ok_inv _ (hex_channel_two a b Ha Hb)) as [f ->]. reflexivity.
Qed.

Lemma hex_color_long (ds : string) (opacity : pyval) :
  hex_string ds = true ->
  (String.length ds = 5 \/ String.length ds = 7 \/ 9 <= String.length ds)%nat ->
  (exists r g b,
      hex_color ("#" ++ ds) opacity = Ok (VFloat r, VFloat g, VFloat b, opacity)) /\
  hex_color ("#" ++ ds) opacity = hex_color ("#" ++ Str.take 6 ds) opacity.
Proof.
  intros H Hlen.
  destruct ds as [|a [|b [|c [|d [|e r]]]]]; try (simpl in Hlen; lia).
  destruct (hex_string_cons _ _ H) as [Ha H1].
  destruct (hex_string_cons _ _ H1) as [Hb H2].
  destruct (hex_string_cons _ _ H2) as [Hc H3].
  destruct (hex_string_cons _ _ H3) as [Hd H4].
  destruct (hex_string_cons _ _ H4) as [He H5].
  destruct (channel_ok_inv _ (hex_channel_two a b Ha Hb)) as [f1 E1].
  destruct (channel_ok_inv _ (hex_channel_two c d Hc Hd)) as [f2 E2].
  destruct r as [|f [|g r]].
  - destruct (channel_ok_inv _ (hex_channel_one e He)) as [f3 E3].
    split; [|reflexivity].
    exists f1, f2, f3. unfold hex_color. cbn -[hex_channel].
    rewrite E1, E2, E3. reflexivity.
  - simpl in Hlen; lia.
  - destruct (hex_string_cons _ _ H5) as [Hf _].
    destruct (channel_ok_inv _ (hex_channel_two e f He Hf)) as [f3 E3].
    assert (E : forall t, t = "" \/ (exists h i u, t = String h (String i u)) ->
                hex_color ("#" ++ String a (String b (String c (String d
                   (String e (String f (String g t))))))) opacity
                = Ok (VFloat f1, VFloat f2, VFloat f3, opacity)).
    { intros t [->|(h & i & u & ->)];
        unfold hex_color; cbn -[hex_channel]; rewrite E1, E2, E3; reflexivity. }
    assert (E6 : hex_color ("#" ++ String a (String b (String c (String d
                   (String e (String f ""))))))  opacity
                 = Ok (VFloat f1, VFloat f2, VFloat f3, opacity)).
    { unfold hex_color; cbn -[hex_channel]; rewrite E1, E2, E3; reflexivity. }
    assert (Ht : r = "" \/ (exists h i u, r = String h (String i u))).
    { destruct r as [|h [|i u]]; [left; reflexivity|simpl in Hlen; lia|].
      right. exists h, i, u. reflexivity. }
    rewrite (E r Ht). split; [exists f1, f2, f3; reflexivity|].
    symmetry. exact E6.
Qed.

Lemma take_hex (n : nat) (s : string) :
  hex_string s = true -> hex_string (Str.take n s) = true.
Proof.
  revert s. induction n as [|n IH]; intros [|c r] H; try reflexivity.
  destruct (hex_string_cons _ _ H) as [Hc Hr].
  change (is_hex c && hex_string (Str.take n r) = true).
  rewrite Hc. exact (IH r Hr).
Qed.

Lemma lower_take (n : nat) (s : string) :
  Str.lower (Str.take n s) = Str.take n (Str.lower s).
Proof.
  revert s. induction n as [|n IH]; intros [|c r]; try reflexivity.
  change (String (Str.lower_char c) (Str.lower (Str.take n r))
          = String (Str.lower_char c) (Str.take n (Str.lower r))).
  rewrite IH. reflexivity.
Qed.

(** C9, as the code has it.  For a string made of [#] and hexadecimal
    digits, under a name table none of whose keys starts with [#]: with
    fewer than three digits a channel slice is empty and [color] raises
    [ValueError]; with five, seven, or nine and more digits it does not
    raise: the channels are read from the slices [1:3], [3:5] and [5:7], so
    that the digits past the sixth are dropped without notice. *)
Theorem color_hex_lengths (COLORS : Dict.t) (digits : string) (opacity : pyval) :
  no_hash_key COLORS ->
  hex_string digits = true ->
  ((String.length digits <= 2)%nat ->
   color COLORS (Some ("#" ++ digits)) opacity = Raise ValueError) /\
  ((String.length digits = 5 \/ String.length digits = 7 \/
    9 <= String.length digits)%nat ->
   (exists r g b,
       color COLORS (Some ("#" ++ digits)) opacity
       = Ok (VFloat r, VFloat g, VFloat b, opacity)) /\
   color COLORS (Some ("#" ++ digits)) opacity
   = color COLORS (Some ("#" ++ Str.take 6 digits)) opacity).
Proof.
  intros HC Hd. split; intros Hlen.
  - rewrite (color_hash _ _ opacity HC Hd).
    apply hex_color_short; [apply lower_hex; exact Hd|].
    rewrite lower_length. exact Hlen.
  - rewrite (color_hash _ _ opacity HC Hd).
    rewrite (color_hash _ _ opacity HC (take_hex 6 _ Hd)).
    rewrite lower_take.
    apply hex_color_long; [apply lower_hex; exact Hd|].
    rewrite lower_length. exact Hlen.
Qed.

Lemma no_hash_key_red : no_hash_key [("red", "#ff0000")].
Proof.
  intros k Hk. simpl. destruct (String.eqb k "red") eqn:E; [|reflexivity].
  apply String.eqb_eq in E. subst k. discriminate Hk.
Qed.

Lemma color_hex_lengths_witness :
  color [("red", "#ff0000")] (Some "#12") (VInt 1) = Raise ValueError /\
  color [("red", "#ff0000")] (Some "#1234567") (VInt 1)
  = color [("red", "#ff0000")] (Some "#123456") (VInt 1).
Proof.
  split.
  - apply (proj1 (@color_hex_lengths [("red", "#ff0000")] "12" (VInt 1)
                    no_hash_key_red eq_refl)).
    simpl. lia.
  - apply (proj2 (@color_hex_lengths [("red", "#ff0000")] "1234567" (VInt 1)
                    no_hash_key_red eq_refl)).
    right. left. reflexivity.
Defined.

(** C9 as stated fails: the six-character string [#12345] is accepted, its
    blue channel read from the single digit [5]. *)
Lemma color_accepts_length_6 :
  color [] (Some "#12345") (VInt 1)
  = Ok (VFloat (18 / 255), VFloat (52 / 255), VFloat (5 / 255), VInt 1).
Proof. vm_compute. reflexivity. Qed.

(** ** Viewport fitting *)

Lemma after_after st ops ops' : after (after st ops) ops' = after st (ops ++ ops').
Proof. unfold after. simpl. rewrite <- app_assoc. reflexivity. Qed.

Lemma div_float (a b : float) :
  PrimFloat.eqb b 0 = false -> Num.div (VFloat a) (VFloat b) = Ok (VFloat (a / b)).
Proof. intros H. unfold Num.div. simpl. rewrite H. reflexivity. Qed.

Lemma div_by_2 (a : float) : Num.div (VFloat a) (VInt 2) = Ok (VFloat (a / 2)).
Proof. reflexivity. Qed.

Lemma viewport_general (w h x y xs ys : float) (st : surface) :
  PrimFloat.eqb xs 0 = false -> PrimFloat.eqb ys 0 = false ->
  PrimFloat.ltb (w / xs) (h / ys) = true \/ PrimFloat.ltb (h / ys) (w / xs) = true ->
  exists t1 t2 m tail r,
    fit w h x y xs ys st
    = (r, after st (Ctx.translate t1 t2 :: Ctx.scale m m :: tail)) /\
    ((m = (w / xs)%float /\ PrimFloat.ltb (w / xs) (h / ys) = true) \/
     (m = (h / ys)%float /\ PrimFloat.ltb (h / ys) (w / xs) = true)).
Proof.
  intros Hx Hy Hlt.
  unfold fit, _set_context_size.
  cbn [unpack4 bindM lift].
  rewrite (div_float w xs Hx), (div_float h ys Hy).
  cbn [bindM lift Num.gt Num.lt Num.as_float bind].
  destruct (PrimFloat.ltb (h / ys) (w / xs)) eqn:G.
  - destruct (PrimFloat.eqb (h / ys) 0) eqn:Z.
    + eexists _, _, _, _, _. split; [|right; split; reflexivity].
      unfold bindM, lift, call2, call, after. cbn. rewrite Z. cbn. 
      rewrite <- !app_assoc. cbn. reflexivity.
    + eexists _, _, _, _, _. split; [|right; split; reflexivity].
      unfold bindM, lift, call2, call, after. cbn. rewrite Z. cbn.
      rewrite <- !app_assoc. cbn. reflexivity.
  - destruct Hlt as [L|L]; [|discriminate L].
    unfold bindM at 1. unfold lift at 1. rewrite L.
    destruct (PrimFloat.eqb (w / xs) 0) eqn:Z.
    + eexists _, _, _, _, _. split; [|left; split; reflexivity].
      unfold bindM, lift, call2, call, after. cbn. rewrite Z. cbn.
      rewrite <- !app_assoc. cbn. reflexivity.
    + eexists _, _, _, _, _. split; [|left; split; reflexivity].
      unfold bindM, lift, call2, call, after. cbn. rewrite Z. cbn.
      rewrite <- !app_assoc. cbn. reflexivity.
Qed.

(** C6: the view box (0, 0, 200, 100) fitted into 100 by 100 is scaled by
    0.5 on both axes and moved 25 units down; the view box (0, 0, 100, 200)
    is scaled by 0.5 and moved 25 units to the right; and whenever one
    ratio is less than the other, the scale call uses the lesser one on
    both axes (for float arguments and non-zero view box sizes). *)
Theorem viewport_fit :
  (forall st,
      fit 100 100 0 0 200 100 st
      = (Ok tt, after st [Ctx.translate 0 25; Ctx.scale 0.5 0.5;
                          Ctx.translate (-0) (-0)])) /\
  (forall st,
      fit 100 100 0 0 100 200 st
      = (Ok tt, after st [Ctx.translate 25 0; Ctx.scale 0.5 0.5;
                          Ctx.translate (-0) (-0)])) /\
  (forall w h x y xs ys st,
      PrimFloat.eqb xs 0 = false -> PrimFloat.eqb ys 0 = false ->
      PrimFloat.ltb (w / xs) (h / ys) = true \/
      PrimFloat.ltb (h / ys) (w / xs) = true ->
      exists t1 t2 m tail r,
        fit w h x y xs ys st
        = (r, after st (Ctx.translate t1 t2 :: Ctx.scale m m :: tail)) /\
        ((m = (w / xs)%float /\ PrimFloat.ltb (w / xs) (h / ys) = true) \/
         (m = (h / ys)%float /\ PrimFloat.ltb (h / ys) (w / xs) = true))).
Proof.
  split; [|split].
  - intros st. unfold fit, _set_context_size, bindM, lift, call2, call, after.
    cbn. rewrite <- !app_assoc. reflexivity.
  - intros st. unfold fit, _set_context_size, bindM, lift, call2, call, after.
    cbn. rewrite <- !app_assoc. reflexivity.
  - exact viewport_general.
Qed.

Lemma viewport_fit_witness :
  exists t1 t2 m tail r,
    fit 100 100 0 0 200 100 (Surface [] (VInt 0, VInt 0))
    = (r, after (Surface [] (VInt 0, VInt 0))
                (Ctx.translate t1 t2 :: Ctx.scale m m :: tail)) /\
    ((m = (100 / 200)%float /\
      PrimFloat.ltb (100 / 200) (100 / 100) = true) \/
     (m = (100 / 100)%float /\
      PrimFloat.ltb (100 / 100) (100 / 200) = true)).
Proof.
  exact (proj2 (proj2 viewport_fit) 100%float 100%float 0%float 0%float
               200%float 100%float (Surface [] (VInt 0, VInt 0))
               eq_refl eq_refl (or_introl eq_refl)).
Defined.

(** ** The transform resolver *)

(** C7: from any state of the context, "translate(10)" resolves to the
    same calls as "translate(10,10)", namely one [translate(10, 10)]; in
    general a single operand of [translate] or [scale] is used for both
    axes. *)
Theorem translate_single_operand :
  (forall st, resolve_transform "translate(10)" st
              = resolve_transform "translate(10,10)" st) /\
  (forall st, resolve_transform "translate(10)" st
              = (Ok tt, after st [Ctx.translate 10 10])) /\
  (forall v, apply_transform "translate" [v] = apply_transform "translate" [v; v]) /\
  (forall v, apply_transform "scale" [v] = apply_transform "scale" [v; v]).
Proof.
  repeat split; intros; reflexivity.
Qed.

(** ** Runs of the path interpreter *)

Lemma after_nil (st : surface) : after st [] = st.
Proof. destruct st. unfold after. simpl. rewrite app_nil_r. reflexivity. Qed.

Lemma after_each_eq (ops : list Ctx.op) (st : surface) :
  after_each st ops = after st ops.
Proof.
  revert st. induction ops as [|o ops IH]; intros st.
  - symmetry. apply after_nil.
  - change (after_each st (o :: ops)) with (after_each (after st [o]) ops).
    rewrite IH, after_after. reflexivity.
Qed.

(** A run on concrete text computes; the calls it leaves are compared one
    by one. *)
Ltac by_run := intros; rewrite <- after_each_eq; vm_compute; reflexivity.

Section PathRuns.

Variables cos sin atan : float -> float.
Variable pow : float -> float -> float.
Variable get_current_point : list Ctx.op -> float * float.

Let run := path_data cos sin atan pow get_current_point.
Let rounds := path_rounds cos sin atan pow get_current_point.

(** The path of the specification's first example. *)
Lemma path_move_line_close (fuel : nat) (st : surface) :
  run (3 + fuel) "M0,0 L10,10 Z" st
  = (Ok tt, after st [Ctx.move_to 0 0; Ctx.line_to 10 10; Ctx.close_path]).
Proof. by_run. Qed.

(** C2 fails on the code: on "M0,0 Q5,10 10,0" the move is made, then
    [string.split("T", 1)] yields a single piece, its unpacking into two
    names raises [ValueError], and no curve is emitted.  Any fuel of two
    rounds or more gives this outcome. *)
Theorem quadratic_without_T_raises (fuel : nat) (st : surface) :
  run (2 + fuel) "M0,0 Q5,10 10,0" st
  = (Raise ValueError, after st [Ctx.move_to 0 0]).
Proof. by_run. Qed.

(** The sibling case: followed by a [T] group, the same [Q] group emits
    its cubic, whose control points blend the quadratic control point
    (5, 10) with the current point (0, 0) and with the end point (10, 0),
    two thirds to one third. *)
Lemma quadratic_with_T (fuel : nat) (st : surface) :
  let cubic :=
    Ctx.curve_to (blend 5 0) (blend 10 0) (blend 5 10) (blend 10 0) 10 0 in
  get_current_point (context (after_each st [Ctx.move_to 0 0]))
  = (0, 0)%float ->
  get_current_point (context (after_each st [Ctx.move_to 0 0; cubic]))
  = (10, 0)%float ->
  run (3 + fuel) "M0,0 Q5,10 10,0 T20,0" st
  = (Ok tt, after st [Ctx.move_to 0 0; cubic;
                      Ctx.curve_to (blend 15 10) (blend (-10) 0)
                                   (blend 15 20) (blend (-10) 0) 20 0]).
Proof.
  intros cubic H1 H2. subst cubic.
  rewrite <- after_each_eq.
  vm_compute in H1. vm_compute in H2.
  vm_compute. rewrite H1. vm_compute. rewrite H2. vm_compute. reflexivity.
Qed.

(** C3 fails on the code: with [rx = 0] the ratio [ry / rx] divides by zero,
    and the interpreter raises [ZeroDivisionError] right after the move. *)
Theorem arc_zero_radius_raises (fuel : nat) (st : surface) :
  run (2 + fuel) "M0,0 A0,5 0 0 1 10,10" st
  = (Raise ZeroDivisionError, after st [Ctx.move_to 0 0]).
Proof. by_run. Qed.

(** Once the text left is a token that is no path letter while the active
    letter is [Z], every round closes the path and leaves the text as it
    is. *)
Lemma stuck_loop (L : locals) (fuel : nat) (st : surface) :
  letter L = "Z" ->
  rounds fuel "X" L st = (Timeout, after st (repeat Ctx.close_path fuel)).
Proof.
  revert L st. induction fuel as [|fuel IH]; intros L st HL.
  - rewrite after_nil. reflexivity.
  - destruct L as [l ll a b c d e f]. simpl in HL. subst l.
    change (rounds (S fuel) "X" (Locals "Z" ll a b c d e f) st)
      with (rounds fuel "X" (Locals "Z" (Some "Z") a b c d e f)
                   (after st [Ctx.close_path])).
    rewrite IH by reflexivity.
    rewrite after_after. reflexivity.
Qed.

(** C5 fails on the code: a letter outside [PATH_LETTERS] is never seen as
    a command.  After [Z] the lone letter [X] is left unread and the loop
    closes the path for ever (whatever the fuel, the run is cut off); after
    [M] the same letter is unpacked as a coordinate pair and raises
    [ValueError]; and in "L5px,5px" the letters are read as a unit, and
    the line is drawn with no error at all. *)
Theorem unknown_letter_not_refused :
  (forall fuel st,
      run (2 + fuel) "M0,0 Z X" st
      = (Timeout,
         after st (Ctx.move_to 0 0 :: repeat Ctx.close_path (S fuel)))) /\
  (forall fuel st,
      run (2 + fuel) "M0,0 X" st
      = (Raise ValueError, after st [Ctx.move_to 0 0])) /\
  (forall fuel st,
      run (3 + fuel) "M0,0 L5px,5px" st
      = (Ok tt, after st [Ctx.move_to 0 0; Ctx.line_to 5 5])).
Proof.
  split; [|split].
  - intros fuel st.
    change (run (2 + fuel) "M0,0 Z X" st)
      with (rounds fuel "X"
                   (Locals "Z" (Some "Z") None None None None None None)
                   (after (after st [Ctx.move_to 0 0]) [Ctx.close_path])).
    rewrite stuck_loop by reflexivity.
    rewrite !after_after. reflexivity.
  - by_run.
  - by_run.
Qed.

End PathRuns.

(** The other zero radius, on an example.  With [ry = 0] the ratio [ry / rx] is 0.0,
    and the statement [ye /= radii_ratio] divides by it: the interpreter
    raises [ZeroDivisionError] after the move, with the exact values of
    the trigonometric functions at 0. *)
Lemma arc_zero_ry_raises
        (get_current_point : list Ctx.op -> float * float)
        (fuel : nat) (st : surface) :
  path_data Exact.cos Exact.sin Exact.atan Exact.pow get_current_point
            (2 + fuel) "M0,0 a5,0 0 0 1 10,10" st
  = (Raise ZeroDivisionError, after st [Ctx.move_to 0 0]).
Proof. by_run. Qed.

(** ** The radius correction of arcs *)

Lemma bind_ok {A B : Type} (m : res A) (f : A -> res B) (b : B) :
  bind m f = Ok b -> exists a, m = Ok a /\ f a = Ok b.
Proof. destruct m as [a| |]; simpl; intros H; try discriminate. exists a. auto. Qed.

Ltac bind_inv H :=
  let a := fresh "v" in
  let E := fresh "E" in
  apply bind_ok in H; destruct H as (a & E & H).

Section Arc.
Variables cos sin atan : float -> float.
Variable pow : float -> float -> float.

Lemma pow_half_float (v r : pyval) :
  pow_half pow v = Ok r -> exists f, r = VFloat f.
Proof.
  unfold pow_half. intros H. bind_inv H.
  destruct (_ && _) in H; [discriminate|].
  injection H as <-. eexists. reflexivity.
Qed.

Lemma arc_chord_float (radii_ratio rotation x3 y3 angle v : pyval) :
  arc_chord cos sin atan pow radii_ratio rotation x3 y3 = Ok (angle, v) ->
  exists xe, v = VFloat xe.
Proof.
  unfold arc_chord. intros H.
  repeat (bind_inv H; try match type of H with
                          | (let '(_, _) := ?p in _) = _ => destruct p
                          end).
  injection H as <- <-. exact (pow_half_float _ _ E6).
Qed.

Lemma arc_radius_float (rx xe : float) :
  arc_radius (VFloat rx) (VFloat xe)
  = Ok (VFloat (if PrimFloat.ltb rx (xe / 2) then xe / 2 else rx)%float).
Proof.
  unfold arc_radius. change (Num.div (VFloat xe) (VInt 2)) with (Ok (VFloat (xe / 2))).
  cbn [bind]. unfold Num.max, Num.gt, Num.lt. cbn [Num.as_float bind].
  destruct (PrimFloat.ltb rx (xe / 2)); reflexivity.
Qed.

Lemma math1_result (fn : float -> float) (x : float) (v : pyval) :
  math1 fn (VFloat x) = Ok v -> v = VFloat (fn x).
Proof.
  unfold math1. cbn [Num.as_float bind]. cbv zeta.
  destruct (_ || _); [discriminate|]. intros H. injection H as <-. reflexivity.
Qed.

(** An operation one of whose operands is a float works on the floats
    of both. *)
Lemma arith_result_r fz ff (a : pyval) (fa g : float) (v : pyval) :
  Num.as_float a = Ok fa ->
  Num.arith fz ff a (VFloat g) = Ok v -> v = VFloat (ff fa g).
Proof.
  intros Ha. destruct a as [|z|f]; [discriminate Ha| |];
    cbn [Num.arith Num.as_float bind] in *; rewrite ?Ha; cbn [bind];
    [|injection Ha as ->]; intros H; injection H as <-; reflexivity.
Qed.

Lemma arith_result_l fz ff (b : pyval) (g fb : float) (v : pyval) :
  Num.as_float b = Ok fb ->
  Num.arith fz ff (VFloat g) b = Ok v -> v = VFloat (ff g fb).
Proof.
  intros Hb. destruct b as [|z|f]; [discriminate Hb| |];
    cbn [Num.arith Num.as_float bind] in *; rewrite ?Hb; cbn [bind];
    [|injection Hb as ->]; intros H; injection H as <-; reflexivity.
Qed.

Lemma rotate_result (x y : pyval) (fx fy a : float) (x' y' : pyval) :
  Num.as_float x = Ok fx -> Num.as_float y = Ok fy ->
  rotate cos sin x y (VFloat a) = Ok (x', y') ->
  x' = VFloat (fx * cos a - fy * sin a) /\
  y' = VFloat (fy * cos a + fx * sin a).
Proof.
  intros Hx Hy. unfold rotate. intros H.
  bind_inv H. apply math1_result in E. subst.
  bind_inv H. apply (arith_result_r _ _ _ _ _ _ Hx) in E. subst.
  bind_inv H. apply math1_result in E. subst.
  bind_inv H. apply (arith_result_r _ _ _ _ _ _ Hy) in E. subst.
  cbn [Num.sub Num.arith Num.as_float bind] in H.
  bind_inv H. apply math1_result in E. subst.
  bind_inv H. apply (arith_result_r _ _ _ _ _ _ Hy) in E. subst.
  bind_inv H. apply math1_result in E. subst.
  bind_inv H. apply (arith_result_r _ _ _ _ _ _ Hx) in E. subst.
  cbn [Num.add Num.arith Num.as_float bind] in H.
  injection H as <- <-. split; reflexivity.
Qed.

Lemma div_result (a : pyval) (fa y : float) (v : pyval) :
  Num.as_float a = Ok fa ->
  Num.div a (VFloat y) = Ok v -> v = VFloat (fa / y).
Proof.
  intros Ha. unfold Num.div.
  destruct a as [|z|f]; [discriminate Ha| |];
    cbn [Num.as_float bind] in *; rewrite ?Ha; cbn [bind];
    [|injection Ha as ->];
    (destruct (PrimFloat.eqb y 0); [discriminate|]);
    intros H; injection H as <-; reflexivity.
Qed.

Lemma pow2_result (x : float) (v : pyval) :
  pow2 pow (VFloat x) = Ok v -> v = VFloat (pow x 2).
Proof.
  unfold pow2. cbv zeta. destruct (_ && _); [discriminate|].
  intros H. injection H as <-. reflexivity.
Qed.

Lemma pow_half_result (x : float) (v : pyval) :
  pow_half pow (VFloat x) = Ok v -> v = VFloat (pow x 0.5).
Proof.
  unfold pow_half. cbn [Num.as_float bind]. destruct (_ && _); [discriminate|].
  intros H. injection H as <-. reflexivity.
Qed.

(** The length that [arc_chord] returns, on operands that are numbers. *)
Lemma arc_chord_result (x3 y3 : pyval) (rx ry rotation fx fy : float)
      (angle v : pyval) :
  Num.as_float x3 = Ok fx -> Num.as_float y3 = Ok fy ->
  arc_chord cos sin atan pow (VFloat (ry / rx)) (VFloat rotation) x3 y3
  = Ok (angle, v) ->
  v = VFloat (reduced_chord cos sin pow rx ry rotation fx fy).
Proof.
  intros Hx Hy. unfold arc_chord. cbn [Num.neg bind]. intros H.
  bind_inv H. destruct v0 as [x' y'].
  apply (rotate_result _ _ _ _ _ _ _ Hx Hy) in E. destruct E as [-> ->].
  bind_inv H. apply (div_result (VFloat _) _ _ _ eq_refl) in E. subst.
  bind_inv H. clear E.
  bind_inv H. apply pow2_result in E. subst.
  bind_inv H. apply pow2_result in E. subst.
  cbn [Num.add Num.arith Num.as_float bind] in H.
  bind_inv H. apply pow_half_result in E. subst.
  injection H as _ <-. reflexivity.
Qed.

(** The radius that [arc_center] returns is the one of line 320. *)
Lemma arc_center_radius (rx : float) (radii_ratio rotation x3 y3 : pyval)
      (large sweep : bool) (xc yc rx' angle1 angle2 : pyval) :
  arc_center cos sin atan pow (VFloat rx) radii_ratio rotation large sweep x3 y3
  = Ok (xc, yc, rx', angle1, angle2) ->
  exists angle xe,
    arc_chord cos sin atan pow radii_ratio rotation x3 y3 = Ok (angle, VFloat xe) /\
    rx' = VFloat (if PrimFloat.ltb rx (xe / 2) then xe / 2 else rx)%float.
Proof.
  unfold arc_center. intros H.
  bind_inv H. destruct v as [angle v].
  destruct (arc_chord_float _ _ _ _ _ _ E) as [xe ->].
  rewrite arc_radius_float in H. cbn [bind] in H.
  remember (VFloat (if PrimFloat.ltb rx (xe / 2) then xe / 2 else rx)%float) as r eqn:Er.
  repeat (bind_inv H; try match type of H with
                          | (let '(_, _) := ?p in _) = _ => destruct p
                          end).
  injection H as _ _ <- _ _.
  exists angle, xe. split; [exact E|exact Er].
Qed.

(** C1, as the code has it, for an arc whose operands are numbers: [rx]
    is then a float once [ry / rx] is computed, and [ry] and the offset
    [(x3, y3)] of the end point from the start point are floats or the
    integer 0 of a missing operand, with the floats [fry], [fx] and [fy]
    as values.  Let [xe] be the length of that offset once it is rotated
    by [- rotation] and its y component is divided by [ry / rx], each
    step in floating point as lines 297 and 308-316 compute it
    ([reduced_chord]).  The radius used for the centre, [rx'], is
    [xe / 2] exactly when [rx] is less than that half, and [rx] itself
    otherwise; so it is never less than [rx]. *)
Theorem radius_correction (rx rotation : float) (ry x3 y3 : pyval)
        (fry fx fy : float) (radii_ratio : pyval)
        (large sweep : bool) (xc yc rx' angle1 angle2 : pyval) :
  Num.as_float ry = Ok fry ->
  Num.as_float x3 = Ok fx -> Num.as_float y3 = Ok fy ->
  Num.div ry (VFloat rx) = Ok radii_ratio ->
  arc_center cos sin atan pow (VFloat rx) radii_ratio (VFloat rotation)
             large sweep x3 y3
  = Ok (xc, yc, rx', angle1, angle2) ->
  let xe := reduced_chord cos sin pow rx fry rotation fx fy in
  radii_ratio = VFloat (fry / rx) /\
  (exists angle,
      arc_chord cos sin atan pow radii_ratio (VFloat rotation) x3 y3
      = Ok (angle, VFloat xe)) /\
  rx' = VFloat (if PrimFloat.ltb rx (xe / 2) then xe / 2 else rx)%float /\
  (PrimFloat.ltb rx (xe / 2) = true -> rx' = VFloat (xe / 2)) /\
  (rx' = VFloat rx \/ exists r, rx' = VFloat r /\ PrimFloat.ltb rx r = true).
Proof.
  intros Hry Hx Hy Hr H xe. apply (div_result _ _ _ _ Hry) in Hr.
  subst radii_ratio.
  destruct (arc_center_radius _ _ _ _ _ _ _ _ _ _ _ _ H)
    as (angle & xe' & Hc & Hx').
  assert (E := arc_chord_result _ _ _ _ _ _ _ _ _ Hx Hy Hc).
  injection E as E. fold xe in E. subst xe'.
  split; [reflexivity|]. split; [exists angle; exact Hc|].
  split; [exact Hx'|]. rewrite Hx'.
  destruct (PrimFloat.ltb rx (xe / 2)) eqn:L.
  - split; [reflexivity|]. right. exists (xe / 2)%float. split; [reflexivity|exact L].
  - split; [discriminate|]. left. reflexivity.
Qed.
End Arc.

Lemma radius_correction_witness :
  let xe := reduced_chord Exact.cos Exact.sin Exact.pow 1 1 0 4 0 in
  VFloat 1 = VFloat (1 / 1) /\
  (exists angle,
      arc_chord Exact.cos Exact.sin Exact.atan Exact.pow (VFloat 1) (VFloat 0)
                (VFloat 4) (VInt 0) = Ok (angle, VFloat xe)) /\
  VFloat 2 = VFloat (if PrimFloat.ltb 1 (xe / 2) then xe / 2 else 1)%float /\
  (PrimFloat.ltb 1 (xe / 2) = true -> VFloat 2 = VFloat (xe / 2)) /\
  (VFloat 2 = VFloat 1 \/ exists r, VFloat 2 = VFloat r /\ PrimFloat.ltb 1 r = true).
Proof.
  apply (radius_correction Exact.cos Exact.sin Exact.atan Exact.pow
           1%float 0%float (VFloat 1) (VFloat 4) (VInt 0)
           1%float 4%float 0%float (VFloat 1) false true
           (VFloat 2) (VFloat 0) (VFloat 2) (VFloat pi) (VFloat 0)).
  - reflexivity.
  - reflexivity.
  - reflexivity.
  - reflexivity.
  - vm_compute. reflexivity.
Defined.

Lemma corrected_rx_of_arc_center
      (cos sin atan : float -> float) (pow : float -> float -> float)
      (rx : float) (ry rotation x3 y3 radii_ratio : pyval)
      (large sweep : bool) (xc yc rx' angle1 angle2 : pyval) :
  Num.div ry (VFloat rx) = Ok radii_ratio ->
  arc_center cos sin atan pow (VFloat rx) radii_ratio rotation large sweep x3 y3
  = Ok (xc, yc, rx', angle1, angle2) ->
  corrected_rx cos sin atan pow (VFloat rx) ry rotation x3 y3 = Ok rx'.
Proof.
  intros Hr H.
  destruct (arc_center_radius _ _ _ _ _ _ _ _ _ _ _ _ _ _ _ _ H)
    as (angle & xe & Hc & ->).
  unfold corrected_rx. rewrite Hr. cbn [bind]. rewrite Hc. cbn [bind snd].
  apply arc_radius_float.
Qed.

Lemma math1_value (fn : float -> float) (x r : float) :
  fn x = r -> is_nan r = false -> Num.is_inf r = false ->
  math1 fn (VFloat x) = Ok (VFloat r).
Proof.
  intros <- Hn Hi. unfold math1. cbn [Num.as_float bind]. cbv zeta.
  rewrite Hn, Hi. reflexivity.
Qed.

Lemma pow2_value (pow : float -> float -> float) (x r : float) :
  pow x 2%float = r -> Num.is_inf r = false ->
  pow2 pow (VFloat x) = Ok (VFloat r).
Proof. intros <- Hi. unfold pow2. cbv zeta. rewrite Hi. reflexivity. Qed.

Lemma pow_half_value (pow : float -> float -> float) (x r : float) :
  pow x 0.5%float = r -> PrimFloat.ltb x 0 = false ->
  pow_half pow (VFloat x) = Ok (VFloat r).
Proof.
  intros <- Hl. unfold pow_half. cbn [Num.as_float bind]. rewrite Hl. reflexivity.
Qed.

(** The ellipse of radii 1 and 2 from the origin to (0, 4), not rotated,
    under any math library with the exact values used on the way: the
    reduced end point is at distance 2, so [rx] stays 1. *)
Lemma corrected_rx_ellipse
      (cos sin atan : float -> float) (pow : float -> float -> float) :
  cos (-0)%float = 1%float -> sin (-0)%float = (-0)%float ->
  atan infinity = (pi / 2)%float ->
  pow 0%float 2%float = 0%float -> pow 2%float 2%float = 4%float ->
  pow 4%float 0.5%float = 2%float ->
  corrected_rx cos sin atan pow (VFloat 1) (VFloat 2) (VFloat 0)
               (VFloat 0) (VFloat 4) = Ok (VFloat 1).
Proof.
  intros Hc Hs Ha H0 H2 H4.
  unfold corrected_rx.
  change (Num.div (VFloat 2) (VFloat 1)) with (Ok (VFloat 2)). cbn [bind].
  unfold arc_chord.
  change (Num.neg (VFloat 0)) with (Ok (VFloat (-0))). cbn [bind].
  unfold rotate.
  rewrite (math1_value cos _ _ Hc eq_refl eq_refl).
  rewrite (math1_value sin _ _ Hs eq_refl eq_refl).
  cbn [bind Num.mul Num.sub Num.add Num.arith Num.as_float].
  change (Num.div (VFloat (4 * 1 + 0 * -0)) (VFloat 2)) with (Ok (VFloat 2)).
  cbn [bind].
  unfold point_angle.
  change (Num.gt (VInt 0) (VFloat (0 * 1 - 4 * -0))) with (Ok false).
  change (Num.gt (VInt 0) (VFloat 2)) with (Ok false).
  cbn [bind].
  change (Num.mul (VInt 0) (VInt 1)) with (Ok (VInt 0)).
  change (Num.sub (VInt 0) (VFloat (0 * 1 - 4 * -0))) with (Ok (VFloat 0)).
  cbn [bind].
  change (Num.truthy (VFloat 0)) with false. cbv iota. cbn [bind].
  rewrite (math1_value atan _ _ Ha eq_refl eq_refl). cbn [bind].
  change (Num.add (VInt 0) (VFloat (pi / 2))) with (Ok (VFloat (pi / 2))).
  cbn [bind].
  change (0 * 1 - 4 * -0)%float with 0%float.
  rewrite (pow2_value pow _ _ H0 eq_refl), (pow2_value pow _ _ H2 eq_refl).
  cbn [bind].
  change (Num.add (VFloat 0) (VFloat 4)) with (Ok (VFloat 4)). cbn [bind].
  rewrite (pow_half_value pow _ _ H4 eq_refl). cbn [bind snd].
  reflexivity.
Qed.

(** C1 as stated fails: for that ellipse [rx = 1] is less than half the
    distance from start to end, which is 2, and the radius used is 1. *)
Lemma radius_not_half_chord :
  corrected_rx Exact.cos Exact.sin Exact.atan Exact.pow
               (VFloat 1) (VFloat 2) (VFloat 0) (VFloat 0) (VFloat 4)
  = Ok (VFloat 1) /\
  PrimFloat.ltb 1 (half_chord 0 4) = true /\
  corrected_rx Exact.cos Exact.sin Exact.atan Exact.pow
               (VFloat 1) (VFloat 2) (VFloat 0) (VFloat 0) (VFloat 4)
  <> Ok (VFloat (half_chord 0 4)).
Proof.
  assert (H : corrected_rx Exact.cos Exact.sin Exact.atan Exact.pow
                (VFloat 1) (VFloat 2) (VFloat 0) (VFloat 0) (VFloat 4)
              = Ok (VFloat 1)).
  { apply corrected_rx_ellipse; reflexivity. }
  split; [exact H|]. split; [reflexivity|].
  rewrite H. differ_by (is_float 1).
Qed.

(** ** Save and restore in the scene walker *)

(** ** The [else] branch of [path] is never taken *)

Lemma padded_tail (c : ascii) (r : string) :
  padded (String c r) = true -> padded r = true.
Proof. unfold padded. simpl. intros H. apply andb_prop in H. apply H. Qed.

Lemma padded_drop (n : nat) (s : string) :
  padded s = true -> padded (Str.drop n s) = true.
Proof.
  revert s. induction n as [|n IH]; intros s H; [exact H|].
  destruct s as [|c r]; [reflexivity|]. simpl. apply IH.
  exact (padded_tail c r H).
Qed.

Lemma find_suffix (sep s a b : string) :
  Str.find sep s = Some (a, b) -> exists n, b = Str.drop n s.
Proof.
  revert a b. induction s as [|c r IH]; intros a b H.
  - simpl in H. destruct (Str.startswith sep ""); [|discriminate H].
    injection H as _ <-. exists (String.length sep). reflexivity.
  - simpl in H. destruct (Str.startswith sep (String c r)).
    + injection H as _ <-. exists (String.length sep). reflexivity.
    + destruct (Str.find sep r) as [[a' b']|] eqn:E; [|discriminate H].
      injection H as _ <-. destruct (IH _ _ eq_refl) as [n ->].
      exists (S n). reflexivity.
Qed.

Lemma padded_find (sep s a b : string) :
  padded s = true -> Str.find sep s = Some (a, b) -> padded b = true.
Proof.
  intros Hp H. destruct (find_suffix _ _ _ _ H) as [n ->].
  apply padded_drop. exact Hp.
Qed.

Lemma padded_split_last (sep : string) (n : nat) (s : string) :
  padded s = true -> padded (last (Str.split_n sep n s) "") = true.
Proof.
  revert s. induction n as [|n IH]; intros s H; [exact H|].
  simpl. destruct (Str.find sep s) as [[a b]|] eqn:E; [|exact H].
  assert (Hb := padded_find _ _ _ _ H E).
  specialize (IH b Hb).
  destruct (Str.split_n sep n b) eqn:E'; [|exact IH].
  destruct n; simpl in E'; [discriminate E'|].
  destruct (Str.find sep b) as [[? ?]|]; discriminate E'.
Qed.

Lemma padded_app_space (s : string) :
  padded s = true -> padded (s ++ " ") = true.
Proof.
  unfold padded.
  induction s as [|c r IH]; intros H; [reflexivity|].
  simpl in H. apply andb_prop in H. destruct H as [H1 H2].
  simpl. rewrite (IH H2), andb_true_r.
  destruct (is_letter c); [|reflexivity]. simpl in *.
  destruct r; [reflexivity|exact H1].
Qed.

Lemma padded_lstrip (p : ascii -> bool) (s : string) :
  padded s = true -> padded (Str.lstrip_by p s) = true.
Proof.
  induction s as [|c r IH]; intros H; [reflexivity|].
  simpl. destruct (p c); [apply IH; exact (padded_tail c r H)|exact H].
Qed.

Lemma rstrip_head (p : ascii -> bool) (s : string) :
  space_or_end s = true -> space_or_end (Str.rstrip_by p s) = true.
Proof.
  destruct s as [|c r]; [reflexivity|]. simpl. intros H.
  destruct (Str.rstrip_by p r); [destruct (p c)|]; simpl; auto.
Qed.

Lemma padded_rstrip (p : ascii -> bool) (s : string) :
  padded s = true -> padded (Str.rstrip_by p s) = true.
Proof.
  unfold padded.
  induction s as [|c r IH]; intros H; [reflexivity|].
  simpl in H. apply andb_prop in H. destruct H as [H1 H2].
  specialize (IH H2).
  change (Str.rstrip_by p (String c r))
    with (match Str.rstrip_by p r with
          | "" => if p c then "" else String c ""
          | r' => String c r'
          end).
  destruct (Str.rstrip_by p r) as [|d r'] eqn:E.
  - destruct (p c); [reflexivity|]. simpl. rewrite orb_true_r. reflexivity.
  - change (padded_by is_letter (String c (String d r')))
      with ((negb (is_letter c) || space_or_end (String d r'))
            && padded_by is_letter (String d r')).
    rewrite IH, andb_true_r.
    destruct (is_letter c); [|reflexivity].
    change (space_or_end (String d r') = true).
    rewrite <- E. apply rstrip_head. exact H1.
Qed.

Lemma padded_strip (s : string) : padded s = true -> padded (Str.strip s) = true.
Proof.
  intros H. unfold Str.strip, Str.strip_by.
  apply padded_rstrip, padded_lstrip, H.
Qed.

(** *** Replacing one character *)

Lemma find_char (l c : ascii) (r : string) :
  Str.find (String l "") (String c r)
  = if Ascii.eqb l c then Some ("", r)
    else match Str.find (String l "") r with
         | Some (a, b) => Some (String c a, b)
         | None => None
         end.
Proof.
  simpl. destruct (Ascii.eqb l c); reflexivity.
Qed.

Lemma find_char_subst (l : ascii) (new s : string) :
  match Str.find (String l "") s with
  | None => subst_char l new s = s
  | Some (a, b) =>
      subst_char l new s = a ++ new ++ subst_char l new b /\
      (String.length b < String.length s)%nat
  end.
Proof.
  induction s as [|c r IH]; [reflexivity|].
  rewrite find_char. simpl subst_char.
  destruct (Ascii.eqb l c).
  - split; [reflexivity|simpl; lia].
  - destruct (Str.find (String l "") r) as [[a b]|].
    + destruct IH as [E Hl]. split; [rewrite E; reflexivity|simpl; lia].
    + rewrite IH. reflexivity.
Qed.

Lemma replace_n_char (l : ascii) (new : string) (n : nat) (s : string) :
  (String.length s <= n)%nat ->
  Str.replace_n (String l "") new n s = subst_char l new s.
Proof.
  revert s. induction n as [|n IH]; intros s Hn.
  - destruct s; [reflexivity|simpl in Hn; lia].
  - simpl. generalize (find_char_subst l new s).
    destruct (Str.find (String l "") s) as [[a b]|].
    + intros [E Hl]. rewrite IH by lia. symmetry. exact E.
    + intros E. symmetry. exact E.
Qed.

Lemma replace_char (l : ascii) (new s : string) :
  Str.replace (String l "") new s = subst_char l new s.
Proof. apply replace_n_char. apply Nat.le_refl. Qed.

Lemma padded_by_ext (P P' : ascii -> bool) (s : string) :
  (forall c, P c = P' c) -> padded_by P s = padded_by P' s.
Proof.
  intros H. induction s as [|c r IH]; [reflexivity|].
  simpl. rewrite H, IH. reflexivity.
Qed.

Lemma padded_by_none (P : ascii -> bool) (s : string) :
  (forall c, P c = false) -> padded_by P s = true.
Proof.
  intros H. induction s as [|c r IH]; [reflexivity|].
  simpl. rewrite H, IH. reflexivity.
Qed.

Lemma space_or_end_subst (l : ascii) (new' r : string) :
  space_or_end r = true ->
  space_or_end (subst_char l (String " " new') r) = true.
Proof.
  destruct r as [|d r]; [reflexivity|]. simpl. intros H.
  destruct (Ascii.eqb l d); [reflexivity|exact H].
Qed.

(** A letter replaced by itself between spaces joins the padded set. *)
Lemma padded_pad (P : ascii -> bool) (l : ascii) (s : string) :
  P " "%char = false -> Ascii.eqb " " l = false ->
  padded_by P s = true ->
  padded_by (fun c => P c || Ascii.eqb c l)
            (subst_char l (String " " (String l " ")) s) = true.
Proof.
  intros Hs Hl. induction s as [|c r IH]; intros H; [reflexivity|].
  simpl in H. apply andb_prop in H. destruct H as [H1 H2].
  specialize (IH H2). simpl subst_char.
  destruct (Ascii.eqb l c) eqn:E.
  - apply Ascii.eqb_eq in E. subst c.
    change (padded_by (fun c => P c || Ascii.eqb c l)
              (String " " (String l (String " "
                 (subst_char l (String " " (String l " ")) r)))) = true).
    cbn [padded_by space_or_end]. rewrite Hs, Hl, IH.
    rewrite Ascii.eqb_refl, orb_true_r. reflexivity.
  - cbn [padded_by]. rewrite IH, andb_true_r.
    rewrite Ascii.eqb_sym in E. rewrite E, orb_false_r.
    destruct (P c); [|reflexivity]. simpl in H1 |- *.
    apply space_or_end_subst. exact H1.
Qed.

Lemma padded_by_app (P : ascii -> bool) (a b : string) :
  none_in P a = true -> padded_by P b = true -> padded_by P (a ++ b) = true.
Proof.
  induction a as [|c r IH]; intros Ha Hb; [exact Hb|].
  simpl in Ha. apply andb_prop in Ha. destruct Ha as [Hc Hr].
  simpl. rewrite Hc, (IH Hr Hb). reflexivity.
Qed.

(** Replacing a character outside the set by text outside the set that
    starts with a space keeps a string padded. *)
Lemma padded_subst (P : ascii -> bool) (l : ascii) (new' s : string) :
  none_in P (String " " new') = true ->
  padded_by P s = true ->
  padded_by P (subst_char l (String " " new') s) = true.
Proof.
  intros Hn. induction s as [|c r IH]; intros H; [reflexivity|].
  simpl in H. apply andb_prop in H. destruct H as [H1 H2].
  specialize (IH H2). simpl subst_char.
  destruct (Ascii.eqb l c) eqn:E.
  - apply (padded_by_app P (String " " new')); assumption.
  - cbn [padded_by]. rewrite IH, andb_true_r.
    destruct (P c); [|reflexivity]. simpl in H1 |- *.
    apply space_or_end_subst. exact H1.
Qed.

(** *** The text [path] starts from is padded *)

Lemma mem_char_app (c : ascii) (a b : string) :
  Str.mem_char c (a ++ b) = Str.mem_char c a || Str.mem_char c b.
Proof.
  induction a as [|d a IH]; [reflexivity|].
  simpl. rewrite IH. apply orb_assoc.
Qed.

Lemma append_assoc (a b c : string) : (a ++ b) ++ c = a ++ b ++ c.
Proof. induction a as [|d a IH]; [reflexivity|]. simpl. rewrite IH. reflexivity. Qed.

Lemma padded_pad_letters (letters done s : string) :
  Str.mem_char " " (done ++ letters) = false ->
  padded_by (fun c => Str.mem_char c done) s = true ->
  padded_by (fun c => Str.mem_char c (done ++ letters))
            (pad_letters letters s) = true.
Proof.
  revert done s. induction letters as [|l letters IH]; intros done s Hs H.
  - simpl. erewrite padded_by_ext; [exact H|].
    intros c. rewrite mem_char_app. simpl. apply orb_false_r.
  - simpl pad_letters.
    rewrite mem_char_app in Hs. apply orb_false_elim in Hs.
    destruct Hs as [Hd Hl]. simpl in Hl. apply orb_false_elim in Hl.
    destruct Hl as [Hl Hr].
    erewrite padded_by_ext
      with (P' := fun c => Str.mem_char c ((done ++ String l "") ++ letters)).
    2:{ intros c. rewrite append_assoc. reflexivity. }
    apply IH.
    + rewrite !mem_char_app, Hd, Hr. simpl. rewrite Hl. reflexivity.
    + rewrite replace_char.
      erewrite padded_by_ext
        with (P' := fun c => Str.mem_char c done || Ascii.eqb c l).
      2:{ intros c. rewrite mem_char_app. simpl. rewrite orb_false_r.
          reflexivity. }
      apply (padded_pad (fun c => Str.mem_char c done)); assumption.
Qed.

Lemma startswith_split (sep s : string) :
  Str.startswith sep s = true ->
  s = sep ++ Str.drop (String.length sep) s.
Proof.
  revert s. induction sep as [|c sep IH]; intros s H; [reflexivity|].
  destruct s as [|d s]; [discriminate H|]. simpl in H.
  apply andb_prop in H. destruct H as [Hc Hs].
  apply Ascii.eqb_eq in Hc. subst d. simpl. f_equal. apply IH. exact Hs.
Qed.

Lemma find_split (sep s a b : string) :
  Str.find sep s = Some (a, b) -> s = a ++ sep ++ b.
Proof.
  revert a b. induction s as [|c r IH]; intros a b H.
  - simpl in H. destruct (Str.startswith sep "") eqn:E; [|discriminate H].
    injection H as <- <-. apply (startswith_split _ _ E).
  - simpl in H. destruct (Str.startswith sep (String c r)) eqn:E.
    + injection H as <- <-. apply (startswith_split _ _ E).
    + destruct (Str.find sep r) as [[a' b']|] eqn:E'; [|discriminate H].
      injection H as <- <-. simpl. f_equal. apply IH. reflexivity.
Qed.

Lemma padded_by_middle (P : ascii -> bool) (a x y : string) :
  P " "%char = false ->
  padded_by P (a ++ String " " y) = true -> padded_by P x = true ->
  padded_by P (a ++ String " " x) = true.
Proof.
  intros Hs H Hx. induction a as [|c r IH].
  - simpl. rewrite Hs, Hx. reflexivity.
  - simpl in H |- *. apply andb_prop in H. destruct H as [H1 H2].
    rewrite (IH H2), andb_true_r.
    destruct (P c); [|reflexivity]. simpl in H1 |- *.
    destruct r; exact H1.
Qed.

Lemma is_letter_space : is_letter " " = false.
Proof. reflexivity. Qed.

Lemma padded_collapse_round (n : nat) (s : string) :
  padded s = true -> padded (Str.replace_n "  " " " n s) = true.
Proof.
  revert s. induction n as [|n IH]; intros s H; [exact H|].
  simpl. destruct (Str.find "  " s) as [[a b]|] eqn:E; [|exact H].
  assert (Hb := padded_find _ _ _ _ H E).
  rewrite (find_split _ _ _ _ E) in H.
  apply (padded_by_middle is_letter a _ (String " " b) is_letter_space H).
  apply IH. exact Hb.
Qed.

Lemma padded_collapse (fuel : nat) (s : string) :
  padded s = true -> padded (collapse_spaces fuel s) = true.
Proof.
  revert s. induction fuel as [|fuel IH]; intros s H; [exact H|].
  simpl. destruct (Str.contains "  " s); [|exact H].
  apply IH. apply padded_collapse_round. exact H.
Qed.

Lemma padded_normalize (s : string) :
  padded s = true -> padded (normalize s) = true.
Proof.
  intros H. unfold normalize. apply padded_collapse.
  rewrite !replace_char.
  apply (padded_subst is_letter "," ""); [reflexivity|].
  apply (padded_subst is_letter "-" "-"); [reflexivity|exact H].
Qed.

(** The text the loop of [path] starts from. *)
Lemma padded_path_text (d : string) :
  padded (normalize (pad_letters PATH_LETTERS d)) = true.
Proof.
  apply padded_normalize.
  apply (padded_pad_letters PATH_LETTERS "" d); [reflexivity|].
  apply padded_by_none. reflexivity.
Qed.

(** *** Results that are not the unsupported-command error *)

Lemma rspec_ok {A : Type} (x : A) (Q : A -> Prop) : Q x -> rspec (Ok x) Q.
Proof. intros H. split; [discriminate|]. intros y E. injection E as <-. exact H. Qed.

Lemma rspec_raise {A : Type} (e : exn) (Q : A -> Prop) :
  e <> NotImplementedError -> rspec (Raise e) Q.
Proof. intros H. split; [intros E; injection E as ->; apply H; reflexivity|discriminate]. Qed.

Lemma rspec_timeout {A : Type} (Q : A -> Prop) : rspec Timeout Q.
Proof. split; discriminate. Qed.

Lemma rspec_bind {A B : Type} (m : res A) (f : A -> res B)
      (P : A -> Prop) (Q : B -> Prop) :
  rspec m P -> (forall x, P x -> rspec (f x) Q) -> rspec (bind m f) Q.
Proof.
  intros [Hm HP] Hf. destruct m as [x|e|]; simpl.
  - apply Hf. apply HP. reflexivity.
  - apply rspec_raise. intros ->. apply Hm. reflexivity.
  - apply rspec_timeout.
Qed.

Lemma rspec_conseq {A : Type} (r : res A) (P Q : A -> Prop) :
  rspec r P -> (forall x, P x -> Q x) -> rspec r Q.
Proof. intros [H1 H2] H. split; [exact H1|]. intros x E. apply H, H2, E. Qed.

Create HintDb safe.

Ltac rstep :=
  lazymatch goal with
  | |- rspec (Ok _) _ => apply rspec_ok
  | |- rspec (Raise _) _ => apply rspec_raise; discriminate
  | |- rspec Timeout _ => apply rspec_timeout
  | |- rspec (bind _ _) _ =>
      eapply rspec_bind with (P := fun _ => True); [|intros ? _]
  | |- rspec (match ?x with _ => _ end) _ => destruct x
  | |- rspec (let _ := _ in _) _ => cbv zeta
  | |- rspec _ _ => solve [eauto with safe]
  end.

Ltac rauto := cbv zeta; repeat rstep; try exact I.

Lemma safe_of_Z (z : Z) : safe (Num.of_Z z).
Proof. unfold Num.of_Z. rauto. Qed.
#[local] Hint Resolve safe_of_Z : safe.

Lemma safe_div_Z (a b : Z) : safe (Num.div_Z a b).
Proof. unfold Num.div_Z. rauto. Qed.
#[local] Hint Resolve safe_div_Z : safe.

Lemma safe_as_float (v : pyval) : safe (Num.as_float v).
Proof. unfold Num.as_float. rauto. Qed.
#[local] Hint Resolve safe_as_float : safe.

Lemma safe_arith fz ff (a b : pyval) : safe (Num.arith fz ff a b).
Proof. unfold Num.arith. rauto. Qed.

Lemma safe_add (a b : pyval) : safe (Num.add a b).
Proof. apply safe_arith. Qed.
Lemma safe_sub (a b : pyval) : safe (Num.sub a b).
Proof. apply safe_arith. Qed.
Lemma safe_mul (a b : pyval) : safe (Num.mul a b).
Proof. apply safe_arith. Qed.
Lemma safe_div (a b : pyval) : safe (Num.div a b).
Proof. unfold Num.div. rauto. Qed.
Lemma safe_neg (a : pyval) : safe (Num.neg a).
Proof. unfold Num.neg. rauto. Qed.
Lemma safe_lt (a b : pyval) : safe (Num.lt a b).
Proof. unfold Num.lt. rauto. Qed.
Lemma safe_gt (a b : pyval) : safe (Num.gt a b).
Proof. apply safe_lt. Qed.
Lemma safe_max (a b : pyval) : safe (Num.max a b).
Proof. unfold Num.max. rauto. apply safe_gt. Qed.
#[local] Hint Resolve safe_add safe_sub safe_mul safe_div safe_neg safe_lt
  safe_gt safe_max : safe.

Lemma safe_float (s : string) : safe (Parse.float s).
Proof.
  unfold Parse.float.
  destruct (Parse.take_sign _) as [neg body].
  destruct (_ || _); [rauto|]. destruct (_ =? _)%string; [rauto|].
  destruct (Parse.scan_digits _ _ _ _ body) as [[m1 n1] r1].
  destruct (match r1 with
            | String "."%char r => Parse.scan_digits Parse.decimal_digit 10 m1 0 r
            | _ => (m1, 0%nat, r1)
            end) as [[m2 n2] r2].
  destruct (n1 + n2)%nat; [rauto|]. destruct (Parse.exponent r2); rauto.
Qed.

Lemma safe_int (s : string) : safe (Parse.int s).
Proof.
  unfold Parse.int. destruct (Parse.take_sign _) as [neg body].
  destruct (Parse.scan_digits _ _ _ _ body) as [[z [|n]] [|c r]]; rauto.
Qed.
#[local] Hint Resolve safe_float safe_int : safe.

Lemma safe_unit_factor (c : coef) : safe (unit_factor c).
Proof. unfold unit_factor. rauto. Qed.
#[local] Hint Resolve safe_unit_factor : safe.

Lemma safe_size_units (units : list (string * coef)) (s : string) :
  safe (size_units units s).
Proof.
  induction units as [|[unit c] rest IH]; simpl; [rauto|].
  destruct (Str.contains unit s); [rauto|exact IH].
Qed.
#[local] Hint Resolve safe_size_units : safe.

Lemma safe_size (v : option string) : safe (size v).
Proof. unfold size. rauto. Qed.
#[local] Hint Resolve safe_size : safe.

Lemma safe_unpack2 {A : Type} (l : list A) : safe (unpack2 l).
Proof. unfold unpack2. rauto. Qed.
Lemma safe_unpack3 {A : Type} (l : list A) : safe (unpack3 l).
Proof. unfold unpack3. rauto. Qed.
Lemma safe_unpack4 {A : Type} (l : list A) : safe (unpack4 l).
Proof. unfold unpack4. rauto. Qed.
Lemma safe_read {A : Type} (v : option A) : safe (read v).
Proof. unfold read. rauto. Qed.
#[local] Hint Resolve safe_unpack2 safe_unpack3 safe_unpack4 safe_read : safe.

Section SafeGeometry.

Variables cos sin atan : float -> float.
Variable pow : float -> float -> float.

Lemma safe_math1 (fn : float -> float) (v : pyval) : safe (math1 fn v).
Proof. unfold math1. rauto. Qed.
Lemma safe_pow2 (v : pyval) : safe (pow2 pow v).
Proof. unfold pow2. rauto. Qed.
Lemma safe_pow_half (v : pyval) : safe (pow_half pow v).
Proof. unfold pow_half. rauto. Qed.
Hint Resolve safe_math1 safe_pow2 safe_pow_half : safe.

Lemma safe_point_angle (cx cy px py : pyval) :
  safe (point_angle atan cx cy px py).
Proof. unfold point_angle. rauto. Qed.
Lemma safe_rotate (x y angle : pyval) : safe (rotate cos sin x y angle).
Proof. unfold rotate. rauto. Qed.
Hint Resolve safe_point_angle safe_rotate : safe.

Lemma safe_arc_chord (radii_ratio rotation x3 y3 : pyval) :
  safe (arc_chord cos sin atan pow radii_ratio rotation x3 y3).
Proof. unfold arc_chord. rauto. Qed.
Lemma safe_arc_radius (rx xe : pyval) : safe (arc_radius rx xe).
Proof. unfold arc_radius. rauto. Qed.
Hint Resolve safe_arc_chord safe_arc_radius : safe.

Lemma safe_arc_center (rx radii_ratio rotation : pyval) (large sweep : bool)
      (x3 y3 : pyval) :
  safe (arc_center cos sin atan pow rx radii_ratio rotation large sweep x3 y3).
Proof. unfold arc_center. rauto. Qed.

End SafeGeometry.
#[local] Hint Resolve safe_arc_center : safe.

Lemma safe_quadratic_points (x1 y1 x2 y2 x3 y3 : pyval) :
  safe (quadratic_points x1 y1 x2 y2 x3 y3).
Proof. unfold quadratic_points. rauto. Qed.
#[local] Hint Resolve safe_quadratic_points : safe.

Lemma last_three {A : Type} (x y z d : A) : last [x; y; z] d = z.
Proof. reflexivity. Qed.

(** [point] hands on a padded rest of a padded text. *)
Lemma rspec_point (s : string) :
  rspec (point s) (fun r => padded s = true -> padded (snd r) = true).
Proof.
  unfold point. destruct (negb (Str.truthy s)).
  - apply rspec_ok. reflexivity.
  - generalize (padded_split_last " " 2 (Str.strip s ++ " ")).
    destruct (Str.split_n " " 2 (Str.strip s ++ " ")) as [|x [|y [|z [|? ?]]]];
      intros Hl; simpl unpack3; cbn [bind]; try (apply rspec_raise; discriminate).
    eapply rspec_bind with (P := fun _ => True); [apply safe_size|].
    intros vx _.
    eapply rspec_bind with (P := fun _ => True); [apply safe_size|].
    intros vy _. apply rspec_ok. intros Hp. simpl.
    apply Hl. apply padded_app_space, padded_strip, Hp.
Qed.

Lemma safe_point (s : string) : safe (point s).
Proof. eapply rspec_conseq; [apply rspec_point|]. auto. Qed.
#[local] Hint Resolve safe_point : safe.

Lemma rspec_point_padded (s : string) :
  padded s = true -> rspec (point s) (fun r => padded (snd r) = true).
Proof. intros H. eapply rspec_conseq; [apply rspec_point|]. auto. Qed.

Lemma rspec_three_points (s : string) :
  padded s = true ->
  rspec (three_points s)
        (fun r => padded (snd r) = true).
Proof.
  intros H. unfold three_points.
  eapply rspec_bind; [apply (rspec_point_padded s H)|].
  intros [[a b] s1] H1.
  eapply rspec_bind; [apply (rspec_point_padded s1 H1)|].
  intros [[c d] s2] H2.
  eapply rspec_bind; [apply (rspec_point_padded s2 H2)|].
  intros [[e f] s3] H3. apply rspec_ok. exact H3.
Qed.

Lemma rspec_one_number (s : string) :
  padded s = true ->
  rspec (one_number s) (fun r => padded (snd r) = true).
Proof.
  intros H. unfold one_number.
  generalize (padded_split_last " " 1 s H).
  destruct (Str.split_n " " 1 s) as [|x [|y [|? ?]]];
    intros Hl; simpl unpack2; cbn [bind]; try (apply rspec_raise; discriminate).
  eapply rspec_bind with (P := fun _ => True); [apply safe_size|].
  intros v _. apply rspec_ok. exact Hl.
Qed.

Lemma rspec_split4 (s : string) :
  padded s = true ->
  rspec (unpack4 (Str.split_n " " 3 s))
        (fun r => padded (snd r) = true).
Proof.
  intros H. generalize (padded_split_last " " 3 s H).
  destruct (Str.split_n " " 3 s) as [|x [|y [|z [|w [|? ?]]]]];
    intros Hl; simpl unpack4; try (apply rspec_raise; discriminate).
  apply rspec_ok. exact Hl.
Qed.

Lemma padded_append_r (a b : string) :
  padded (a ++ b) = true -> padded b = true.
Proof.
  induction a as [|c a IH]; intros H; [exact H|].
  apply IH. exact (padded_tail _ _ H).
Qed.

(** The text after a chain of quadratic curves starts again at the letter
    that ended the chain. *)
Lemma rspec_split_letter (l : ascii) (s : string) :
  padded s = true ->
  rspec (unpack2 (Str.split_n (String l "") 1 s))
        (fun r => padded (String l (snd r)) = true).
Proof.
  intros H. simpl.
  destruct (Str.find (String l "") s) as [[a b]|] eqn:E; simpl.
  - apply rspec_ok. simpl. rewrite (find_split _ _ _ _ E) in H.
    exact (padded_append_r a _ H).
  - apply rspec_raise. discriminate.
Qed.

Lemma safe_smooth_start (letters : string) (dx dy : pyval) (L : locals) :
  safe (smooth_start letters dx dy L).
Proof.
  unfold smooth_start, last_letter_in. rauto.
Qed.
#[local] Hint Resolve safe_smooth_start : safe.

(** *** Methods that do not raise the unsupported-command error *)

Lemma spec_ret {A : Type} (x : A) (Q : A -> Prop) : Q x -> spec (ret x) Q.
Proof. intros H st. apply rspec_ok. exact H. Qed.

Lemma spec_lift {A : Type} (r : res A) (Q : A -> Prop) :
  rspec r Q -> spec (lift r) Q.
Proof. intros H st. exact H. Qed.

Lemma spec_bind {A B : Type} (m : M A) (f : A -> M B)
      (P : A -> Prop) (Q : B -> Prop) :
  spec m P -> (forall x, P x -> spec (f x) Q) -> spec (bindM m f) Q.
Proof.
  intros Hm Hf st. unfold bindM. generalize (Hm st).
  destruct (m st) as [[x|e|] st1]; simpl; intros [H1 H2].
  - apply Hf. apply H2. reflexivity.
  - apply rspec_raise. intros ->. apply H1. reflexivity.
  - apply rspec_timeout.
Qed.

Lemma spec_call (o : Ctx.op) (Q : unit -> Prop) : Q tt -> spec (call o) Q.
Proof. intros H st. apply rspec_ok. exact H. Qed.

Lemma spec_query {A : Type} (q : surface -> A) (Q : A -> Prop) :
  (forall x, Q x) -> spec (fun s => (Ok (q s), s)) Q.
Proof. intros H st. apply rspec_ok. apply H. Qed.

Lemma spec_raise {A : Type} (e : exn) (Q : A -> Prop) :
  e <> NotImplementedError -> spec (raise e) Q.
Proof. intros H st. apply rspec_raise. exact H. Qed.

Lemma spec_conseq {A : Type} (m : M A) (P Q : A -> Prop) :
  spec m P -> (forall x, P x -> Q x) -> spec m Q.
Proof. intros H HPQ st. eapply rspec_conseq; [apply H|exact HPQ]. Qed.

Ltac spec_step :=
  lazymatch goal with
  | |- spec (ret _) _ => apply spec_ret
  | |- spec (lift _) _ => apply spec_lift
  | |- spec (raise _) _ => apply spec_raise; discriminate
  | |- spec (call _) _ => apply spec_call
  | |- spec (fun s => (Ok _, s)) _ => apply spec_query; intros
  | |- spec (bindM _ _) _ =>
      eapply spec_bind with (P := fun _ => True); [|intros ? _]
  | |- spec (match ?x with _ => _ end) _ => destruct x
  | |- spec (let _ := _ in _) _ => cbv zeta
  | |- rspec _ _ => rstep
  | |- spec _ _ => solve [eauto with safe]
  end.

Ltac spec_auto := cbv zeta; repeat spec_step; try exact I.

Lemma spec_call1 f a (Q : unit -> Prop) : Q tt -> spec (call1 f a) Q.
Proof. intros H. unfold call1. spec_auto. exact H. Qed.
Lemma spec_call2 f a b (Q : unit -> Prop) : Q tt -> spec (call2 f a b) Q.
Proof. intros H. unfold call2. spec_auto. exact H. Qed.
Lemma spec_call5 f a b c d e (Q : unit -> Prop) :
  Q tt -> spec (call5 f a b c d e) Q.
Proof. intros H. unfold call5. spec_auto. exact H. Qed.
Lemma spec_call6 f a b c d e g (Q : unit -> Prop) :
  Q tt -> spec (call6 f a b c d e g) Q.
Proof. intros H. unfold call6. spec_auto. exact H. Qed.

(** *** The command letter of a round *)

Lemma find_head (c : ascii) (r s : string) (p : string * string) :
  Str.find (String c r) s = Some p -> Str.mem_char c s = true.
Proof.
  revert p. induction s as [|d s IH]; intros p H.
  - simpl in H. discriminate H.
  - cbn [Str.find Str.startswith] in H. cbn [Str.mem_char].
    destruct (Ascii.eqb c d); [reflexivity|]. simpl in H.
    destruct (Str.find (String c r) s) as [[a b]|]; [|discriminate H].
    exact (IH _ eq_refl).
Qed.

Lemma letter_handled (c : ascii) :
  is_letter c = true -> handled (String c "") = true.
Proof.
  unfold is_letter, PATH_LETTERS. cbn [Str.mem_char]. intros H.
  repeat (apply orb_prop in H; destruct H as [H|H]);
    try (apply Ascii.eqb_eq in H; subst c; reflexivity).
  discriminate H.
Qed.

(** The first word of a padded text: a word that starts with a path letter
    is that letter alone. *)
Lemma padded_first_word (s : string) :
  padded s = true ->
  match hd "" (Str.split_n " " 1 s) with
  | "" => True
  | String c r => is_letter c = true -> r = ""
  end.
Proof.
  intros H. destruct s as [|c r]; [exact I|].
  cbn [Str.split_n]. rewrite find_char.
  destruct (Ascii.eqb " " c); [exact I|].
  unfold padded in H. cbn [padded_by] in H.
  apply andb_prop in H. destruct H as [H _].
  assert (Hr : is_letter c = true -> space_or_end r = true).
  { intros Hc. rewrite Hc in H. exact H. }
  destruct r as [|d r'].
  - simpl. intros _. reflexivity.
  - rewrite find_char.
    destruct (Ascii.eqb " " d) eqn:E.
    + simpl. intros _. reflexivity.
    + destruct (Str.find " " r') as [[a b]|]; simpl; intros Hc;
        specialize (Hr Hc); simpl in Hr;
        rewrite Ascii.eqb_sym, E in Hr; discriminate Hr.
Qed.

Lemma find_space_end (s : string) :
  Str.find " " (s ++ " ")
  = match Str.find " " s with
    | Some (a, b) => Some (a, b ++ " ")
    | None => Some (s, "")
    end.
Proof.
  induction s as [|c r IH]; [reflexivity|].
  change (String c r ++ " ") with (String c (r ++ " ")).
  rewrite !find_char. destruct (Ascii.eqb " " c); [reflexivity|].
  rewrite IH. destruct (Str.find " " r) as [[a b]|]; reflexivity.
Qed.

(** [letter, string = (string + " ").split(" ", 1)] when the first word
    of a padded [string] is in [PATH_LETTERS]: [letter] is one that the
    chain of branches handles, and the rest is padded. *)
Lemma rspec_letter (s : string) :
  padded s = true ->
  Str.contains (hd "" (Str.split_n " " 1 s)) PATH_LETTERS = true ->
  rspec (unpack2 (Str.split_n " " 1 (s ++ " ")))
        (fun r => handled (fst r) = true /\ padded (snd r) = true).
Proof.
  intros Hp Hc. generalize (padded_first_word s Hp).
  cbn [Str.split_n] in *. rewrite find_space_end.
  assert (Hw : forall w, Str.contains w PATH_LETTERS = true ->
                         match w with
                         | "" => True
                         | String c r => is_letter c = true -> r = ""
                         end -> handled w = true).
  { intros [|c r] Hin Hs; [reflexivity|].
    unfold Str.contains in Hin.
    destruct (Str.find (String c r) PATH_LETTERS) as [p|] eqn:E;
      [|discriminate Hin].
    assert (Hl := find_head _ _ _ _ E).
    rewrite (Hs Hl). apply letter_handled. exact Hl. }
  destruct (Str.find " " s) as [[a b]|] eqn:E; cbn [hd] in *; intros Hs;
    apply rspec_ok; cbn [fst snd]; split.
  - exact (Hw a Hc Hs).
  - apply padded_app_space. exact (padded_find _ _ _ _ Hp E).
  - exact (Hw s Hc Hs).
  - reflexivity.
Qed.

(** *** The rounds of [path] *)

Lemma curve_ok_rel_curve_to : curve_ok rel_curve_to.
Proof. intros a b c d e g. apply spec_call6. exact I. Qed.

Lemma curve_ok_curve_to : curve_ok curve_to.
Proof. intros a b c d e g. apply spec_call6. exact I. Qed.

(** A step whose result carries no obligation. *)
Ltac splain_step :=
  lazymatch goal with
  | |- spec (rel_curve_to _ _ _ _ _ _) _ => apply curve_ok_rel_curve_to
  | |- spec (curve_to _ _ _ _ _ _) _ => apply curve_ok_curve_to
  | |- spec (call _) _ => apply spec_call; exact I
  | |- spec (call1 _ _) _ => apply spec_call1; exact I
  | |- spec (call2 _ _ _) _ => apply spec_call2; exact I
  | |- spec (call5 _ _ _ _ _ _) _ => apply spec_call5; exact I
  | |- spec (call6 _ _ _ _ _ _ _) _ => apply spec_call6; exact I
  | |- spec (lift _) _ => apply spec_lift; rauto
  | |- spec _ _ => apply spec_query; intros; exact I
  end.

Tactic Notation "splain" "as" simple_intropattern(p) :=
  eapply spec_bind with (P := fun _ => True); [splain_step|intros p _].

Tactic Notation "splain" := splain as ?.

(** A step that hands on a padded text. *)
Tactic Notation "spadded" constr(lem) "as" simple_intropattern(p) ident(H) :=
  eapply spec_bind;
  [ apply spec_lift; apply lem; assumption
  | intros p H; cbn [snd] in H ].

Lemma spec_quadratic_loop (fuel : nat) curve (s : string) (L : locals) :
  curve_ok curve ->
  spec (quadratic_loop fuel curve s L) (fun L' => letter L' = letter L).
Proof.
  intros Hc. revert s L. induction fuel as [|fuel IH]; intros s L; simpl.
  - destruct (negb (Str.truthy s)).
    + apply spec_ret. reflexivity.
    + apply spec_lift, rspec_timeout.
  - destruct (negb (Str.truthy s)).
    + apply spec_ret. reflexivity.
    + splain as [[a b] s1]. splain as [[c d] s2].
      cbv zeta. splain as [[[[[xq1 yq1] xq2] yq2] xq3] yq3].
      eapply spec_bind with (P := fun _ => True); [apply Hc|intros ? _].
      eapply spec_conseq; [apply IH|]. intros L' ->. reflexivity.
Qed.

Lemma spec_quadratic_end curve (p1x p1y : pyval) (s : string) (L : locals) :
  curve_ok curve -> round_ok (s, L) ->
  spec (quadratic_end curve p1x p1y s L) round_ok.
Proof.
  intros Hc [Hp Hl]. unfold quadratic_end. cbv zeta. cbn [fst snd] in *.
  splain. splain.
  spadded rspec_point_padded as [[c d] s1] H1.
  splain as [[[[[xq1 yq1] xq2] yq2] xq3] yq3].
  eapply spec_bind with (P := fun _ => True); [apply Hc|intros ? _].
  apply spec_ret. split; [exact H1|exact Hl].
Qed.

Section SafePath.

Variables cos sin atan : float -> float.
Variable pow : float -> float -> float.
Variable get_current_point : list Ctx.op -> float * float.

Lemma spec_path_arc (s : string) (L : locals) :
  round_ok (s, L) ->
  spec (path_arc cos sin atan pow get_current_point s L) round_ok.
Proof.
  intros [Hp Hl]. cbn [fst snd] in *. unfold path_arc, current_point.
  splain. cbv zeta.
  spadded rspec_point_padded as [[rx ry] s1] H1.
  splain as radii_ratio.
  spadded rspec_split4 as [[[rotation large] sweep] s2] H2.
  splain as rotation'. splain as large'. splain as sweep'.
  spadded rspec_point_padded as [[ex ey] s3] H3.
  eapply spec_bind with (P := fun _ => True).
  { destruct (String.eqb (letter L) "A").
    - splain. splain. apply spec_ret. exact I.
    - apply spec_ret. exact I. }
  intros [ex' ey'] _.
  splain as [[[[xc yc] rx'] angle1] angle2].
  splain. splain. splain. splain.
  eapply spec_bind with (P := fun _ => True);
    [destruct sweep'; apply spec_call5; exact I|intros ? _].
  splain. apply spec_ret. split; [exact H3|exact Hl].
Qed.

(** The branches of one round end with a padded text and the letter they
    were entered with. *)
Ltac branch_end Hp Hl := apply spec_ret; split; [exact Hp|exact Hl].

Lemma spec_path_step (s : string) (L : locals) :
  round_ok (s, L) ->
  spec (path_step cos sin atan pow get_current_point s L) round_ok.
Proof.
  intros [Hp Hl]. cbn [fst snd] in *. unfold path_step. cbv zeta.
  assert (Hs := padded_strip s Hp).
  eapply spec_bind with (P := round_ok).
  { destruct (Str.contains (hd "" (Str.split_n " " 1 (Str.strip s)))
                           PATH_LETTERS) eqn:E.
    - eapply spec_bind;
        [apply spec_lift; exact (rspec_letter (Str.strip s) Hs E)|].
      intros [l rest] [H1 H2]. apply spec_ret. split; [exact H2|exact H1].
    - apply spec_ret. split; [exact Hs|exact Hl]. }
  clear s L Hp Hl Hs. intros [s L] [Hp Hl]. cbn [fst snd] in Hp, Hl.
  cbv beta iota.
  eapply spec_bind with (P := round_ok).
  2:{ intros [s' L'] [Hp' Hl']. apply spec_ret.
      split; [exact (padded_strip s' Hp')|exact Hl']. }
  assert (Hl' : handled (letter L) = true) by exact Hl.
  unfold handled in Hl.
  destruct (Str.contains (letter L) "aA").
  { apply spec_path_arc. split; [exact Hp|exact Hl']. }
  destruct (String.eqb (letter L) "c").
  { spadded rspec_three_points as [[[[[[a b] c] d] e] f] s1] H1.
    splain. branch_end H1 Hl'. }
  destruct (String.eqb (letter L) "C").
  { spadded rspec_three_points as [[[[[[a b] c] d] e] f] s1] H1.
    splain. branch_end H1 Hl'. }
  destruct (String.eqb (letter L) "h").
  { spadded rspec_one_number as [v s1] H1.
    splain. branch_end H1 Hl'. }
  destruct (String.eqb (letter L) "H").
  { spadded rspec_one_number as [v s1] H1.
    unfold current_point. splain. cbv zeta.
    splain. branch_end H1 Hl'. }
  destruct (String.eqb (letter L) "l").
  { spadded rspec_point_padded as [[a b] s1] H1.
    splain. branch_end H1 Hl'. }
  destruct (String.eqb (letter L) "L").
  { spadded rspec_point_padded as [[a b] s1] H1.
    splain. branch_end H1 Hl'. }
  destruct (String.eqb (letter L) "m").
  { spadded rspec_point_padded as [[a b] s1] H1.
    splain. branch_end H1 Hl'. }
  destruct (String.eqb (letter L) "M").
  { spadded rspec_point_padded as [[a b] s1] H1.
    splain. branch_end H1 Hl'. }
  destruct (String.eqb (letter L) "q").
  { eapply spec_bind;
      [apply spec_lift; exact (rspec_split_letter "t" s Hp)|].
    intros [s1 next] Hn. cbn [snd] in Hn.
    eapply spec_bind;
      [apply spec_quadratic_loop; exact curve_ok_rel_curve_to|].
    intros L1 E. apply spec_ret. split; [exact Hn|].
    cbn [fst snd]. rewrite E. exact Hl'. }
  destruct (String.eqb (letter L) "Q").
  { eapply spec_bind;
      [apply spec_lift; exact (rspec_split_letter "T" s Hp)|].
    intros [s1 next] Hn. cbn [snd] in Hn.
    unfold current_point. splain. cbv zeta.
    eapply spec_bind;
      [apply spec_quadratic_loop; exact curve_ok_curve_to|].
    intros L1 E. apply spec_ret. split; [exact Hn|].
    cbn [fst snd]. rewrite E. exact Hl'. }
  destruct (String.eqb (letter L) "s").
  { splain as [a b].
    spadded rspec_point_padded as [[c d] s1] H1.
    spadded rspec_point_padded as [[e f] s2] H2.
    splain. branch_end H2 Hl'. }
  destruct (String.eqb (letter L) "S").
  { unfold current_point. splain. cbv zeta.
    splain as [a b].
    spadded rspec_point_padded as [[c d] s1] H1.
    spadded rspec_point_padded as [[e f] s2] H2.
    splain. branch_end H2 Hl'. }
  destruct (String.eqb (letter L) "t").
  { apply spec_quadratic_end; [exact curve_ok_rel_curve_to|].
    split; [exact Hp|exact Hl']. }
  destruct (String.eqb (letter L) "T").
  { unfold current_point. splain. cbv zeta.
    apply spec_quadratic_end; [exact curve_ok_curve_to|].
    split; [exact Hp|exact Hl']. }
  destruct (String.eqb (letter L) "v").
  { spadded rspec_one_number as [v s1] H1.
    splain. branch_end H1 Hl'. }
  destruct (String.eqb (letter L) "V").
  { spadded rspec_one_number as [v s1] H1.
    unfold current_point. splain. cbv zeta.
    splain. branch_end H1 Hl'. }
  cbn [orb] in Hl. rewrite Hl.
  splain. branch_end Hp Hl'.
Qed.

Lemma spec_path_rounds (fuel : nat) (s : string) (L : locals) :
  round_ok (s, L) ->
  spec (path_rounds cos sin atan pow get_current_point fuel s L)
       (fun _ => True).
Proof.
  revert s L. induction fuel as [|fuel IH]; intros s L H; simpl.
  - apply spec_lift, rspec_timeout.
  - eapply spec_bind; [exact (spec_path_step s L H)|].
    intros [s' L'] H'. destruct (Str.truthy s').
    + apply IH. exact H'.
    + apply spec_ret. exact I.
Qed.

(** X1: no run of [path], on any text of the [d] attribute, with any fuel
    and from any surface, ends in [NotImplementedError]: the [else] branch
    that raises it is never taken.  The loop keeps every path letter of
    the text followed by a space, so the word that replaces [letter] is
    always one of the letters of the chain of branches (or empty, which
    is [in "aA"]), and [letter] starts as ["Z"]. *)
Theorem path_never_unsupported (fuel : nat) (d : string) (st : surface) :
  fst (path_data cos sin atan pow get_current_point fuel d st)
  <> Raise NotImplementedError.
Proof.
  unfold path_data, path_loop.
  destruct (Str.truthy (normalize (pad_letters PATH_LETTERS d))).
  - apply (spec_path_rounds fuel). split.
    + apply padded_path_text.
    + reflexivity.
  - discriminate.
Qed.

End SafePath.

(** ** Further properties of the parsers and the handlers *)

(** *** Lengths and characters of the results of [replace] *)

Lemma length_app (a b : string) :
  String.length (a ++ b) = (String.length a + String.length b)%nat.
Proof. induction a as [|c a IH]; [reflexivity|]. simpl. rewrite IH. reflexivity. Qed.

Lemma find_shorter (sep s a b : string) :
  Str.find sep s = Some (a, b) ->
  String.length s = (String.length a + String.length sep + String.length b)%nat.
Proof.
  intros H. rewrite (find_split _ _ _ _ H) at 1.
  rewrite !length_app. lia.
Qed.

Lemma replace_n_length (old new : string) (n : nat) (s : string) :
  (String.length new <= String.length old)%nat ->
  (String.length (Str.replace_n old new n s) <= String.length s)%nat.
Proof.
  intros Hl. revert s. induction n as [|n IH]; intros s; [apply Nat.le_refl|].
  simpl. destruct (Str.find old s) as [[a b]|] eqn:E; [|apply Nat.le_refl].
  rewrite (find_shorter _ _ _ _ E), !length_app.
  specialize (IH b). lia.
Qed.

Lemma replace_shortens (old new s : string) :
  (String.length new < String.length old)%nat ->
  Str.contains old s = true ->
  (String.length (Str.replace old new s) < String.length s)%nat.
Proof.
  intros Hl Hc. unfold Str.contains in Hc. unfold Str.replace.
  destruct (Str.find old s) as [[a b]|] eqn:E; [|discriminate Hc].
  assert (Hs := find_shorter _ _ _ _ E).
  destruct (String.length s) as [|n] eqn:En; [lia|].
  simpl. rewrite E, !length_app.
  assert (H := replace_n_length old new n b (Nat.lt_le_incl _ _ Hl)). lia.
Qed.

Lemma short_no_double_space (s : string) :
  (String.length s <= 1)%nat -> Str.contains "  " s = false.
Proof.
  destruct s as [|c [|d s]]; simpl; intros H; [reflexivity| |lia].
  unfold Str.contains. cbn [Str.find Str.startswith]. destruct (Ascii.eqb " " c); reflexivity.
Qed.

Lemma collapse_spaces_done (fuel : nat) (s : string) :
  (String.length s <= fuel + 1)%nat ->
  Str.contains "  " (collapse_spaces fuel s) = false.
Proof.
  revert s. induction fuel as [|fuel IH]; intros s H.
  - apply short_no_double_space. exact H.
  - simpl. destruct (Str.contains "  " s) eqn:E; [|exact E].
    apply IH.
    assert (Hl := replace_shortens "  " " " s (Nat.lt_succ_diag_r 1) E). lia.
Qed.

Lemma mem_char_find (c : ascii) (s : string) :
  Str.contains (String c "") s = Str.mem_char c s.
Proof.
  unfold Str.contains. induction s as [|d s IH]; [reflexivity|].
  rewrite find_char. cbn [Str.mem_char].
  destruct (Ascii.eqb c d); [reflexivity|]. cbn [orb]. rewrite <- IH.
  destruct (Str.find (String c "") s) as [[a b]|]; reflexivity.
Qed.

Lemma mem_char_subst (c l : ascii) (new s : string) :
  Str.mem_char c new = false ->
  Str.mem_char c (subst_char l new s)
  = Str.mem_char c s && negb (Ascii.eqb c l).
Proof.
  intros Hn. induction s as [|d s IH]; [reflexivity|].
  simpl. destruct (Ascii.eqb l d) eqn:E.
  - apply Ascii.eqb_eq in E. subst d. rewrite mem_char_app, Hn, IH. cbn [orb].
    destruct (Ascii.eqb c l); [rewrite andb_false_r|]; reflexivity.
  - cbn [Str.mem_char]. rewrite IH.
    destruct (Ascii.eqb c d) eqn:E'; [|reflexivity].
    apply Ascii.eqb_eq in E'. subst d. rewrite Ascii.eqb_sym, E. reflexivity.
Qed.

Lemma mem_char_replace_n (c : ascii) (old new : string) (n : nat) (s : string) :
  Str.mem_char c new = false -> Str.mem_char c s = false ->
  Str.mem_char c (Str.replace_n old new n s) = false.
Proof.
  intros Hn. revert s. induction n as [|n IH]; intros s H; [exact H|].
  simpl. destruct (Str.find old s) as [[a b]|] eqn:E; [|exact H].
  rewrite (find_split _ _ _ _ E), !mem_char_app in H.
  apply orb_false_elim in H. destruct H as [Ha H].
  apply orb_false_elim in H. destruct H as [_ Hb].
  rewrite !mem_char_app, Ha, Hn, (IH b Hb). reflexivity.
Qed.

Lemma mem_char_collapse (c : ascii) (fuel : nat) (s : string) :
  Ascii.eqb c " " = false -> Str.mem_char c s = false ->
  Str.mem_char c (collapse_spaces fuel s) = false.
Proof.
  intros Hc. revert s. induction fuel as [|fuel IH]; intros s H; [exact H|].
  simpl. destruct (Str.contains "  " s); [|exact H].
  apply IH. apply mem_char_replace_n; [|exact H].
  simpl. rewrite Hc. reflexivity.
Qed.

Lemma normalize_no_comma (s : string) : Str.contains "," (normalize s) = false.
Proof.
  unfold normalize. cbv zeta.
  rewrite mem_char_find. apply mem_char_collapse; [reflexivity|].
  rewrite (replace_char "," " "), mem_char_subst by reflexivity.
  rewrite Ascii.eqb_refl, andb_false_r. reflexivity.
Qed.

Lemma normalize_no_double_space (s : string) :
  Str.contains "  " (normalize s) = false.
Proof. unfold normalize. cbv zeta. apply collapse_spaces_done. lia. Qed.

(** X3: [normalize] leaves no comma and no two spaces in a row, whatever the
    text. *)
Theorem normalize_clean (s : string) :
  Str.contains "," (normalize s) = false /\
  Str.contains "  " (normalize s) = false.
Proof.
  split; [apply normalize_no_comma|apply normalize_no_double_space].
Qed.

(** *** [point] *)

Lemma find_none_mem (c : ascii) (s : string) :
  Str.mem_char c s = false -> Str.find (String c "") s = None.
Proof.
  intros H. rewrite <- mem_char_find in H. unfold Str.contains in H.
  destruct (Str.find (String c "") s); [discriminate H|reflexivity].
Qed.

(** X4: a text that holds a single coordinate, or white space only, makes
    [point] raise [ValueError]: the unpacking into three names finds two
    pieces. *)
Theorem point_single_coordinate (s : string) :
  Str.truthy s = true ->
  Str.contains " " (Str.strip s) = false ->
  point s = Raise ValueError.
Proof.
  intros Hs Hc. unfold point. rewrite Hs. cbn [negb].
  rewrite mem_char_find in Hc.
  cbn [Str.split_n]. rewrite find_space_end, (find_none_mem _ _ Hc).
  reflexivity.
Qed.

Lemma point_single_coordinate_witness :
  point "5" = Raise ValueError /\ point "  " = Raise ValueError.
Proof.
  split; apply point_single_coordinate; reflexivity.
Defined.

(** X5: two coordinates and more: [point] reads the first two words and
    returns the text after them, to which the space that it appended
    stays attached when a third word is there. *)
Theorem point_two_coordinates (s x y : string) :
  Str.truthy s = true ->
  Str.mem_char " " x = false -> Str.mem_char " " y = false ->
  (Str.strip s = x ++ " " ++ y ->
   point s = (vx <- size (Some x) ;; vy <- size (Some y) ;; Ok (vx, vy, ""))%res) /\
  (forall rest,
      Str.strip s = x ++ " " ++ y ++ " " ++ rest ->
      point s = (vx <- size (Some x) ;; vy <- size (Some y) ;;
                 Ok (vx, vy, rest ++ " "))%res).
Proof.
  intros Hs Hx Hy.
  assert (F : forall a b, Str.mem_char " " a = false ->
                          Str.find " " (a ++ String " " b) = Some (a, b)).
  { intros a b Ha. induction a as [|c a IH]; [reflexivity|].
    cbn [Str.mem_char] in Ha. apply orb_false_elim in Ha.
    destruct Ha as [Hc Ha].
    change (String c a ++ String " " b) with (String c (a ++ String " " b)).
    rewrite find_char, Hc, (IH Ha). reflexivity. }
  split.
  - intros E. unfold point. rewrite Hs, E. cbn [negb].
    rewrite !append_assoc. cbn [Str.split_n].
    change (" " ++ y ++ " ") with (String " " (y ++ String " " "")).
    rewrite (F x _ Hx), (F y _ Hy). reflexivity.
  - intros rest E. unfold point. rewrite Hs, E. cbn [negb].
    rewrite !append_assoc. cbn [Str.split_n].
    change (" " ++ y ++ " " ++ rest ++ " ")
      with (String " " (y ++ String " " (rest ++ " "))).
    rewrite (F x _ Hx), (F y _ Hy). reflexivity.
Qed.

Lemma point_two_coordinates_witness :
  point " 1 2 3 4" = Ok (VFloat 1, VFloat 2, "3 4 ").
Proof.
  apply (proj2 (point_two_coordinates " 1 2 3 4" "1" "2"
                  eq_refl eq_refl eq_refl) "3 4").
  reflexivity.
Defined.

(** *** [size] *)

Lemma factor_shape_UNITS (u : string) (c : coef) :
  In (u, c) UNITS -> factor_shape c.
Proof.
  unfold UNITS. intros H.
  repeat (destruct H as [H|H];
          [injection H as _ <-;
           first [ left; reflexivity
                 | right; left; reflexivity
                 | right; right; eexists; vm_compute; reflexivity ]|]).
  contradiction.
Qed.

Lemma float_shape (s : string) :
  (exists f, Parse.float s = Ok f) \/ Parse.float s = Raise ValueError.
Proof.
  unfold Parse.float.
  destruct (Parse.take_sign _) as [neg body].
  destruct (_ || _); [left; eexists; reflexivity|].
  destruct (String.eqb _ "nan"); [left; eexists; reflexivity|].
  destruct (Parse.scan_digits _ _ _ _ body) as [[m1 n1] r1].
  destruct (match r1 with String "." r => _ | _ => _ end) as [[m2 n2] r2].
  destruct (n1 + n2)%nat; [right; reflexivity|].
  destruct (Parse.exponent r2); [left; eexists|right]; reflexivity.
Qed.

Lemma size_units_shape (units : list (string * coef)) (s : string) :
  (forall u c, In (u, c) units -> factor_shape c) ->
  size_shape (size_units units s).
Proof.
  induction units as [|[u c] rest IH]; intros H; [exact I|].
  cbn [size_units]. destruct (Str.contains u s).
  - destruct (float_shape (Str.strip_chars (" " ++ u) s)) as [[n ->]| ->];
      cbn [bind size_shape]; [|left; reflexivity].
    destruct (H u c (or_introl eq_refl)) as [->|[->|[k ->]]];
      cbn [bind size_shape]; [right; reflexivity|exact I|exact I].
  - apply IH. intros u' c' Hin. apply (H u' c'). right. exact Hin.
Qed.

Lemma size_outcome (v : option string) :
  match v with
  | None | Some "" => size v = Ok (VInt 0)
  | Some _ => size_shape (size v)
  end.
Proof.
  destruct v as [[|c s]|]; [reflexivity| |reflexivity].
  unfold size. cbn [Str.truthy negb].
  destruct (Str.isdigit _).
  - destruct (float_shape (String c s)) as [[n ->]| ->];
      cbn [bind size_shape]; [exact I|left; reflexivity].
  - apply size_units_shape. exact factor_shape_UNITS.
Qed.

(** X6: [size] returns the integer 0 for a missing or empty text and nothing
    else; for any other text it returns a float or [None], or raises
    [ValueError] or [TypeError]. *)
Theorem size_outcomes (v : option string) :
  match v with
  | None | Some "" => size v = Ok (VInt 0)
  | Some _ => size_shape (size v)
  end.
Proof. exact (size_outcome v). Qed.

Lemma size_units_skip (units rest : list (string * coef)) (s : string) :
  (forall u, In u (map fst units) -> Str.contains u s = false) ->
  size_units (units ++ rest)%list s = size_units rest s.
Proof.
  induction units as [|[u c] units IH]; intros H; [reflexivity|].
  cbn [app size_units]. rewrite (H u (or_introl eq_refl)).
  apply IH. intros u' Hin. apply H. right. exact Hin.
Qed.

(** X7: the units [em], [ex] and [%], whose coefficient is [NotImplemented]:
    a text that fails the numeral test, holds one of them and holds none
    of the six units that have a number or [None] as coefficient never
    gets a value.  With [unit] the first of the three that the text holds
    and [rest] the text stripped of spaces and of the characters of
    [unit], [size] raises [TypeError] (from [DPI * NotImplemented]) when
    [float] accepts [rest] and [ValueError] when it does not; one of the
    two is the case. *)
Theorem size_unsupported_unit (s : string) :
  Str.isdigit (Str.lstrip_chars " -" (Str.replace_n "." "" 1 s)) = false ->
  (forall u, In u ["mm"; "cm"; "in"; "pt"; "pc"; "px"] ->
             Str.contains u s = false) ->
  Str.contains "em" s || Str.contains "ex" s || Str.contains "%" s = true ->
  let rest := Str.strip_chars (" " ++ first_unsupported s) s in
  (forall n, Parse.float rest = Ok n -> size (Some s) = Raise TypeError) /\
  (Parse.float rest = Raise ValueError -> size (Some s) = Raise ValueError) /\
  ((exists n, Parse.float rest = Ok n) \/ Parse.float rest = Raise ValueError).
Proof.
  intros Hd Hu Hn rest.
  assert (Hs : Str.truthy s = true).
  { destruct s; [discriminate Hn|reflexivity]. }
  assert (E : size (Some s)
              = size_units [("em", CNotImplemented); ("ex", CNotImplemented);
                            ("%", CNotImplemented)] s).
  { unfold size. rewrite Hs, Hd. cbn [negb].
    apply (size_units_skip
             [("mm", CNum (VFloat (1 / f_25_4)));
              ("cm", CNum (VFloat (1 / f_2_54)));
              ("in", CNum (VInt 1));
              ("pt", CNum (VFloat (1 / 72)));
              ("pc", CNum (VFloat (1 / 6)));
              ("px", CNoneCoef)]).
    exact Hu. }
  assert (E' : size (Some s)
               = (number <- Parse.float rest ;; factor <- Raise TypeError ;;
                  Num.mul (VFloat number) factor)%res).
  { rewrite E. subst rest. unfold first_unsupported. cbn [size_units].
    destruct (Str.contains "em" s); [reflexivity|].
    destruct (Str.contains "ex" s); [reflexivity|].
    destruct (Str.contains "%" s); [reflexivity|discriminate Hn]. }
  rewrite E'. split; [|split].
  - intros n ->. reflexivity.
  - intros ->. reflexivity.
  - apply float_shape.
Qed.

Lemma size_unsupported_unit_witness :
  size (Some "2em") = Raise TypeError /\
  size (Some "50%") = Raise TypeError /\
  size (Some "x%") = Raise ValueError.
Proof.
  assert (U : forall s,
             forallb (fun u => negb (Str.contains u s))
                     ["mm"; "cm"; "in"; "pt"; "pc"; "px"] = true ->
             forall u, In u ["mm"; "cm"; "in"; "pt"; "pc"; "px"] ->
                       Str.contains u s = false).
  { intros s H u Hin. rewrite forallb_forall in H.
    apply negb_true_iff. apply H. exact Hin. }
  split; [|split].
  - apply (proj1 (size_unsupported_unit "2em" eq_refl (U "2em" eq_refl) eq_refl)
                 2%float).
    reflexivity.
  - apply (proj1 (size_unsupported_unit "50%" eq_refl (U "50%" eq_refl) eq_refl)
                 50%float).
    reflexivity.
  - apply (proj1 (proj2 (size_unsupported_unit "x%" eq_refl (U "x%" eq_refl)
                                               eq_refl))).
    reflexivity.
Defined.

(** *** [color] *)

Lemma isspace_lower (c : ascii) : Str.isspace (Str.lower_char c) = Str.isspace c.
Proof. destruct c as [[] [] [] [] [] [] [] []]; reflexivity. Qed.

Lemma lower_char_idem (c : ascii) :
  Str.lower_char (Str.lower_char c) = Str.lower_char c.
Proof. destruct c as [[] [] [] [] [] [] [] []]; reflexivity. Qed.

Lemma lower_cons (c : ascii) (s : string) :
  Str.lower (String c s) = String (Str.lower_char c) (Str.lower s).
Proof. reflexivity. Qed.

Lemma lower_idem (s : string) : Str.lower (Str.lower s) = Str.lower s.
Proof.
  induction s as [|c s IH]; [reflexivity|].
  rewrite !lower_cons, lower_char_idem, IH. reflexivity.
Qed.

Lemma lower_lstrip (s : string) :
  Str.lower (Str.lstrip_by Str.isspace s)
  = Str.lstrip_by Str.isspace (Str.lower s).
Proof.
  induction s as [|c s IH]; [reflexivity|].
  rewrite lower_cons. cbn [Str.lstrip_by]. rewrite isspace_lower.
  destruct (Str.isspace c); [exact IH|reflexivity].
Qed.

Lemma lower_rstrip (s : string) :
  Str.lower (Str.rstrip_by Str.isspace s)
  = Str.rstrip_by Str.isspace (Str.lower s).
Proof.
  induction s as [|c s IH]; [reflexivity|].
  rewrite lower_cons. cbn [Str.rstrip_by]. rewrite <- IH, isspace_lower.
  destruct (Str.rstrip_by Str.isspace s); [destruct (Str.isspace c)|];
    reflexivity.
Qed.

Lemma lower_strip (s : string) :
  Str.lower (Str.strip s) = Str.strip (Str.lower s).
Proof.
  unfold Str.strip, Str.strip_by. rewrite lower_rstrip, lower_lstrip.
  reflexivity.
Qed.

(** X8: [color] does not tell upper case from lower case, in names, in
    hexadecimal digits and in [rgb]: a text and its lower-case form get
    the same result.  The one exception is the test [string == "none"],
    made before the text is lowered: it is met by "none" only. *)
Theorem color_ignores_case (COLORS : Dict.t) (s : string) (opacity : pyval) :
  (Str.lower s = "none" -> s = "none") ->
  color COLORS (Some s) opacity = color COLORS (Some (Str.lower s)) opacity.
Proof.
  intros H. unfold color.
  destruct s as [|c s]; [reflexivity|].
  rewrite lower_cons at 1. cbn [Str.truthy negb orb].
  destruct (String.eqb (String c s) "none") eqn:E.
  - apply String.eqb_eq in E. rewrite E. reflexivity.
  - destruct (String.eqb (Str.lower (String c s)) "none") eqn:E'.
    + apply String.eqb_eq in E'. rewrite (H E') in E. discriminate E.
    + rewrite <- lower_strip, lower_idem. reflexivity.
Qed.

Lemma color_ignores_case_witness :
  color [("red", "#ff0000")] (Some "Red") (VInt 1)
  = Ok (VFloat 1, VFloat 0, VFloat 0, VInt 1) /\
  color [("red", "#ff0000")] (Some "#FFaa00") (VInt 1)
  = color [("red", "#ff0000")] (Some "#ffaa00") (VInt 1).
Proof.
  split.
  - rewrite (color_ignores_case [("red", "#ff0000")] "Red" (VInt 1));
      [reflexivity|discriminate].
  - apply (color_ignores_case [("red", "#ff0000")] "#FFaa00" (VInt 1)).
    discriminate.
Defined.

(** The exception: "NONE" is not the transparent colour but a string of
    four characters, read as a short hexadecimal form. *)
Lemma color_NONE_raises (opacity : pyval) :
  color [] (Some "NONE") opacity = Raise ValueError.
Proof. reflexivity. Qed.

Lemma hex_channel_range (a b : ascii) :
  is_hex a = true -> is_hex b = true ->
  channel_in_range (String a (String b "")) = true.
Proof.
  each_char a; intros _; each_char b; intros _; vm_compute; reflexivity.
Qed.

Lemma channel_in_range_inv (s : string) :
  channel_in_range s = true ->
  exists f, hex_channel s = Ok (VFloat f) /\ in_unit_interval f = true.
Proof.
  unfold channel_in_range.
  destruct (hex_channel s) as [[| |f]| |]; try discriminate.
  intros H. exists f. split; [reflexivity|exact H].
Qed.

(** X9: the form [#rrggbb]: [color] does not raise, each of the three channels
    is a float between 0 and 1, and the alpha is the opacity it was
    given. *)
Theorem color_six_digits (COLORS : Dict.t) (digits : string) (opacity : pyval) :
  no_hash_key COLORS ->
  hex_string digits = true -> String.length digits = 6%nat ->
  exists r g b,
    color COLORS (Some ("#" ++ digits)) opacity
    = Ok (VFloat r, VFloat g, VFloat b, opacity) /\
    in_unit_interval r = true /\ in_unit_interval g = true /\
    in_unit_interval b = true.
Proof.
  intros HC Hd Hl. rewrite (color_hash _ _ opacity HC Hd).
  assert (Hd' := lower_hex _ Hd). rewrite <- (lower_length digits) in Hl.
  destruct (Str.lower digits) as [|a [|b [|c [|d [|e [|f [|g t]]]]]]];
    try discriminate Hl.
  destruct (hex_string_cons _ _ Hd') as [Ha H1].
  destruct (hex_string_cons _ _ H1) as [Hb H2].
  destruct (hex_string_cons _ _ H2) as [Hc H3].
  destruct (hex_string_cons _ _ H3) as [Hd4 H4].
  destruct (hex_string_cons _ _ H4) as [He H5].
  destruct (hex_string_cons _ _ H5) as [Hf _].
  destruct (channel_in_range_inv _ (hex_channel_range a b Ha Hb)) as (x & E1 & R1).
  destruct (channel_in_range_inv _ (hex_channel_range c d Hc Hd4)) as (y & E2 & R2).
  destruct (channel_in_range_inv _ (hex_channel_range e f He Hf)) as (z & E3 & R3).
  exists x, y, z. split; [|auto].
  unfold hex_color. cbn -[hex_channel]. rewrite E1, E2, E3. reflexivity.
Qed.

Lemma color_six_digits_witness :
  exists r g b,
    color [("red", "#ff0000")] (Some "#FF8000") (VFloat 0.5)
    = Ok (VFloat r, VFloat g, VFloat b, VFloat 0.5) /\
    in_unit_interval r = true /\ in_unit_interval g = true /\
    in_unit_interval b = true.
Proof.
  exact (color_six_digits [("red", "#ff0000")] "FF8000" (VFloat 0.5)
                          no_hash_key_red eq_refl eq_refl).
Defined.

(** X10: the short forms: [#rgb] is read as [#rrggbb] and [#rgba] as
    [#rrggbbaa], each digit doubled. *)
Theorem color_short_forms (COLORS : Dict.t) (r g b a : ascii) (opacity : pyval) :
  no_hash_key COLORS ->
  is_hex r = true -> is_hex g = true -> is_hex b = true -> is_hex a = true ->
  color COLORS (Some (String "#" (String r (String g (String b ""))))) opacity
  = color COLORS
          (Some (String "#" (String r (String r (String g (String g
                   (String b (String b ""))))))))
          opacity /\
  color COLORS (Some (String "#" (String r (String g (String b (String a ""))))))
        opacity
  = color COLORS
          (Some (String "#" (String r (String r (String g (String g
                   (String b (String b (String a (String a ""))))))))))
          opacity.
Proof.
  intros HC Hr Hg Hb Ha.
  assert (H3 : hex_string (String r (String g (String b ""))) = true).
  { unfold hex_string. cbn [Str.all_chars]. rewrite Hr, Hg, Hb. reflexivity. }
  assert (H4 : hex_string (String r (String g (String b (String a "")))) = true).
  { unfold hex_string. cbn [Str.all_chars]. rewrite Hr, Hg, Hb, Ha. reflexivity. }
  assert (H6 : hex_string (String r (String r (String g (String g
                             (String b (String b "")))))) = true).
  { unfold hex_string. cbn [Str.all_chars]. rewrite Hr, Hg, Hb. reflexivity. }
  assert (H8 : hex_string (String r (String r (String g (String g
                 (String b (String b (String a (String a "")))))))) = true).
  { unfold hex_string. cbn [Str.all_chars]. rewrite Hr, Hg, Hb, Ha. reflexivity. }
  split.
  - exact (eq_trans (color_hash COLORS _ opacity HC H3)
                    (eq_sym (color_hash COLORS _ opacity HC H6))).
  - exact (eq_trans (color_hash COLORS _ opacity HC H4)
                    (eq_sym (color_hash COLORS _ opacity HC H8))).
Qed.

Lemma color_short_forms_witness :
  color [("red", "#ff0000")] (Some "#f80") (VInt 1)
  = color [("red", "#ff0000")] (Some "#ff8800") (VInt 1).
Proof.
  exact (proj1 (color_short_forms [("red", "#ff0000")] "f" "8" "0" "0" (VInt 1)
                                  no_hash_key_red eq_refl eq_refl eq_refl eq_refl)).
Defined.

(** *** The [transform] attribute *)

Lemma transform_values_empty (fuel : nat) : transform_values fuel "" = Ok [].
Proof. destruct fuel; reflexivity. Qed.

Lemma truthy_app_space (s : string) : Str.truthy (s ++ " ") = true.
Proof. destruct s; reflexivity. Qed.

Lemma transform_values_split_n (fuel k : nat) (s : string) :
  (String.length s < fuel)%nat -> (String.length s <= k)%nat ->
  transform_values fuel (s ++ " ")
  = mapM (fun v => size (Some v)) (Str.split_n " " k s).
Proof.
  revert k s. induction fuel as [|fuel IH]; intros k s Hf Hk; [lia|].
  cbn [transform_values]. rewrite truthy_app_space. cbn [negb Str.split_n].
  rewrite find_space_end.
  destruct (Str.find " " s) as [[a b]|] eqn:E.
  - assert (Hl := find_shorter _ _ _ _ E). simpl in Hl.
    destruct k as [|k]; [lia|].
    cbn [Str.split_n]. rewrite E. cbn [unpack2 bind mapM].
    rewrite (IH k b) by lia. reflexivity.
  - cbn [unpack2 bind]. rewrite transform_values_empty.
    destruct k; cbn [Str.split_n]; [|rewrite E]; reflexivity.
Qed.

Lemma transform_values_words (s : string) :
  transform_values (String.length (s ++ " ")) (s ++ " ")
  = mapM (fun v => size (Some v)) (Str.split " " s).
Proof.
  apply transform_values_split_n; [rewrite length_app; simpl; lia|lia].
Qed.

(** X12: the loop that reads the operands of a transformation
    ([while transformation: value, transformation =
    transformation.split(" ", 1)]) on the text it is given, which ends
    with the space that [draw] appends: it terminates, its unpacking never
    fails, and it applies [size] to each piece of the text split at its
    spaces, in order.  There is at least one piece, so the list is never
    empty. *)
Theorem transform_values_split (s : string) :
  transform_values (String.length (s ++ " ")) (s ++ " ")
  = mapM (fun v => size (Some v)) (Str.split " " s) /\
  Str.split " " s <> [].
Proof.
  split; [apply transform_values_words|].
  unfold Str.split. destruct (String.length s); cbn [Str.split_n];
    [discriminate|].
  destruct (Str.find " " s) as [[a b]|]; discriminate.
Qed.

Lemma startswith_app (sub a b : string) :
  Str.startswith sub a = true -> Str.startswith sub (a ++ b) = true.
Proof.
  revert a. induction sub as [|c sub IH]; intros a H; [reflexivity|].
  destruct a as [|d a]; [discriminate H|].
  cbn [Str.startswith] in *. apply andb_prop in H. destruct H as [H1 H2].
  change (String d a ++ b) with (String d (a ++ b)). cbn [Str.startswith].
  rewrite H1, (IH a H2). reflexivity.
Qed.

Lemma contains_app_l (sub a b : string) :
  Str.contains sub a = true -> Str.contains sub (a ++ b) = true.
Proof.
  unfold Str.contains. induction a as [|c a IH]; intros H.
  - cbn [Str.find] in H. destruct (Str.startswith sub "") eqn:E; [|discriminate H].
    destruct sub; [|discriminate E]. destruct b; reflexivity.
  - cbn [Str.find] in H. change (String c a ++ b) with (String c (a ++ b)).
    cbn [Str.find].
    destruct (Str.startswith sub (String c a)) eqn:E.
    + change (String c (a ++ b)) with (String c a ++ b).
      rewrite (startswith_app _ _ b E). reflexivity.
    + destruct (Str.startswith sub (String c (a ++ b))); [reflexivity|].
      destruct (Str.find sub a) as [[x y]|]; [|discriminate H].
      specialize (IH eq_refl).
      destruct (Str.find sub (a ++ b)) as [[x' y']|]; [reflexivity|discriminate IH].
Qed.

Lemma contains_app_r (sub a b : string) :
  Str.contains sub b = true -> Str.contains sub (a ++ b) = true.
Proof.
  unfold Str.contains. intros H. induction a as [|c a IH]; [exact H|].
  change (String c a ++ b) with (String c (a ++ b)). cbn [Str.find].
  destruct (Str.startswith sub (String c (a ++ b))); [reflexivity|].
  destruct (Str.find sub (a ++ b)) as [[x y]|]; [reflexivity|discriminate IH].
Qed.

Lemma contains_pieces (sub sep s a b : string) :
  Str.contains sub s = false -> Str.find sep s = Some (a, b) ->
  Str.contains sub a = false /\ Str.contains sub b = false.
Proof.
  intros H E. rewrite (find_split _ _ _ _ E) in H. split.
  - destruct (Str.contains sub a) eqn:Ea; [|reflexivity].
    rewrite (contains_app_l _ _ _ Ea) in H. discriminate H.
  - destruct (Str.contains sub b) eqn:Eb; [|reflexivity].
    rewrite (contains_app_r sub a _ (contains_app_r sub sep _ Eb)) in H.
    discriminate H.
Qed.

Lemma transform_types_absent (names : list string) (t : string) (st : surface) :
  (forall name, In name names -> Str.contains name t = false) ->
  transform_types names t st = (Ok tt, st).
Proof.
  induction names as [|name names IH]; intros H; [reflexivity|].
  cbn [transform_types]. rewrite (H name (or_introl eq_refl)).
  apply IH. intros n Hn. apply H. right. exact Hn.
Qed.

Lemma resolve_absent (k : nat) (t : string) (st : surface) :
  names_absent t ->
  iterM (transform_types transform_names) (Str.split_n ")" k t) st = (Ok tt, st).
Proof.
  revert t. induction k as [|k IH]; intros t H.
  - cbn [Str.split_n iterM]. unfold bindM.
    rewrite (transform_types_absent _ _ _ H). reflexivity.
  - cbn [Str.split_n]. destruct (Str.find ")" t) as [[a b]|] eqn:E.
    + assert (Ha : names_absent a).
      { intros n Hn. exact (proj1 (contains_pieces _ _ _ _ _ (H n Hn) E)). }
      assert (Hb : names_absent b).
      { intros n Hn. exact (proj2 (contains_pieces _ _ _ _ _ (H n Hn) E)). }
      cbn [iterM]. unfold bindM at 1.
      rewrite (transform_types_absent _ _ _ Ha). apply IH. exact Hb.
    + cbn [iterM]. unfold bindM.
      rewrite (transform_types_absent _ _ _ H). reflexivity.
Qed.

(** X13: a [transform] attribute in which none of the words [scale],
    [translate], [matrix] and [rotate] occurs ([skewX(30)], or any
    misspelling) is skipped: no call reaches the context and nothing is
    raised. *)
Theorem transform_unknown_skipped (t : string) (st : surface) :
  names_absent t -> resolve_transform t st = (Ok tt, st).
Proof. intros H. apply resolve_absent. exact H. Qed.

Lemma transform_unknown_skipped_witness :
  resolve_transform "skewX(30) skewY(10)" fresh_surface = (Ok tt, fresh_surface).
Proof.
  apply transform_unknown_skipped. intros name H. simpl in H.
  repeat (destruct H as [<-|H]; [reflexivity|]). contradiction.
Defined.

(** *** Zero sizes *)

Lemma size_sized (v : option string) (a : pyval) :
  size v = Ok a -> a <> VNone -> sized a.
Proof.
  intros E Ha. assert (H := size_outcome v).
  destruct v as [[|c s]|].
  - rewrite H in E. injection E as <-. left. reflexivity.
  - rewrite E in H. destruct a as [|z|f]; [contradiction|contradiction|].
    right. exists f. reflexivity.
  - rewrite H in E. injection E as <-. left. reflexivity.
Qed.

Lemma div_by_zero (a b : pyval) :
  sized a -> sized b -> Num.truthy b = false ->
  Num.div a b = Raise ZeroDivisionError.
Proof.
  intros [->|[f ->]] [->|[g ->]] H; try reflexivity.
  - simpl in H. apply negb_false_iff in H.
    unfold Num.div. cbn. rewrite H. reflexivity.
  - simpl in H. apply negb_false_iff in H.
    unfold Num.div. cbn. rewrite H. reflexivity.
Qed.

Lemma div_none_l (b : pyval) : Num.div VNone b = Raise TypeError.
Proof. destruct b; reflexivity. Qed.

Lemma div_none_r (a : pyval) : Num.div a VNone = Raise TypeError.
Proof. destruct a; reflexivity. Qed.

Lemma div_sized (a b : pyval) :
  sized a -> sized b -> Num.truthy b = true -> exists q, Num.div a b = Ok q.
Proof.
  intros [->|[f ->]] [->|[g ->]] H; try discriminate H.
  - simpl in H. apply negb_true_iff in H.
    unfold Num.div. cbn. rewrite H. eexists. reflexivity.
  - simpl in H. apply negb_true_iff in H.
    unfold Num.div. cbn. rewrite H. eexists. reflexivity.
Qed.

(** X14: an ellipse whose [rx] is missing, empty or zero never returns and
    makes no call on the context: the ratio [size(ry) / size(rx)] is
    computed first.  It raises [ZeroDivisionError] when [size(ry)] is a
    number, [TypeError] when [size(ry)] is [None], and the error of
    [size(ry)] when that raises. *)
Theorem ellipse_zero_rx (n : node) (b : pyval) (st : surface) :
  size (get n "rx") = Ok b -> b <> VNone -> Num.truthy b = false ->
  stops (ellipse n) st /\
  (forall a, size (get n "ry") = Ok a -> a <> VNone ->
             ellipse n st = (Raise ZeroDivisionError, st)) /\
  (size (get n "ry") = Ok VNone -> ellipse n st = (Raise TypeError, st)) /\
  (forall e, size (get n "ry") = Raise e -> ellipse n st = (Raise e, st)).
Proof.
  intros Eb Hb Hz.
  assert (Z : forall a, size (get n "ry") = Ok a -> a <> VNone ->
                        ellipse n st = (Raise ZeroDivisionError, st)).
  { intros a Ea Ha. unfold ellipse, bindM, lift. rewrite Ea, Eb. cbn [bind].
    rewrite (div_by_zero a b (size_sized _ _ Ea Ha) (size_sized _ _ Eb Hb) Hz).
    reflexivity. }
  assert (T : size (get n "ry") = Ok VNone ->
              ellipse n st = (Raise TypeError, st)).
  { intros Ea. unfold ellipse, bindM, lift. rewrite Ea, Eb. cbn [bind].
    rewrite div_none_l. reflexivity. }
  assert (R : forall e, size (get n "ry") = Raise e ->
                        ellipse n st = (Raise e, st)).
  { intros e Ea. unfold ellipse, bindM, lift. rewrite Ea. reflexivity. }
  split; [|split; [exact Z|split; [exact T|exact R]]].
  assert (S : forall e, ellipse n st = (Raise e, st) -> stops (ellipse n) st).
  { intros e E. unfold stops. rewrite E. split; [reflexivity|discriminate]. }
  destruct (size (get n "ry")) as [a|e|] eqn:Ea.
  - destruct a as [|z|f].
    + apply (S _ (T eq_refl)).
    + apply (S _ (Z _ eq_refl ltac:(discriminate))).
    + apply (S _ (Z _ eq_refl ltac:(discriminate))).
  - apply (S _ (R e eq_refl)).
  - unfold stops, ellipse, bindM, lift. rewrite Ea.
    split; [reflexivity|discriminate].
Qed.

Lemma ellipse_zero_rx_witness :
  ellipse (Node "ellipse" [("cx", "5"); ("ry", "2")] [] None false) fresh_surface
  = (Raise ZeroDivisionError, fresh_surface) /\
  ellipse (Node "ellipse" [("ry", "foo"); ("rx", "0")] [] None false)
          fresh_surface
  = (Raise TypeError, fresh_surface) /\
  ellipse (Node "ellipse" [("ry", "2em")] [] None false) fresh_surface
  = (Raise TypeError, fresh_surface).
Proof.
  split; [|split].
  - apply (proj1 (proj2 (ellipse_zero_rx
                           (Node "ellipse" [("cx", "5"); ("ry", "2")] [] None false)
                           (VInt 0) fresh_surface eq_refl
                           ltac:(discriminate) eq_refl))
                 (VFloat 2));
      [reflexivity|discriminate].
  - apply (proj1 (proj2 (proj2 (ellipse_zero_rx
                                  (Node "ellipse" [("ry", "foo"); ("rx", "0")]
                                        [] None false)
                                  (VFloat 0) fresh_surface eq_refl
                                  ltac:(discriminate) eq_refl)))).
    reflexivity.
  - apply (proj2 (proj2 (proj2 (ellipse_zero_rx
                                  (Node "ellipse" [("ry", "2em")] [] None false)
                                  (VInt 0) fresh_surface eq_refl
                                  ltac:(discriminate) eq_refl)))).
    reflexivity.
Defined.

(** X15: a view box whose width or height is the number zero:
    [_set_context_size] never returns and makes no call on the context.
    The two ratios [width / x_size] and [height / y_size] are computed in
    this order, and the first division that fails decides: [TypeError]
    when one of its operands is [None], [ZeroDivisionError] when they are
    numbers and the divisor is zero. *)
Theorem viewport_zero_size (width height x y x_size y_size : pyval)
        (st : surface) :
  size_value width -> size_value height ->
  size_value x_size -> size_value y_size ->
  zero_size x_size \/ zero_size y_size ->
  _set_context_size width height (Some [x; y; x_size; y_size]) st
  = (Raise (if is_None width || is_None x_size then TypeError
            else if negb (Num.truthy x_size) then ZeroDivisionError
            else if is_None height || is_None y_size then TypeError
            else ZeroDivisionError), st).
Proof.
  intros Hw Hh Hx Hy H. unfold _set_context_size, bindM, lift.
  cbn [unpack4].
  destruct Hw as [->|Hw]; [rewrite div_none_l; reflexivity|].
  destruct Hx as [->|Hx].
  { rewrite div_none_r. destruct Hw as [->|[w ->]]; reflexivity. }
  assert (Nw : is_None width = false) by (destruct Hw as [->|[w ->]]; reflexivity).
  assert (Nx : is_None x_size = false) by (destruct Hx as [->|[w ->]]; reflexivity).
  rewrite Nw, Nx. cbn [orb].
  destruct (Num.truthy x_size) eqn:Ex; cbn [negb].
  - destruct (div_sized width x_size Hw Hx Ex) as [q ->].
    destruct Hh as [->|Hh]; [rewrite div_none_l; reflexivity|].
    destruct Hy as [->|Hy].
    { rewrite div_none_r. destruct Hh as [->|[h ->]]; reflexivity. }
    assert (Nh : is_None height = false)
      by (destruct Hh as [->|[h ->]]; reflexivity).
    assert (Ny : is_None y_size = false)
      by (destruct Hy as [->|[h ->]]; reflexivity).
    rewrite Nh, Ny. cbn [orb].
    destruct H as [[_ H]|[_ H]]; [rewrite Ex in H; discriminate H|].
    rewrite (div_by_zero height y_size Hh Hy H). reflexivity.
  - rewrite (div_by_zero width x_size Hw Hx Ex). reflexivity.
Qed.

Lemma viewport_zero_size_witness :
  _set_context_size (VFloat 100) (VFloat 100)
                    (Some [VFloat 0; VFloat 0; VFloat 0; VFloat 10])
                    fresh_surface
  = (Raise ZeroDivisionError, fresh_surface) /\
  _set_context_size (VFloat 100) (VFloat 100)
                    (Some [VFloat 0; VFloat 0; VNone; VFloat 0])
                    fresh_surface
  = (Raise TypeError, fresh_surface).
Proof.
  split.
  - apply (viewport_zero_size (VFloat 100) (VFloat 100) (VFloat 0) (VFloat 0)
                              (VFloat 0) (VFloat 10) fresh_surface);
      try (right; right; eexists; reflexivity).
    left. split; [right; eexists; reflexivity|reflexivity].
  - apply (viewport_zero_size (VFloat 100) (VFloat 100) (VFloat 0) (VFloat 0)
                              VNone (VFloat 0) fresh_surface);
      try (right; right; eexists; reflexivity); try (left; reflexivity).
    right. split; [right; eexists; reflexivity|reflexivity].
Defined.

(** *** Commands of [path] that stop before drawing *)

Lemma stops_lift {A B : Type} (r : res A) (f : A -> M B) (st : surface) :
  (forall x, r = Ok x -> stops (f x) st) -> stops (bindM (lift r) f) st.
Proof.
  intros H. unfold stops, bindM, lift.
  destruct r as [x|e|]; [exact (H x eq_refl)| |]; split;
    try reflexivity; intros x; discriminate.
Qed.

Lemma stops_query {A B : Type} (q : surface -> A) (f : A -> M B)
      (st : surface) :
  stops (f (q st)) st -> stops (bindM (fun s => (Ok (q s), s)) f) st.
Proof. intros H. exact H. Qed.

Lemma stops_raise {A : Type} (r : res A) (st : surface) :
  (forall x, r <> Ok x) -> stops (lift r) st.
Proof. intros H. split; [reflexivity|exact H]. Qed.

Section ZeroRadius.

Variables cos sin atan : float -> float.
Variable pow : float -> float -> float.
Variable get_current_point : list Ctx.op -> float * float.

Lemma math1_float (fn : float -> float) (v r : pyval) :
  math1 fn v = Ok r -> exists f, r = VFloat f.
Proof.
  unfold math1. destruct (Num.as_float v) as [x| |]; try discriminate.
  cbn [bind]. destruct (_ || _); [discriminate|].
  intros H. injection H as <-. eexists. reflexivity.
Qed.

Lemma arith_float_r fz ff (a : pyval) (g : float) (r : pyval) :
  Num.arith fz ff a (VFloat g) = Ok r -> exists f, r = VFloat f.
Proof.
  destruct a as [|z|f]; cbn [Num.arith Num.as_float bind]; try discriminate.
  - destruct (Num.of_Z z); cbn [bind]; try discriminate.
    intros H. injection H as <-. eexists. reflexivity.
  - intros H. injection H as <-. eexists. reflexivity.
Qed.

Lemma arith_float_l fz ff (g : float) (b r : pyval) :
  Num.arith fz ff (VFloat g) b = Ok r -> exists f, r = VFloat f.
Proof.
  destruct b as [|z|f]; cbn [Num.arith Num.as_float bind]; try discriminate.
  - destruct (Num.of_Z z); cbn [bind]; try discriminate.
    intros H. injection H as <-. eexists. reflexivity.
  - intros H. injection H as <-. eexists. reflexivity.
Qed.

(** The second coordinate that [rotate] returns is a float. *)
Lemma rotate_float (x y angle x' y' : pyval) :
  rotate cos sin x y angle = Ok (x', y') -> exists f, y' = VFloat f.
Proof.
  unfold rotate.
  destruct (math1 cos angle) as [c| |] eqn:Ec; try discriminate. cbn [bind].
  destruct (Num.mul x c) as [xc| |]; try discriminate. cbn [bind].
  destruct (math1 sin angle) as [s| |] eqn:Es; try discriminate. cbn [bind].
  destruct (Num.mul y s) as [ys| |]; try discriminate. cbn [bind].
  destruct (Num.sub xc ys) as [x''| |]; try discriminate. cbn [bind].
  destruct (math1_float _ _ _ Ec) as [fc ->].
  destruct (Num.mul y (VFloat fc)) as [yc| |] eqn:Eyc; try discriminate.
  cbn [bind].
  destruct (Num.mul x s) as [xs| |]; try discriminate. cbn [bind].
  destruct (arith_float_r _ _ _ _ _ Eyc) as [fy ->].
  destruct (Num.add (VFloat fy) xs) as [r| |] eqn:Er; try discriminate.
  cbn [bind]. intros H. injection H as _ <-.
  exact (arith_float_l _ _ _ _ _ Er).
Qed.

Lemma arc_chord_zero_ratio (ratio rotation x3 y3 : pyval) :
  ratio <> VNone -> Num.truthy ratio = false ->
  forall r, arc_chord cos sin atan pow ratio rotation x3 y3 <> Ok r.
Proof.
  intros Hn Hz r. unfold arc_chord.
  destruct (Num.neg rotation) as [nr| |]; try discriminate. cbn [bind].
  destruct (rotate cos sin x3 y3 nr) as [[xe ye]| |] eqn:E; try discriminate.
  cbn [bind]. destruct (rotate_float _ _ _ _ _ E) as [f ->].
  assert (Hd : Num.div (VFloat f) ratio = Raise ZeroDivisionError).
  { destruct ratio as [|z|g]; [contradiction| |].
    - simpl in Hz. apply negb_false_iff in Hz. apply Z.eqb_eq in Hz. subst z.
      reflexivity.
    - simpl in Hz. apply negb_false_iff in Hz.
      unfold Num.div. cbn. rewrite Hz. reflexivity. }
  rewrite Hd. discriminate.
Qed.


End ZeroRadius.


Lemma mem_char_lstrip (c : ascii) (p : ascii -> bool) (s : string) :
  Str.mem_char c s = false -> Str.mem_char c (Str.lstrip_by p s) = false.
Proof.
  induction s as [|d s IH]; intros H; [reflexivity|].
  cbn [Str.lstrip_by]. destruct (p d); [|exact H].
  apply IH. cbn [Str.mem_char] in H. apply orb_false_elim in H. apply H.
Qed.

Lemma mem_char_rstrip (c : ascii) (p : ascii -> bool) (s : string) :
  Str.mem_char c s = false -> Str.mem_char c (Str.rstrip_by p s) = false.
Proof.
  induction s as [|d s IH]; intros H; [reflexivity|].
  cbn [Str.mem_char] in H. apply orb_false_elim in H. destruct H as [Hd Hs].
  cbn [Str.rstrip_by]. specialize (IH Hs).
  destruct (Str.rstrip_by p s).
  - destruct (p d); [reflexivity|]. cbn [Str.mem_char]. rewrite Hd. reflexivity.
  - cbn [Str.mem_char] in *. rewrite Hd. exact IH.
Qed.

Lemma mem_char_strip (c : ascii) (s : string) :
  Str.mem_char c s = false -> Str.mem_char c (Str.strip s) = false.
Proof.
  intros H. unfold Str.strip, Str.strip_by.
  apply mem_char_rstrip, mem_char_lstrip, H.
Qed.

Lemma mem_char_find_rest (c : ascii) (sep s a b : string) :
  Str.mem_char c s = false -> Str.find sep s = Some (a, b) ->
  Str.mem_char c b = false.
Proof.
  intros H E. rewrite (find_split _ _ _ _ E), !mem_char_app in H.
  apply orb_false_elim in H. destruct H as [_ H].
  apply orb_false_elim in H. apply H.
Qed.

Section Quadratic.

Variables cos sin atan : float -> float.
Variable pow : float -> float -> float.
Variable get_current_point : list Ctx.op -> float * float.

(** X16: a round of [path] that starts on the command [Q], with no [T] in the
    text that is left (or on [q], with no [t]): [string.split("T", 1)]
    yields one piece, its unpacking into two names raises [ValueError],
    and no curve is drawn.  A quadratic curve is drawn only when a [T]
    command follows it. *)
Theorem quadratic_needs_T (s : string) (L : locals) (st : surface) :
  (hd "" (Str.split_n " " 1 (Str.strip s)) = "Q" /\ Str.mem_char "T" s = false) \/
  (hd "" (Str.split_n " " 1 (Str.strip s)) = "q" /\ Str.mem_char "t" s = false) ->
  path_step cos sin atan pow get_current_point s L st = (Raise ValueError, st).
Proof.
  intros H. unfold path_step. cbv zeta.
  assert (R : forall c, Str.mem_char c s = false -> Ascii.eqb c " " = false ->
              exists rest,
                Str.split_n " " 1 (Str.strip s ++ " ")
                = [hd "" (Str.split_n " " 1 (Str.strip s)); rest] /\
                Str.mem_char c rest = false).
  { intros c Hc Hs. assert (Hc' := mem_char_strip c s Hc).
    cbn [Str.split_n]. rewrite find_space_end.
    destruct (Str.find " " (Str.strip s)) as [[a b]|] eqn:E.
    - exists (b ++ " "). split; [reflexivity|].
      rewrite mem_char_app, (mem_char_find_rest _ _ _ _ _ Hc' E).
      cbn [Str.mem_char]. rewrite Hs. reflexivity.
    - exists "". split; reflexivity. }
  destruct H as [[Hw Hc]|[Hw Hc]];
    destruct (R _ Hc eq_refl) as (rest & E & Hr);
    rewrite Hw in *; unfold bindM at 1;
    change (Str.contains "Q" PATH_LETTERS) with true;
    change (Str.contains "q" PATH_LETTERS) with true;
    cbv iota; unfold bindM at 1; unfold lift at 1; rewrite E;
    cbn [unpack2 ret letter set_letter];
    unfold bindM at 1; unfold bindM at 1; unfold lift at 1;
    cbn [Str.contains Str.find Str.startswith String.eqb Ascii.eqb Bool.eqb
         Str.split_n];
    rewrite (find_none_mem _ _ Hr); reflexivity.
Qed.

End Quadratic.

Lemma quadratic_needs_T_witness :
  path_step Exact.cos Exact.sin Exact.atan Exact.pow (fun _ => (0, 0)%float)
            "Q 5 10 10 0 " path_locals fresh_surface
  = (Raise ValueError, fresh_surface).
Proof.
  apply quadratic_needs_T. left. split; reflexivity.
Defined.

(** *** The loops that consume text terminate *)

Lemma finishes_ret {A : Type} (x : A) : finishes (ret x).
Proof. intros st. discriminate. Qed.

Lemma finishes_lift {A : Type} (r : res A) : r <> Timeout -> finishes (lift r).
Proof. intros H st. exact H. Qed.

Lemma finishes_bind {A B : Type} (m : M A) (f : A -> M B) :
  finishes m -> (forall x, finishes (f x)) -> finishes (bindM m f).
Proof.
  intros Hm Hf st. unfold bindM. generalize (Hm st).
  destruct (m st) as [[x|e|] st1]; simpl; intros H.
  - apply Hf.
  - discriminate.
  - exfalso. apply H. reflexivity.
Qed.

Lemma finishes_call (o : Ctx.op) : finishes (call o).
Proof. intros st. discriminate. Qed.

Lemma bind_no_timeout {A B : Type} (r : res A) (f : A -> res B) :
  r <> Timeout -> (forall x, f x <> Timeout) -> bind r f <> Timeout.
Proof.
  intros H Hf. destruct r; [apply Hf|discriminate|].
  exfalso. apply H. reflexivity.
Qed.

Lemma of_Z_no_timeout (z : Z) : Num.of_Z z <> Timeout.
Proof. unfold Num.of_Z. destruct (Num.is_inf _); discriminate. Qed.

Lemma as_float_no_timeout (v : pyval) : Num.as_float v <> Timeout.
Proof. destruct v; try discriminate. apply of_Z_no_timeout. Qed.

Lemma finishes_call2 f (a b : pyval) : finishes (call2 f a b).
Proof.
  unfold call2.
  apply finishes_bind; [apply finishes_lift, as_float_no_timeout|intros x].
  apply finishes_bind; [apply finishes_lift, as_float_no_timeout|intros y].
  apply finishes_call.
Qed.

Lemma size_no_timeout (v : option string) : size v <> Timeout.
Proof.
  assert (H := size_outcome v).
  destruct v as [[|c s]|]; try (rewrite H; discriminate).
  intros E. rewrite E in H. exact H.
Qed.

Lemma point_no_timeout (s : string) : point s <> Timeout.
Proof.
  unfold point. destruct (negb (Str.truthy s)); [discriminate|].
  apply bind_no_timeout.
  - destruct (Str.split_n " " 2 (Str.strip s ++ " ")) as [|a [|b [|c [|d l]]]];
      discriminate.
  - intros [[x y] rest].
    apply bind_no_timeout; [apply size_no_timeout|intros vx].
    apply bind_no_timeout; [apply size_no_timeout|intros vy]. discriminate.
Qed.

Lemma lstrip_length (p : ascii -> bool) (s : string) :
  (String.length (Str.lstrip_by p s) <= String.length s)%nat.
Proof.
  induction s as [|c s IH]; [apply Nat.le_refl|].
  cbn [Str.lstrip_by]. destruct (p c); simpl; lia.
Qed.

Lemma rstrip_length (p : ascii -> bool) (s : string) :
  (String.length (Str.rstrip_by p s) <= String.length s)%nat.
Proof.
  induction s as [|c s IH]; [apply Nat.le_refl|].
  cbn [Str.rstrip_by]. destruct (Str.rstrip_by p s).
  - destruct (p c); simpl; lia.
  - simpl in *. lia.
Qed.

Lemma strip_length (s : string) :
  (String.length (Str.strip s) <= String.length s)%nat.
Proof.
  unfold Str.strip, Str.strip_by.
  eapply Nat.le_trans; [apply rstrip_length|apply lstrip_length].
Qed.

(** The text that [point] returns is shorter than the text it was
    given. *)
Lemma point_consumes (s : string) (x y : pyval) (rest : string) :
  Str.truthy s = true -> point s = Ok (x, y, rest) ->
  (String.length rest < String.length s)%nat.
Proof.
  intros Hs. unfold point. rewrite Hs. cbn [negb Str.split_n].
  destruct (Str.find " " (Str.strip s ++ " ")) as [[a r1]|] eqn:E1;
    [|discriminate].
  destruct (Str.find " " r1) as [[b r2]|] eqn:E2; [|discriminate].
  cbn [unpack3 bind].
  destruct (size (Some a)); try discriminate. cbn [bind].
  destruct (size (Some b)); try discriminate. cbn [bind].
  intros H. injection H as _ _ <-.
  assert (H1 := find_shorter _ _ _ _ E1). assert (H2 := find_shorter _ _ _ _ E2).
  rewrite length_app in H1. simpl in H1, H2.
  assert (H3 := strip_length s). lia.
Qed.

Lemma polyline_loop_finishes (fuel : nat) (points : string) :
  (String.length points <= fuel)%nat -> finishes (polyline_loop fuel points).
Proof.
  revert points. induction fuel as [|fuel IH]; intros points H.
  - destruct points; [|simpl in H; lia]. apply finishes_ret.
  - cbn [polyline_loop]. destruct (Str.truthy points) eqn:E;
      [|apply finishes_ret].
    cbn [negb]. intros st. unfold bindM at 1. unfold lift at 1.
    destruct (point points) as [[[x y] rest]| |] eqn:Ep.
    + assert (Hl := point_consumes _ _ _ _ E Ep).
      apply finishes_bind; [apply finishes_call2|intros _].
      apply IH. lia.
    + discriminate.
    + exfalso. exact (point_no_timeout _ Ep).
Qed.

Lemma finishes_polyline (n : node) : finishes (polyline n).
Proof.
  unfold polyline. destruct (get n "points") as [p|];
    [|apply finishes_lift; discriminate].
  cbv zeta. destruct (Str.truthy (normalize p)); [|apply finishes_ret].
  apply finishes_bind; [apply finishes_lift, point_no_timeout|].
  intros [[x y] rest].
  apply finishes_bind; [apply finishes_call2|intros _].
  apply finishes_bind; [|intros _; apply finishes_ret].
  apply polyline_loop_finishes. apply Nat.le_refl.
Qed.

Lemma finishes_polygon (n : node) : finishes (polygon n).
Proof.
  unfold polygon. apply finishes_bind; [apply finishes_polyline|intros n'].
  apply finishes_bind; [apply finishes_call|intros _; apply finishes_ret].
Qed.

(** X18: [polyline] and [polygon] terminate on every node: each round of the
    loop [while points:] hands a shorter text to the next.  (The loop of
    [path] has no such measure.) *)
Theorem polyline_terminates (n : node) :
  finishes (polyline n) /\ finishes (polygon n).
Proof. split; [apply finishes_polyline|apply finishes_polygon]. Qed.

Lemma first_word_split (t : string) :
  exists rest,
    Str.split_n " " 1 (t ++ " ") = [hd "" (Str.split_n " " 1 t); rest].
Proof.
  cbn [Str.split_n]. rewrite find_space_end.
  destruct (Str.find " " t) as [[a b]|]; eexists; reflexivity.
Qed.

Section Smooth.

Variables cos sin atan : float -> float.
Variable pow : float -> float -> float.
Variable get_current_point : list Ctx.op -> float * float.

(** X17: the commands that continue a curve need one before them.  On [T] or
    [t] while no control point [x2] has been assigned (no curve command
    has run), [x2 = 2 * x1 - x2] raises [UnboundLocalError]; on [S] or [s]
    as the first command of a path, [last_letter] is still [None] and the
    test [last_letter in "CS"] raises [TypeError].  Nothing is drawn. *)
Theorem smooth_needs_predecessor (s : string) (L : locals) (st : surface) :
  let word := hd "" (Str.split_n " " 1 (Str.strip s)) in
  (word = "T" \/ word = "t" -> x2 L = None ->
   path_step cos sin atan pow get_current_point s L st
   = (Raise UnboundLocalError, st)) /\
  (word = "S" \/ word = "s" -> last_letter L = None ->
   path_step cos sin atan pow get_current_point s L st
   = (Raise TypeError, st)).
Proof.
  intros word. subst word.
  destruct (first_word_split (Str.strip s)) as [rest E].
  destruct L as [l ll a1 b1 a2 b2 a3 b3].
  split; intros [Hw|Hw] HL; simpl in HL; subst;
    unfold path_step; cbv zeta; rewrite E, Hw; reflexivity.
Qed.

End Smooth.

Lemma smooth_needs_predecessor_witness :
  path_step Exact.cos Exact.sin Exact.atan Exact.pow (fun _ => (0, 0)%float)
            "T 10 10 " path_locals fresh_surface
  = (Raise UnboundLocalError, fresh_surface) /\
  path_step Exact.cos Exact.sin Exact.atan Exact.pow (fun _ => (0, 0)%float)
            "s 1 1 2 2 " path_locals fresh_surface
  = (Raise TypeError, fresh_surface).
Proof.
  split.
  - apply (proj1 (smooth_needs_predecessor Exact.cos Exact.sin Exact.atan
                    Exact.pow (fun _ => (0, 0)%float) "T 10 10 " path_locals
                    fresh_surface)); [left|]; reflexivity.
  - apply (proj2 (smooth_needs_predecessor Exact.cos Exact.sin Exact.atan
                    Exact.pow (fun _ => (0, 0)%float) "s 1 1 2 2 " path_locals
                    fresh_surface)); [right|]; reflexivity.
Defined.

(** *** What the handlers leave in the node *)

Lemma bindM_ok {A B : Type} (m : M A) (f : A -> M B) (st st' : surface) (y : B) :
  bindM m f st = (Ok y, st') ->
  exists x st1, m st = (Ok x, st1) /\ f x st1 = (Ok y, st').
Proof.
  unfold bindM. destruct (m st) as [[x|e|] st1]; intros H; try discriminate.
  exists x, st1. split; [reflexivity|exact H].
Qed.

Tactic Notation "bindM_inv" hyp(H) "as" simple_intropattern(p) :=
  apply bindM_ok in H; destruct H as (p & ? & ? & H).

Tactic Notation "bindM_inv" hyp(H) := bindM_inv H as ?.

Lemma get_set_same (k v : string) (d : Dict.t) :
  Dict.get k (Dict.set k v d) = Some v.
Proof. unfold Dict.set. simpl. rewrite String.eqb_refl. reflexivity. Qed.

Lemma get_del_same (k : string) (d : Dict.t) : Dict.get k (Dict.del k d) = None.
Proof.
  induction d as [|[k' v] d IH]; [reflexivity|].
  simpl. destruct (String.eqb k k') eqn:E; [exact IH|].
  simpl. rewrite E. exact IH.
Qed.

Lemma get_del_other (k k' : string) (d : Dict.t) :
  String.eqb k k' = false -> Dict.get k (Dict.del k' d) = Dict.get k d.
Proof.
  intros H. induction d as [|[k1 v] d IH]; [reflexivity|].
  simpl. destruct (String.eqb k' k1) eqn:E.
  - apply String.eqb_eq in E. subst k1. rewrite H. exact IH.
  - simpl. destruct (String.eqb k k1); [reflexivity|exact IH].
Qed.

Section Mutation.

Variable get_current_point : list Ctx.op -> float * float.
Variable text_extents :
  list Ctx.op -> string -> float * float * float * float * float * float.
Variable COLORS : Dict.t.
Variable Tree : option string -> node -> res node.

(** X20: [text] rewrites its node: when it returns, the node's [fill] is the
    transparent "#00000000" (so that the fill that [draw] makes next
    paints nothing over the text just shown), and the surface remembers
    the current point of the context as its cursor position. *)
Theorem text_leaves_transparent_fill (n n' : node) (st st' : surface) :
  text get_current_point text_extents COLORS n st = (Ok n', st') ->
  get n' "fill" = Some "#00000000" /\
  cursor_position st'
  = (VFloat (fst (get_current_point (context st'))),
     VFloat (snd (get_current_point (context st')))).
Proof.
  unfold text. cbv zeta. intros H.
  bindM_inv H. bindM_inv H. bindM_inv H.
  bindM_inv H as [[[[[xb ?] w] ?] ?] ?].
  bindM_inv H. bindM_inv H. bindM_inv H. bindM_inv H. bindM_inv H.
  bindM_inv H. bindM_inv H. bindM_inv H. bindM_inv H. bindM_inv H.
  bindM_inv H.
  unfold ret in H. injection H as <- <-.
  match goal with
  | Hc : current_point _ _ = _ |- _ =>
      unfold current_point in Hc; injection Hc as <- <-
  end.
  match goal with
  | Hc : set_cursor_position _ _ = _ |- _ =>
      unfold set_cursor_position in Hc; injection Hc as _ <-
  end.
  split; [apply get_set_same|reflexivity].
Qed.

(** X21: [use] rewrites its node too: the attributes [x], [y] and [viewBox]
    are deleted before the tree is loaded, and stay deleted.  Drawing the
    same document again places the used tree at the origin. *)
Theorem use_deletes_position (draw : node -> M unit) (n n' : node)
        (st st' : surface) :
  use Tree draw n st = (Ok n', st') ->
  get n' "x" = None /\ get n' "y" = None /\ get n' "viewBox" = None.
Proof.
  unfold use. cbv zeta. intros H.
  bindM_inv H. bindM_inv H. bindM_inv H. bindM_inv H. bindM_inv H.
  bindM_inv H as [[w h] vb].
  bindM_inv H. bindM_inv H. bindM_inv H. bindM_inv H.
  unfold ret in H. injection H as <- _.
  unfold get, del_attr. cbn [attrs].
  repeat split.
  - rewrite !get_del_other by reflexivity. apply get_del_same.
  - rewrite get_del_other by reflexivity. apply get_del_same.
  - apply get_del_same.
Qed.

End Mutation.

Lemma text_leaves_transparent_fill_witness :
  exists n' st',
    text (fun _ => (0, 0)%float) (fun _ _ => (0, 0, 0, 0, 0, 0)%float) []
         (Node "text" [("x", "5"); ("fill", "#ff0000")] [] (Some " hi ") false)
         fresh_surface
    = (Ok n', st') /\
    get n' "fill" = Some "#00000000" /\
    cursor_position st' = (VFloat 0, VFloat 0).
Proof.
  eexists. eexists. split; [vm_compute; reflexivity|].
  eapply (text_leaves_transparent_fill
            (fun _ => (0, 0)%float) (fun _ _ => (0, 0, 0, 0, 0, 0)%float) []
            (Node "text" [("x", "5"); ("fill", "#ff0000")] [] (Some " hi ") false)
            _ fresh_surface).
  vm_compute. reflexivity.
Defined.

Lemma use_deletes_position_witness :
  exists n' st',
    use example_Tree (fun _ => ret tt)
        (Node "use" [("x", "3"); ("y", "4")] [] None false) fresh_surface
    = (Ok n', st') /\
    get n' "x" = None /\ get n' "y" = None /\ get n' "viewBox" = None.
Proof.
  eexists. eexists. split; [vm_compute; reflexivity|].
  eapply (use_deletes_position example_Tree (fun _ => ret tt)
            (Node "use" [("x", "3"); ("y", "4")] [] None false)
            _ fresh_surface).
  vm_compute. reflexivity.
Defined.

(** *** The loops of the quadratic commands *)

Lemma finishes_call6 f (a b c d e g : pyval) : finishes (call6 f a b c d e g).
Proof.
  unfold call6.
  repeat (apply finishes_bind;
          [apply finishes_lift, as_float_no_timeout|intros ?]).
  apply finishes_call.
Qed.

Lemma point_not_longer (s : string) (x y : pyval) (rest : string) :
  point s = Ok (x, y, rest) -> (String.length rest <= String.length s)%nat.
Proof.
  intros H. destruct (Str.truthy s) eqn:E.
  - apply Nat.lt_le_incl. exact (point_consumes _ _ _ _ E H).
  - destruct s; [|discriminate E]. injection H as _ _ <-. apply Nat.le_refl.
Qed.

Lemma arith_no_timeout fz ff (a b : pyval) : Num.arith fz ff a b <> Timeout.
Proof.
  destruct a as [|x|f], b as [|y|g]; cbn [Num.arith]; try discriminate;
    (apply bind_no_timeout; [apply as_float_no_timeout|intros ?]);
    (apply bind_no_timeout; [apply as_float_no_timeout|intros ?]);
    discriminate.
Qed.

Lemma div_Z_no_timeout (a b : Z) : Num.div_Z a b <> Timeout.
Proof.
  unfold Num.div_Z. destruct (b =? 0)%Z; [discriminate|].
  destruct (Z.abs a); try discriminate; destruct (Num.is_inf _); discriminate.
Qed.

Lemma div_no_timeout (a b : pyval) : Num.div a b <> Timeout.
Proof.
  destruct a as [|x|f], b as [|y|g]; cbn [Num.div]; try discriminate;
    try (apply bind_no_timeout; [apply div_Z_no_timeout|intros ?; discriminate]);
    (apply bind_no_timeout; [apply as_float_no_timeout|intros ?]);
    (apply bind_no_timeout; [apply as_float_no_timeout|intros ?]);
    destruct (PrimFloat.eqb _ 0); discriminate.
Qed.

Lemma quadratic_points_no_timeout (x1 y1 x2 y2 x3 y3 : pyval) :
  quadratic_points x1 y1 x2 y2 x3 y3 <> Timeout.
Proof.
  unfold quadratic_points.
  assert (B : forall a b,
             (a2 <- Num.mul a (VInt 2) ;; a23 <- Num.div a2 (VInt 3) ;;
              b3 <- Num.div b (VInt 3) ;; Num.add a23 b3)%res <> Timeout).
  { intros a b.
    apply bind_no_timeout; [apply arith_no_timeout|intros ?].
    apply bind_no_timeout; [apply div_no_timeout|intros ?].
    apply bind_no_timeout; [apply div_no_timeout|intros ?].
    apply arith_no_timeout. }
  cbv zeta.
  repeat (apply bind_no_timeout; [apply B|intros ?]). discriminate.
Qed.

Lemma quadratic_loop_finishes (fuel : nat) curve (s : string) (L : locals) :
  (forall a b c d e g, finishes (curve a b c d e g)) ->
  (String.length s <= fuel)%nat ->
  finishes (quadratic_loop fuel curve s L).
Proof.
  intros Hc. revert s L. induction fuel as [|fuel IH]; intros s L H.
  - destruct s; [|simpl in H; lia]. apply finishes_ret.
  - cbn [quadratic_loop]. destruct (Str.truthy s) eqn:E; [|apply finishes_ret].
    cbn [negb]. intros st. unfold bindM at 1. unfold lift at 1.
    destruct (point s) as [[[a b] s1]| |] eqn:E1;
      [|discriminate|exfalso; exact (point_no_timeout _ E1)].
    assert (H1 := point_consumes _ _ _ _ E E1).
    unfold bindM at 1. unfold lift at 1.
    destruct (point s1) as [[[c d] s2]| |] eqn:E2;
      [|discriminate|exfalso; exact (point_no_timeout _ E2)].
    assert (H2 := point_not_longer _ _ _ _ E2).
    cbv zeta.
    apply finishes_bind.
    + apply finishes_lift.
      apply bind_no_timeout; [destruct (x1 _); discriminate|intros ?].
      apply bind_no_timeout; [destruct (y1 _); discriminate|intros ?].
      apply quadratic_points_no_timeout.
    + intros [[[[[xq1 yq1] xq2] yq2] xq3] yq3].
      apply finishes_bind; [apply Hc|intros _]. apply IH. lia.
Qed.

(** X19: the loops of the commands [q] and [Q] ([while string:], two points a
    round) terminate on every text: each round hands on a shorter
    text. *)
Theorem quadratic_loop_terminates (s : string) (L : locals) :
  finishes (quadratic_loop (String.length s) rel_curve_to s L) /\
  finishes (quadratic_loop (String.length s) curve_to s L).
Proof.
  split; apply quadratic_loop_finishes; try apply Nat.le_refl;
    intros a b c d e g; apply finishes_call6.
Qed.

(** *** Divisions *)

Lemma nzd_bind {A B : Type} (m : res A) (f : A -> res B) :
  no_zero_division m -> (forall x, m = Ok x -> no_zero_division (f x)) -> no_zero_division (bind m f).
Proof.
  unfold no_zero_division. intros Hm Hf. destruct m as [x|e|]; simpl.
  - apply Hf. reflexivity.
  - intros H. apply Hm. injection H as ->. reflexivity.
  - discriminate.
Qed.

Lemma nzd_of_Z (z : Z) : no_zero_division (Num.of_Z z).
Proof. unfold no_zero_division, Num.of_Z. destruct (Num.is_inf _); discriminate. Qed.

Lemma nzd_as_float (v : pyval) : no_zero_division (Num.as_float v).
Proof. destruct v; try discriminate. apply nzd_of_Z. Qed.

Lemma nzd_arith fz ff (a b : pyval) : no_zero_division (Num.arith fz ff a b).
Proof.
  destruct a as [|x|f], b as [|y|g]; cbn [Num.arith]; try discriminate;
    (apply nzd_bind; [apply nzd_as_float|intros ? _]);
    (apply nzd_bind; [apply nzd_as_float|intros ? _]);
    discriminate.
Qed.

Lemma nzd_lt (a b : pyval) : no_zero_division (Num.lt a b).
Proof.
  destruct a as [|x|f], b as [|y|g]; cbn [Num.lt]; try discriminate;
    (apply nzd_bind; [apply nzd_as_float|intros ? _]);
    (apply nzd_bind; [apply nzd_as_float|intros ? _]);
    discriminate.
Qed.

Lemma nzd_neg (a : pyval) : no_zero_division (Num.neg a).
Proof. destruct a; discriminate. Qed.

Lemma nzd_max (a b : pyval) : no_zero_division (Num.max a b).
Proof.
  unfold Num.max, Num.gt.
  apply nzd_bind; [apply nzd_lt|intros ? _; discriminate].
Qed.

Lemma nzd_math1 (fn : float -> float) (v : pyval) : no_zero_division (math1 fn v).
Proof.
  unfold math1. apply nzd_bind; [apply nzd_as_float|intros x _].
  cbv zeta. destruct (_ || _); discriminate.
Qed.

(** A division by a number that is not zero. *)
Lemma nzd_div (a b : pyval) :
  Num.truthy b = true ->
  (forall z, b = VInt z -> exists x, a = VInt x) ->
  no_zero_division (Num.div a b).
Proof.
  intros Hb Hi. destruct b as [|y|g]; [discriminate Hb| |].
  - destruct (Hi y eq_refl) as [x ->]. cbn [Num.div].
    apply nzd_bind; [|intros ? _; discriminate].
    unfold no_zero_division, Num.div_Z. simpl in Hb. apply negb_true_iff in Hb.
    rewrite Hb. destruct (Z.abs x); try discriminate;
      destruct (Num.is_inf _); discriminate.
  - simpl in Hb. apply negb_true_iff in Hb.
    destruct a as [|x|f]; cbn [Num.div Num.as_float]; try discriminate.
    + apply nzd_bind; [apply nzd_of_Z|intros ? _].
      cbn [bind]. rewrite Hb. discriminate.
    + cbn [bind]. rewrite Hb. discriminate.
Qed.

Lemma nzd_div_const (a : pyval) (k : Z) :
  match Num.of_Z k with
  | Ok g => negb (PrimFloat.eqb g 0)
  | _ => false
  end = true ->
  (k <> 0)%Z -> no_zero_division (Num.div a (VInt k)).
Proof.
  intros Hk Hz. destruct a as [|x|f]; cbn [Num.div Num.as_float];
    try discriminate.
  - apply nzd_bind; [|intros ? _; discriminate].
    unfold no_zero_division, Num.div_Z. apply Z.eqb_neq in Hz. rewrite Hz.
    destruct (Z.abs x); try discriminate;
      destruct (Num.is_inf _); discriminate.
  - cbn [bind]. destruct (Num.of_Z k) as [g| |]; try discriminate Hk.
    cbn [bind]. apply negb_true_iff in Hk. rewrite Hk. discriminate.
Qed.

Section Division.

Variables cos sin atan : float -> float.
Variable pow : float -> float -> float.
Variable get_current_point : list Ctx.op -> float * float.

Lemma nzd_point_angle (cx cy px py : pyval) :
  no_zero_division (point_angle atan cx cy px py).
Proof.
  unfold point_angle, Num.gt.
  apply nzd_bind; [apply nzd_lt|intros g _]. cbv zeta.
  apply nzd_bind; [apply nzd_lt|intros g' _].
  apply nzd_bind; [apply nzd_arith|intros angle _].
  apply nzd_bind; [apply nzd_arith|intros d Ed].
  apply nzd_bind; [|intros t _].
  - destruct (Num.truthy d) eqn:Et; [|discriminate].
    apply nzd_bind; [apply nzd_arith|intros a _].
    apply nzd_bind; [apply nzd_arith|intros d' Ed'].
    rewrite Ed in Ed'. injection Ed' as <-.
    apply nzd_bind; [|intros q _; apply nzd_arith].
    apply nzd_div; [exact Et|]. intros z _. exists 1%Z. reflexivity.
  - apply nzd_bind; [apply nzd_math1|intros at_ _].
    apply nzd_arith.
Qed.

(** X23: [point_angle] never divides by zero: the quotient [1 / (cx - px)] is
    taken only when the difference is not zero (the vertical direction
    gets the arc tangent of infinity). *)
Theorem point_angle_no_zero_division (cx cy px py : pyval) :
  no_zero_division (point_angle atan cx cy px py).
Proof. apply nzd_point_angle. Qed.

End Division.

Lemma nzd_float (s : string) : no_zero_division (Parse.float s).
Proof.
  unfold no_zero_division. destruct (float_shape s) as [[f ->]| ->]; discriminate.
Qed.

Lemma nzd_int (s : string) : no_zero_division (Parse.int s).
Proof.
  unfold no_zero_division, Parse.int. destruct (Parse.take_sign _) as [neg body].
  destruct (Parse.scan_digits _ _ _ _ body) as [[z [|n]] [|c r]]; discriminate.
Qed.

Lemma nzd_size (v : option string) : no_zero_division (size v).
Proof.
  unfold no_zero_division. assert (H := size_outcome v).
  destruct v as [[|c s]|]; try (rewrite H; discriminate).
  intros E. rewrite E in H. destruct H as [H|H]; discriminate H.
Qed.

Lemma nzd_point (s : string) : no_zero_division (point s).
Proof.
  unfold point. destruct (negb (Str.truthy s)); [discriminate|].
  apply nzd_bind.
  - destruct (Str.split_n " " 2 (Str.strip s ++ " ")) as [|a [|b [|c [|d l]]]];
      discriminate.
  - intros [[x y] rest] _.
    apply nzd_bind; [apply nzd_size|intros vx _].
    apply nzd_bind; [apply nzd_size|intros vy _]. discriminate.
Qed.

Lemma mnzd_ret {A : Type} (x : A) : never_divides_by_zero (ret x).
Proof. intros st. discriminate. Qed.

Lemma mnzd_lift {A : Type} (r : res A) : no_zero_division r -> never_divides_by_zero (lift r).
Proof. intros H st. exact H. Qed.

Lemma mnzd_bind {A B : Type} (m : M A) (f : A -> M B) :
  never_divides_by_zero m -> (forall x, never_divides_by_zero (f x)) -> never_divides_by_zero (bindM m f).
Proof.
  intros Hm Hf st. unfold bindM. generalize (Hm st).
  destruct (m st) as [[x|e|] st1]; simpl; intros H.
  - apply Hf.
  - intros E. apply H. injection E as ->. reflexivity.
  - discriminate.
Qed.

Lemma mnzd_lift_bind {A B : Type} (r : res A) (f : A -> M B) :
  no_zero_division r -> (forall x, r = Ok x -> never_divides_by_zero (f x)) ->
  never_divides_by_zero (bindM (lift r) f).
Proof.
  intros Hr Hf st. unfold bindM, lift. destruct r as [x|e|]; simpl.
  - apply Hf. reflexivity.
  - intros E. apply Hr. injection E as ->. reflexivity.
  - discriminate.
Qed.

Lemma mnzd_call (o : Ctx.op) : never_divides_by_zero (call o).
Proof. intros st. discriminate. Qed.

Lemma mnzd_call2 f (a b : pyval) : never_divides_by_zero (call2 f a b).
Proof.
  unfold call2.
  repeat (apply mnzd_bind;
          [apply mnzd_lift, nzd_as_float|intros ?]).
  apply mnzd_call.
Qed.

Lemma mnzd_call5 f (a b c d e : pyval) : never_divides_by_zero (call5 f a b c d e).
Proof.
  unfold call5.
  repeat (apply mnzd_bind;
          [apply mnzd_lift, nzd_as_float|intros ?]).
  apply mnzd_call.
Qed.

Section ArcDivision.

Variables cos sin atan : float -> float.
Variable pow : float -> float -> float.
Variable get_current_point : list Ctx.op -> float * float.

Lemma nzd_rotate (x y angle : pyval) : no_zero_division (rotate cos sin x y angle).
Proof.
  unfold rotate.
  repeat first [ apply nzd_bind;
                 [first [apply nzd_math1 | apply nzd_arith]|intros ? _]
               | discriminate ].
Qed.

Lemma nzd_pow2 (v : pyval) : no_zero_division (pow2 pow v).
Proof.
  destruct v; cbn [pow2]; try discriminate. cbv zeta.
  destruct (_ && _); discriminate.
Qed.

Lemma nzd_pow_half (v : pyval) : no_zero_division (pow_half pow v).
Proof.
  unfold pow_half. apply nzd_bind; [apply nzd_as_float|intros x _].
  destruct (_ && _); discriminate.
Qed.

Lemma nzd_half (v : pyval) : no_zero_division (Num.div v (VInt 2)).
Proof. apply nzd_div_const; [reflexivity|discriminate]. Qed.

Ltac nzd_steps Hr :=
  lazymatch goal with
  | |- no_zero_division (bind _ _) =>
      apply nzd_bind; [nzd_steps Hr|intros ? _; nzd_steps Hr]
  | |- no_zero_division (Ok _) => discriminate
  | |- no_zero_division (Num.div _ (VInt 2)) => apply nzd_half
  | |- no_zero_division (Num.div _ (VFloat _)) =>
      apply nzd_div; [simpl; rewrite Hr; reflexivity|discriminate]
  | |- no_zero_division (match ?p with _ => _ end) => destruct p; nzd_steps Hr
  | |- _ =>
      first [ apply nzd_math1 | apply nzd_arith | apply nzd_neg
            | apply nzd_rotate | apply nzd_pow2
            | apply nzd_pow_half | apply nzd_max
            | apply nzd_point_angle ]
  end.

Lemma nzd_arc_center (rx rotation x3 y3 : pyval) (ratio : float)
      (large sweep : bool) :
  PrimFloat.eqb ratio 0 = false ->
  no_zero_division (arc_center cos sin atan pow rx (VFloat ratio) rotation
                      large sweep x3 y3).
Proof.
  intros Hr. unfold arc_center, arc_chord, arc_radius. nzd_steps Hr.
Qed.

(** X24: the converse for arcs: when [rx] is not zero and the ratio [ry / rx]
    is not zero, the arc branch does not raise [ZeroDivisionError],
    whatever the operands.  Only a zero radius makes it do so. *)
Theorem arc_no_zero_division (s : string) (L : locals) (st : surface)
        (rx ry : pyval) (rest : string) (ratio : float) :
  point s = Ok (rx, ry, rest) ->
  Num.div ry rx = Ok (VFloat ratio) ->
  PrimFloat.eqb ratio 0 = false ->
  no_zero_division (fst (path_arc cos sin atan pow get_current_point s L st)).
Proof.
  intros E1 E2 Hr. revert st.
  change (never_divides_by_zero (path_arc cos sin atan pow get_current_point s L)).
  unfold path_arc, current_point.
  apply mnzd_bind; [intros st; discriminate|intros here]. cbv zeta.
  rewrite E1.
  apply mnzd_lift_bind; [discriminate|intros p Ep]. injection Ep as <-.
  rewrite E2.
  apply mnzd_lift_bind; [discriminate|intros r Er]. injection Er as <-.
  apply mnzd_lift_bind;
    [destruct (Str.split_n " " 3 rest) as [|? [|? [|? [|? [|? ?]]]]];
     discriminate|intros [[[rotation large] sweep] s2] _].
  apply mnzd_lift_bind;
    [apply nzd_bind; [apply nzd_float|intros ? _; discriminate]
    |intros rotation' _].
  apply mnzd_lift_bind;
    [apply nzd_bind; [apply nzd_int|intros ? _; discriminate]
    |intros large' _].
  apply mnzd_lift_bind;
    [apply nzd_bind; [apply nzd_int|intros ? _; discriminate]
    |intros sweep' _].
  apply mnzd_lift_bind; [apply nzd_point|intros [[ex ey] s3] _].
  apply mnzd_bind.
  { destruct (String.eqb (letter L) "A"); [|apply mnzd_ret].
    apply mnzd_lift_bind; [apply nzd_arith|intros ? _].
    apply mnzd_lift_bind; [apply nzd_arith|intros ? _].
    apply mnzd_ret. }
  intros [ex' ey'].
  apply mnzd_lift_bind;
    [apply nzd_arc_center; exact Hr
    |intros [[[[xc yc] rx'] angle1] angle2] _].
  apply mnzd_bind; [apply mnzd_call|intros _].
  apply mnzd_bind; [apply mnzd_call|intros _].
  apply mnzd_bind; [apply mnzd_call|intros _].
  apply mnzd_bind; [apply mnzd_call2|intros _].
  apply mnzd_bind;
    [destruct sweep'; apply mnzd_call5|intros _].
  apply mnzd_bind; [apply mnzd_call|intros _].
  apply mnzd_ret.
Qed.

End ArcDivision.

Lemma arc_no_zero_division_witness :
  no_zero_division (fst (path_arc Exact.cos Exact.sin Exact.atan Exact.pow
                         (fun _ => (0, 0)%float) "1 1 0 0 1 4 0 "
                         path_locals fresh_surface)).
Proof.
  apply (arc_no_zero_division Exact.cos Exact.sin Exact.atan Exact.pow
           (fun _ => (0, 0)%float) "1 1 0 0 1 4 0 " path_locals fresh_surface
           (VFloat 1) (VFloat 1) "0 0 1 4 0 " 1%float); reflexivity.
Defined.

(** *** The forms [rgb(...)] and [rgba(...)] *)

Lemma all_chars_app (p : ascii -> bool) (a b : string) :
  Str.all_chars p (a ++ b) = Str.all_chars p a && Str.all_chars p b.
Proof.
  induction a as [|c a IH]; [reflexivity|].
  simpl. rewrite IH. apply andb_assoc.
Qed.

Lemma all_chars_weaken (p q : ascii -> bool) (s : string) :
  (forall c, p c = true -> q c = true) ->
  Str.all_chars p s = true -> Str.all_chars q s = true.
Proof.
  intros H. induction s as [|c s IH]; [reflexivity|].
  simpl. intros E. apply andb_prop in E. destruct E as [E1 E2].
  rewrite (H c E1), (IH E2). reflexivity.
Qed.

Lemma lower_fixed (s : string) :
  Str.all_chars (fun c => Ascii.eqb (Str.lower_char c) c) s = true ->
  Str.lower s = s.
Proof.
  induction s as [|c s IH]; [reflexivity|].
  simpl. intros E. apply andb_prop in E. destruct E as [E1 E2].
  rewrite lower_cons. apply Ascii.eqb_eq in E1. rewrite E1, (IH E2).
  reflexivity.
Qed.

Lemma lstrip_none (p : ascii -> bool) (s : string) :
  match s with "" => True | String c _ => p c = false end ->
  Str.lstrip_by p s = s.
Proof. destruct s as [|c s]; [reflexivity|]. simpl. intros ->. reflexivity. Qed.

Lemma rstrip_none (p : ascii -> bool) (s : string) :
  Str.all_chars (fun c => negb (p c)) s = true -> Str.rstrip_by p s = s.
Proof.
  induction s as [|c s IH]; [reflexivity|].
  simpl. intros E. apply andb_prop in E. destruct E as [E1 E2].
  rewrite (IH E2). apply negb_true_iff in E1. rewrite E1.
  destruct s; reflexivity.
Qed.

Lemma rstrip_app (p : ascii -> bool) (a b : string) :
  Str.rstrip_by p (a ++ b)
  = match Str.rstrip_by p b with
    | "" => Str.rstrip_by p a
    | r => a ++ r
    end.
Proof.
  induction a as [|x a IH].
  - simpl. destruct (Str.rstrip_by p b); reflexivity.
  - change (String x a ++ b) with (String x (a ++ b)).
    cbn [Str.rstrip_by]. rewrite IH.
    destruct (Str.rstrip_by p b) as [|y r]; [reflexivity|].
    destruct a; reflexivity.
Qed.

Lemma find_first (c : ascii) (a b : string) :
  Str.mem_char c a = false ->
  Str.find (String c "") (a ++ String c b) = Some (a, b).
Proof.
  intros Ha. induction a as [|d a IH].
  - simpl. rewrite Ascii.eqb_refl. reflexivity.
  - cbn [Str.mem_char] in Ha. apply orb_false_elim in Ha.
    destruct Ha as [Hc Ha].
    change (String d a ++ String c b) with (String d (a ++ String c b)).
    rewrite find_char, Hc, (IH Ha). reflexivity.
Qed.

Lemma operand_no_char (c : ascii) (s : string) :
  Str.mem_char c " rgba()," = true ->
  Str.all_chars operand_char s = true -> Str.mem_char c s = false.
Proof.
  intros Hc. induction s as [|d s IH]; [reflexivity|].
  simpl. intros E. apply andb_prop in E. destruct E as [E1 E2].
  rewrite (IH E2), orb_false_r.
  destruct (Ascii.eqb c d) eqn:E; [|reflexivity].
  apply Ascii.eqb_eq in E. subst d. unfold operand_char in E1.
  rewrite Hc in E1. rewrite andb_false_r in E1. discriminate E1.
Qed.

Lemma operand_inv (s : string) :
  operand s = true ->
  Str.truthy s = true /\ Str.all_chars operand_char s = true.
Proof. intros H. apply andb_prop in H. exact H. Qed.

(** The operands between the parentheses, once the text is stripped of
    the characters of [chars] at both ends. *)
Lemma strip_chars_operands (chars name inner : string) :
  (forall c, Str.mem_char c chars = true -> Str.mem_char c " rgba()," = true) ->
  Str.all_chars (fun c => Str.mem_char c chars) (name ++ "(") = true ->
  Str.mem_char ")" chars = true ->
  match inner with "" => False | String c _ => operand_char c = true end ->
  (exists init last, inner = init ++ last /\ operand last = true) ->
  Str.strip_chars chars (name ++ "(" ++ inner ++ ")") = inner.
Proof.
  intros Hsub Hname Hclose Hfirst (init & last & -> & Hlast).
  assert (Hout : forall c, operand_char c = true -> Str.mem_char c chars = false).
  { intros c Hc. destruct (Str.mem_char c chars) eqn:E; [|reflexivity].
    unfold operand_char in Hc. rewrite (Hsub c E) in Hc.
    rewrite andb_false_r in Hc. discriminate Hc. }
  unfold Str.strip_chars, Str.strip_by.
  rewrite <- append_assoc.
  assert (L : forall pre rest,
             Str.all_chars (fun c => Str.mem_char c chars) pre = true ->
             Str.lstrip_by (fun c => Str.mem_char c chars) (pre ++ rest)
             = Str.lstrip_by (fun c => Str.mem_char c chars) rest).
  { intros pre rest. induction pre as [|c pre IH]; [reflexivity|].
    simpl. intros E. apply andb_prop in E. destruct E as [E1 E2].
    rewrite E1. exact (IH E2). }
  rewrite (L _ _ Hname).
  rewrite lstrip_none.
  2:{ destruct (init ++ last) as [|c r]; [contradiction|].
      simpl. apply Hout. exact Hfirst. }
  rewrite append_assoc, rstrip_app.
  destruct (operand_inv _ Hlast) as [Ht Ha].
  assert (R : Str.rstrip_by (fun c => Str.mem_char c chars) (last ++ ")") = last).
  { rewrite rstrip_app. simpl. rewrite Hclose.
    apply rstrip_none.
    apply (all_chars_weaken operand_char); [|exact Ha].
    intros c Hc. rewrite (Hout c Hc). reflexivity. }
  rewrite R. destruct last; [discriminate Ht|reflexivity].
Qed.

Lemma split_last_operand (k : nat) (c : string) :
  Str.all_chars operand_char c = true -> Str.split_n "," k c = [c].
Proof.
  intros H. destruct k; [reflexivity|]. cbn [Str.split_n].
  rewrite (find_none_mem "," c (operand_no_char "," _ eq_refl H)). reflexivity.
Qed.

Lemma split_next_operand (k : nat) (a rest : string) :
  Str.all_chars operand_char a = true ->
  Str.split_n "," (S k) (a ++ "," ++ rest) = a :: Str.split_n "," k rest.
Proof.
  intros H. cbn [Str.split_n].
  change ("," ++ rest) with (String "," rest).
  rewrite (find_first "," a rest (operand_no_char "," _ eq_refl H)). reflexivity.
Qed.

Lemma chars_rgb (c : ascii) :
  Str.mem_char c " rgb()" = true -> Str.mem_char c " rgba()," = true.
Proof.
  cbn [Str.mem_char]. intros H.
  repeat (apply orb_prop in H; destruct H as [H|H]);
    try (apply Ascii.eqb_eq in H; subst c; reflexivity).
  discriminate H.
Qed.

Lemma chars_rgba (c : ascii) :
  Str.mem_char c " rgba()" = true -> Str.mem_char c " rgba()," = true.
Proof.
  cbn [Str.mem_char]. intros H.
  repeat (apply orb_prop in H; destruct H as [H|H]);
    try (apply Ascii.eqb_eq in H; subst c; reflexivity).
  discriminate H.
Qed.

Lemma operand_fixed (s : string) :
  Str.all_chars operand_char s = true ->
  Str.all_chars (fun c => Ascii.eqb (Str.lower_char c) c) s = true.
Proof.
  apply all_chars_weaken. intros c H. unfold operand_char in H.
  apply andb_prop in H. apply H.
Qed.

Lemma operand_first (a rest : string) :
  operand a = true ->
  match a ++ rest with "" => False | String c _ => operand_char c = true end.
Proof.
  intros H. destruct (operand_inv _ H) as [Ht Ha].
  destruct a as [|c a]; [discriminate Ht|].
  simpl in Ha. apply andb_prop in Ha. apply Ha.
Qed.

(** The text of a functional form, which [strip] and [lower] leave as it
    is. *)
Lemma functional_form_fixed (name inner : string) :
  Str.all_chars (fun c => Ascii.eqb (Str.lower_char c) c) (name ++ "(" ++ inner)
  = true ->
  match name with "" => False | String c _ => Str.isspace c = false end ->
  Str.lower (Str.strip (name ++ "(" ++ inner ++ ")")) = name ++ "(" ++ inner ++ ")".
Proof.
  intros Hl Hn.
  assert (Hs : Str.strip (name ++ "(" ++ inner ++ ")") = name ++ "(" ++ inner ++ ")").
  { unfold Str.strip, Str.strip_by. rewrite lstrip_none.
    - rewrite <- !append_assoc, rstrip_app. reflexivity.
    - destruct name; [contradiction|exact Hn]. }
  rewrite Hs. apply lower_fixed.
  rewrite <- !append_assoc, all_chars_app, append_assoc, Hl. reflexivity.
Qed.

(** X11: the functional forms: the channels of [rgb(r,g,b)] are the numbers as
    written, as floats: they are not divided by 255, unlike the channels
    of the hexadecimal forms (so [rgb(255,0,0)] has the red channel
    255.0); the alpha of [rgba(r,g,b,a)] is [a] times the opacity. *)
Theorem color_functional_forms (COLORS : Dict.t) (a b c al : string)
        (r g bl alpha : float) (opacity : pyval) :
  operand a = true -> operand b = true -> operand c = true ->
  operand al = true ->
  Parse.float a = Ok r -> Parse.float b = Ok g -> Parse.float c = Ok bl ->
  Parse.float al = Ok alpha ->
  color COLORS (Some ("rgb(" ++ a ++ "," ++ b ++ "," ++ c ++ ")")) opacity
  = Ok (VFloat r, VFloat g, VFloat bl, opacity) /\
  color COLORS (Some ("rgba(" ++ a ++ "," ++ b ++ "," ++ c ++ "," ++ al ++ ")"))
        opacity
  = (a' <- Num.mul (VFloat alpha) opacity ;;
     Ok (VFloat r, VFloat g, VFloat bl, a'))%res.
Proof.
  intros Ha Hb Hc Hal Er Eg Eb Ealpha.
  destruct (operand_inv _ Ha) as [_ Ha'].
  destruct (operand_inv _ Hb) as [_ Hb'].
  destruct (operand_inv _ Hc) as [_ Hc'].
  destruct (operand_inv _ Hal) as [_ Hal'].
  split.
  - set (inner := a ++ "," ++ b ++ "," ++ c).
    assert (Hf : Str.lower (Str.strip ("rgb" ++ "(" ++ inner ++ ")"))
                 = "rgb" ++ "(" ++ inner ++ ")").
    { apply functional_form_fixed; [|reflexivity]. subst inner.
      change ("rgb" ++ "(" ++ a ++ "," ++ b ++ "," ++ c)
        with ("rgb(" ++ a ++ "," ++ b ++ "," ++ c).
      rewrite !all_chars_app, (operand_fixed _ Ha'), (operand_fixed _ Hb'),
        (operand_fixed _ Hc'). reflexivity. }
    assert (Hs : Str.strip_chars " rgb()" ("rgb" ++ "(" ++ inner ++ ")") = inner).
    { apply strip_chars_operands;
        [exact chars_rgb|reflexivity|reflexivity| |].
      - subst inner. apply operand_first. exact Ha.
      - exists (a ++ "," ++ b ++ ","), c. split; [|exact Hc].
        subst inner. rewrite !append_assoc. reflexivity. }
    assert (Hp : Str.split "," inner = [a; b; c]).
    { unfold Str.split. subst inner.
      assert (Hl : (2 <= String.length (a ++ "," ++ b ++ "," ++ c))%nat).
      { rewrite !length_app. simpl. lia. }
      destruct (String.length (a ++ "," ++ b ++ "," ++ c)) as [|[|k]];
        [lia|lia|].
      rewrite (split_next_operand _ a _ Ha'), (split_next_operand _ b _ Hb'),
        (split_last_operand _ c Hc'). reflexivity. }
    replace ("rgb(" ++ a ++ "," ++ b ++ "," ++ c ++ ")")
      with ("rgb" ++ "(" ++ inner ++ ")")
      by (subst inner; rewrite !append_assoc; reflexivity).
    unfold color. rewrite Hf.
    change (negb (Str.truthy ("rgb" ++ "(" ++ inner ++ ")"))
            || String.eqb ("rgb" ++ "(" ++ inner ++ ")") "none") with false.
    change (Str.startswith "rgba" ("rgb" ++ "(" ++ inner ++ ")")) with false.
    change (Str.startswith "rgb" ("rgb" ++ "(" ++ inner ++ ")")) with true.
    cbv iota. unfold float_tuple. rewrite Hs, Hp.
    cbn [mapM]. rewrite Er, Eg, Eb. reflexivity.
  - set (inner := a ++ "," ++ b ++ "," ++ c ++ "," ++ al).
    assert (Hf : Str.lower (Str.strip ("rgba" ++ "(" ++ inner ++ ")"))
                 = "rgba" ++ "(" ++ inner ++ ")").
    { apply functional_form_fixed; [|reflexivity]. subst inner.
      change ("rgba" ++ "(" ++ a ++ "," ++ b ++ "," ++ c ++ "," ++ al)
        with ("rgba(" ++ a ++ "," ++ b ++ "," ++ c ++ "," ++ al).
      rewrite !all_chars_app, (operand_fixed _ Ha'), (operand_fixed _ Hb'),
        (operand_fixed _ Hc'), (operand_fixed _ Hal'). reflexivity. }
    assert (Hs : Str.strip_chars " rgba()" ("rgba" ++ "(" ++ inner ++ ")") = inner).
    { apply strip_chars_operands;
        [exact chars_rgba|reflexivity|reflexivity| |].
      - subst inner. apply operand_first. exact Ha.
      - exists (a ++ "," ++ b ++ "," ++ c ++ ","), al. split; [|exact Hal].
        subst inner. rewrite !append_assoc. reflexivity. }
    assert (Hp : Str.split "," inner = [a; b; c; al]).
    { unfold Str.split. subst inner.
      assert (Hl : (3 <= String.length
                          (a ++ "," ++ b ++ "," ++ c ++ "," ++ al))%nat).
      { rewrite !length_app. simpl. lia. }
      destruct (String.length (a ++ "," ++ b ++ "," ++ c ++ "," ++ al))
        as [|[|[|k]]]; [lia|lia|lia|].
      rewrite (split_next_operand _ a _ Ha'), (split_next_operand _ b _ Hb'),
        (split_next_operand _ c _ Hc'), (split_last_operand _ al Hal').
      reflexivity. }
    replace ("rgba(" ++ a ++ "," ++ b ++ "," ++ c ++ "," ++ al ++ ")")
      with ("rgba" ++ "(" ++ inner ++ ")")
      by (subst inner; rewrite !append_assoc; reflexivity).
    unfold color. rewrite Hf.
    change (negb (Str.truthy ("rgba" ++ "(" ++ inner ++ ")"))
            || String.eqb ("rgba" ++ "(" ++ inner ++ ")") "none") with false.
    change (Str.startswith "rgba" ("rgba" ++ "(" ++ inner ++ ")")) with true.
    cbv iota. unfold float_tuple. rewrite Hs, Hp.
    cbn [mapM]. rewrite Er, Eg, Eb, Ealpha. reflexivity.
Qed.

Lemma color_functional_forms_witness :
  color [] (Some "rgb(255,0,0)") (VInt 1)
  = Ok (VFloat 255, VFloat 0, VFloat 0, VInt 1) /\
  color [] (Some "rgba(255,0,0,0.5)") (VFloat 0.5)
  = Ok (VFloat 255, VFloat 0, VFloat 0, VFloat 0.25).
Proof.
  split.
  - apply (proj1 (color_functional_forms [] "255" "0" "0" "0.5"
                    255 0 0 0.5 (VInt 1)
                    eq_refl eq_refl eq_refl eq_refl
                    eq_refl eq_refl eq_refl eq_refl)).
  - apply (proj2 (color_functional_forms [] "255" "0" "0" "0.5"
                    255 0 0 0.5 (VFloat 0.5)
                    eq_refl eq_refl eq_refl eq_refl
                    eq_refl eq_refl eq_refl eq_refl)).
Defined.

(** *** Numerals with a unit *)

Lemma digits_inv (d : string) :
  digits d = true -> Str.truthy d = true /\ Str.all_chars Str.isdecimal d = true.
Proof. intros H. apply andb_prop in H. exact H. Qed.

Lemma startswith_digit (u d : string) (c : ascii) :
  Str.truthy u = true -> unit_text u = true -> Str.isdecimal c = true ->
  Str.startswith u (String c d) = false.
Proof.
  intros Hu Ht Hc. destruct u as [|x u]; [discriminate Hu|].
  cbn [Str.startswith]. destruct (Ascii.eqb x c) eqn:E; [|reflexivity].
  apply Ascii.eqb_eq in E. subst x. unfold unit_text in Ht. simpl in Ht.
  unfold Str.isdigit_char in Ht. rewrite Hc in Ht. discriminate Ht.
Qed.

(** A unit occurs in a numeral followed by a text just when it occurs in
    the text. *)
Lemma contains_after_digits (u d w : string) :
  Str.truthy u = true -> unit_text u = true ->
  Str.all_chars Str.isdecimal d = true ->
  Str.contains u (d ++ w) = Str.contains u w.
Proof.
  intros Hu Ht. unfold Str.contains.
  induction d as [|c d IH]; intros Hd; [reflexivity|].
  simpl in Hd. apply andb_prop in Hd. destruct Hd as [Hc Hd].
  change (String c d ++ w) with (String c (d ++ w)). cbn [Str.find].
  change (String c (d ++ w)) with (String c d ++ w) at 1.
  change (String c d ++ w) with (String c (d ++ w)).
  rewrite (startswith_digit u (d ++ w) c Hu Ht Hc).
  specialize (IH Hd).
  destruct (Str.find u (d ++ w)) as [[a b]|]; exact IH.
Qed.

Lemma decimal_isdigit (c : ascii) :
  Str.isdecimal c = true -> Str.isdigit_char c = true.
Proof. unfold Str.isdigit_char. intros ->. reflexivity. Qed.

Lemma decimal_plain (c : ascii) :
  Str.isdecimal c = true -> Str.mem_char c ". -" = false.
Proof. each_char c; intros _; reflexivity. Qed.

Lemma decimal_no_sign (c : ascii) :
  Str.isdecimal c = true -> Str.mem_char c " -" = false.
Proof. each_char c; intros _; reflexivity. Qed.

Lemma take_sign_digit (c : ascii) (s : string) :
  Str.isdecimal c = true -> Parse.take_sign (String c s) = (false, String c s).
Proof. each_char c; intros _; reflexivity. Qed.

Lemma digit_no_name (c : ascii) (s : string) :
  Str.isdecimal c = true ->
  String.eqb (Str.lower (String c s)) "inf"
  || String.eqb (Str.lower (String c s)) "infinity" = false /\
  String.eqb (Str.lower (String c s)) "nan" = false.
Proof. each_char c; intros _; split; reflexivity. Qed.

Lemma scan_all_digits (d : string) (acc : Z) (n : nat) :
  Str.all_chars Str.isdecimal d = true ->
  exists m, Parse.scan_digits Parse.decimal_digit 10 acc n d
            = (m, (n + String.length d)%nat, "").
Proof.
  revert acc n. induction d as [|c d IH]; intros acc n H.
  - exists acc. simpl. rewrite Nat.add_0_r. reflexivity.
  - simpl in H. apply andb_prop in H. destruct H as [Hc Hd].
    cbn [Parse.scan_digits]. unfold Parse.decimal_digit at 1. rewrite Hc.
    destruct (IH (acc * 10 + Parse.digit_value c)%Z (S n) Hd) as [m ->].
    exists m. simpl. rewrite Nat.add_succ_r. reflexivity.
Qed.

Lemma decimal_not_blank (c : ascii) :
  Str.isdecimal c = true -> Parse.blank c = false.
Proof. each_char c; intros _; reflexivity. Qed.

Lemma blank_strip_digits (d : string) :
  Str.all_chars Str.isdecimal d = true -> Parse.strip d = d.
Proof.
  intros H. unfold Parse.strip, Str.strip_by.
  rewrite lstrip_none.
  - apply rstrip_none. apply (all_chars_weaken Str.isdecimal); [|exact H].
    intros c Hc. rewrite (decimal_not_blank c Hc). reflexivity.
  - destruct d as [|c d]; [exact I|]. simpl in H. apply andb_prop in H.
    apply decimal_not_blank, H.
Qed.

(** [float] accepts every string of digits. *)
Lemma float_digits (d : string) :
  digits d = true -> exists v, Parse.float d = Ok v.
Proof.
  intros H. destruct (digits_inv _ H) as [Ht Hd].
  unfold Parse.float. rewrite (blank_strip_digits d Hd).
  destruct d as [|c d]; [discriminate Ht|].
  assert (Hc : Str.isdecimal c = true).
  { simpl in Hd. apply andb_prop in Hd. apply Hd. }
  rewrite (take_sign_digit c d Hc).
  destruct (digit_no_name c d Hc) as [-> ->].
  destruct (scan_all_digits (String c d) 0 0 Hd) as [m ->].
  cbn [Nat.add String.length Parse.exponent]. eexists. reflexivity.
Qed.

Lemma no_dot_replace (s : string) :
  Str.mem_char "." s = false -> Str.replace_n "." "" 1 s = s.
Proof. intros H. cbn [Str.replace_n]. rewrite (find_none_mem _ _ H). reflexivity. Qed.

Lemma digits_no_char (c : ascii) (d : string) :
  Str.mem_char c ". -" = true ->
  Str.all_chars Str.isdecimal d = true -> Str.mem_char c d = false.
Proof.
  intros Hc. induction d as [|x d IH]; [reflexivity|].
  cbn [Str.all_chars]. intros H.
  apply andb_prop in H. destruct H as [Hx Hd].
  change (Str.mem_char c (String x d)) with (Ascii.eqb c x || Str.mem_char c d).
  rewrite (IH Hd), orb_false_r.
  destruct (Ascii.eqb c x) eqn:E; [|reflexivity].
  apply Ascii.eqb_eq in E. subst x. rewrite (decimal_plain c Hx) in Hc.
  discriminate Hc.
Qed.

Lemma unit_no_char (c : ascii) (u : string) :
  Str.mem_char c ". -" = true -> unit_text u = true -> Str.mem_char c u = false.
Proof.
  intros Hc. induction u as [|x u IH]; [reflexivity|].
  unfold unit_text. cbn [Str.all_chars]. intros H.
  apply andb_prop in H. destruct H as [Hx Hu].
  change (Str.mem_char c (String x u)) with (Ascii.eqb c x || Str.mem_char c u).
  rewrite (IH Hu), orb_false_r.
  destruct (Ascii.eqb c x) eqn:E; [|reflexivity].
  apply Ascii.eqb_eq in E. subst x. rewrite Hc in Hx.
  rewrite andb_false_r in Hx. discriminate Hx.
Qed.

(** The test for a bare numeral on a numeral and on a numeral with a
    unit. *)
Lemma numeral_test (d u : string) :
  digits d = true -> unit_text u = true ->
  Str.isdigit (Str.lstrip_chars " -" (Str.replace_n "." "" 1 (d ++ u)))
  = negb (Str.truthy u).
Proof.
  intros H Hu. destruct (digits_inv _ H) as [Ht Hd].
  rewrite no_dot_replace.
  2:{ rewrite mem_char_app, (digits_no_char "." d eq_refl Hd),
        (unit_no_char "." u eq_refl Hu). reflexivity. }
  unfold Str.lstrip_chars. rewrite lstrip_none.
  2:{ destruct d as [|c d]; [discriminate Ht|]. simpl in Hd.
      apply andb_prop in Hd. exact (decimal_no_sign c (proj1 Hd)). }
  unfold Str.isdigit.
  destruct d as [|c d]; [discriminate Ht|].
  change (String c d ++ u) with (String c (d ++ u)). cbv iota.
  change (String c (d ++ u)) with (String c d ++ u).
  rewrite all_chars_app.
  rewrite (all_chars_weaken _ _ _ decimal_isdigit Hd). cbn [andb].
  destruct u as [|x u]; [reflexivity|].
  unfold unit_text in Hu. simpl in Hu. apply andb_prop in Hu.
  destruct Hu as [Hx _]. apply andb_prop in Hx. destruct Hx as [Hx _].
  simpl. apply negb_true_iff in Hx. rewrite Hx. reflexivity.
Qed.

Lemma startswith_refl (u : string) : Str.startswith u u = true.
Proof.
  induction u as [|c u IH]; [reflexivity|].
  simpl. rewrite Ascii.eqb_refl. exact IH.
Qed.

Lemma contains_self (u : string) : Str.contains u u = true.
Proof.
  unfold Str.contains. destruct u as [|c u]; [reflexivity|].
  cbn [Str.find]. rewrite startswith_refl. reflexivity.
Qed.

Lemma rstrip_all (p : ascii -> bool) (s : string) :
  Str.all_chars p s = true -> Str.rstrip_by p s = "".
Proof.
  induction s as [|c s IH]; [reflexivity|].
  simpl. intros H. apply andb_prop in H. destruct H as [Hc Hs].
  rewrite (IH Hs), Hc. reflexivity.
Qed.

Lemma all_chars_mem_self (pre u : string) :
  Str.all_chars (fun c => Str.mem_char c (pre ++ u)) u = true.
Proof.
  revert pre. induction u as [|c u IH]; intros pre; [reflexivity|].
  cbn [Str.all_chars]. rewrite mem_char_app. cbn [Str.mem_char].
  rewrite Ascii.eqb_refl, orb_true_r. cbn [andb].
  specialize (IH (pre ++ String c "")).
  rewrite append_assoc in IH. exact IH.
Qed.

Lemma decimal_not_in_unit (c : ascii) (u : string) :
  Str.isdecimal c = true -> unit_text u = true ->
  Str.mem_char c (" " ++ u) = false.
Proof.
  intros Hc Hu. change (" " ++ u) with (String " " u). cbn [Str.mem_char].
  assert (Hs : Ascii.eqb c " " = false).
  { destruct (Ascii.eqb c " ") eqn:E; [|reflexivity].
    apply Ascii.eqb_eq in E. subst c. discriminate Hc. }
  rewrite Hs. cbn [orb].
  induction u as [|x u IH]; [reflexivity|].
  unfold unit_text in Hu. cbn [Str.all_chars] in Hu.
  apply andb_prop in Hu. destruct Hu as [Hx Hu].
  cbn [Str.mem_char]. rewrite (IH Hu), orb_false_r.
  destruct (Ascii.eqb c x) eqn:E; [|reflexivity].
  apply Ascii.eqb_eq in E. subst x.
  rewrite (decimal_isdigit c Hc) in Hx. discriminate Hx.
Qed.

(** [string.strip(" " + unit)] on a numeral with its unit leaves the
    numeral. *)
Lemma strip_unit (d u : string) :
  digits d = true -> unit_text u = true ->
  Str.strip_chars (" " ++ u) (d ++ u) = d.
Proof.
  intros H Hu. destruct (digits_inv _ H) as [Ht Hd].
  unfold Str.strip_chars, Str.strip_by. rewrite lstrip_none.
  - rewrite rstrip_app, (rstrip_all _ u (all_chars_mem_self " " u)).
    apply rstrip_none. apply (all_chars_weaken Str.isdecimal); [|exact Hd].
    intros c Hc. rewrite (decimal_not_in_unit c u Hc Hu). reflexivity.
  - destruct d as [|c d]; [discriminate Ht|]. simpl in Hd.
    apply andb_prop in Hd.
    exact (decimal_not_in_unit c u (proj1 Hd) Hu).
Qed.

Lemma size_numeral_unit (before rest : list (string * coef)) (u : string)
      (c : coef) (d : string) (v : float) (k : pyval) :
  UNITS = (before ++ (u, c) :: rest)%list ->
  digits d = true -> Parse.float d = Ok v ->
  Str.truthy u = true -> unit_text u = true ->
  forallb (before_unit u) before = true ->
  unit_factor c = Ok k ->
  size (Some (d ++ u)) = Num.mul (VFloat v) k.
Proof.
  intros HU H Hv Ht Hu Hb Hk. destruct (digits_inv _ H) as [Hdt Hd].
  unfold size.
  assert (Hne : Str.truthy (d ++ u) = true).
  { destruct d; [discriminate Hdt|reflexivity]. }
  rewrite Hne, (numeral_test d u H Hu), Ht. cbn [negb].
  rewrite HU, size_units_skip.
  - cbn [size_units].
    rewrite (contains_after_digits u d u Ht Hu Hd), contains_self,
      (strip_unit d u H Hu), Hv, Hk. reflexivity.
  - intros n Hn. apply in_map_iff in Hn. destruct Hn as ([n' c'] & <- & Hin).
    rewrite forallb_forall in Hb. specialize (Hb _ Hin).
    unfold before_unit in Hb. cbn [fst] in *.
    apply andb_prop in Hb. destruct Hb as [Hb Hc'].
    apply andb_prop in Hb. destruct Hb as [Hn1 Hn2].
    rewrite (contains_after_digits n' d u Hn1 Hn2 Hd).
    apply negb_true_iff. exact Hc'.
Qed.

(** X25: the table of units on numerals.  For every string [d] of decimal
    digits, [size(d)] is [float(d)], and with a unit appended the result
    is that float times the factor of the unit: 1 for [px] and [pt], 72
    for [in], 12 for [pc], and [72 * (1 / 25.4)] and [72 * (1 / 2.54)]
    for [mm] and [cm]. *)
Theorem size_unit_table (d : string) :
  digits d = true ->
  exists v,
    Parse.float d = Ok v /\
    size (Some d) = Ok (VFloat v) /\
    size (Some (d ++ "px")) = Ok (VFloat (v * 1)) /\
    size (Some (d ++ "pt")) = Ok (VFloat (v * 1)) /\
    size (Some (d ++ "in")) = Ok (VFloat (v * 72)) /\
    size (Some (d ++ "pc")) = Ok (VFloat (v * 12)) /\
    size (Some (d ++ "mm")) = Ok (VFloat (v * (72 * (1 / f_25_4)))) /\
    size (Some (d ++ "cm")) = Ok (VFloat (v * (72 * (1 / f_2_54)))).
Proof.
  intros H. destruct (float_digits d H) as [v Hv]. exists v.
  split; [exact Hv|]. split.
  { assert (E := numeral_test d "" H eq_refl).
    replace (d ++ "") with d in E
      by (clear; induction d as [|c d IH]; [reflexivity|]; simpl; rewrite <- IH; reflexivity).
    unfold size. destruct (digits_inv _ H) as [Ht _].
    rewrite Ht, E, Hv. reflexivity. }
  repeat split.
  - eapply (size_numeral_unit
             [("mm", CNum (VFloat (1 / f_25_4))); ("cm", CNum (VFloat (1 / f_2_54)));
              ("in", CNum (VInt 1)); ("pt", CNum (VFloat (1 / 72)));
              ("pc", CNum (VFloat (1 / 6)))] _ "px" CNoneCoef d v (VInt 1));
      first [reflexivity|assumption].
  - eapply (size_numeral_unit
             [("mm", CNum (VFloat (1 / f_25_4))); ("cm", CNum (VFloat (1 / f_2_54)));
              ("in", CNum (VInt 1))] _ "pt" (CNum (VFloat (1 / 72))) d v (VFloat 1));
      first [reflexivity|assumption].
  - eapply (size_numeral_unit
             [("mm", CNum (VFloat (1 / f_25_4))); ("cm", CNum (VFloat (1 / f_2_54)))]
             _ "in" (CNum (VInt 1)) d v (VFloat 72));
      first [reflexivity|assumption].
  - eapply (size_numeral_unit
             [("mm", CNum (VFloat (1 / f_25_4))); ("cm", CNum (VFloat (1 / f_2_54)));
              ("in", CNum (VInt 1)); ("pt", CNum (VFloat (1 / 72)))]
             _ "pc" (CNum (VFloat (1 / 6))) d v (VFloat 12));
      first [reflexivity|assumption].
  - eapply (size_numeral_unit [] _ "mm" (CNum (VFloat (1 / f_25_4))) d v
                             (VFloat (72 * (1 / f_25_4))));
      first [reflexivity|assumption].
  - eapply (size_numeral_unit [("mm", CNum (VFloat (1 / f_25_4)))]
             _ "cm" (CNum (VFloat (1 / f_2_54))) d v
                             (VFloat (72 * (1 / f_2_54))));
      first [reflexivity|assumption].
Qed.

Lemma size_unit_table_witness :
  exists v,
    Parse.float "25" = Ok v /\
    size (Some "25") = Ok (VFloat v) /\
    size (Some "25px") = Ok (VFloat (v * 1)) /\
    size (Some "25pt") = Ok (VFloat (v * 1)) /\
    size (Some "25in") = Ok (VFloat (v * 72)) /\
    size (Some "25pc") = Ok (VFloat (v * 12)) /\
    size (Some "25mm") = Ok (VFloat (v * (72 * (1 / f_25_4)))) /\
    size (Some "25cm") = Ok (VFloat (v * (72 * (1 / f_2_54)))).
Proof. exact (size_unit_table "25" eq_refl). Defined.

(** *** [normalize] twice *)

Lemma replace_n_cons (old new : string) (k : nat) (c : ascii) (s : string) :
  Str.startswith old (String c s) = false ->
  Str.replace_n old new k (String c s) = String c (Str.replace_n old new k s).
Proof.
  intros H. destruct k as [|k]; [reflexivity|].
  cbn [Str.replace_n Str.find]. rewrite H.
  destruct (Str.find old s) as [[a b]|]; reflexivity.
Qed.

Lemma dash_mono (s : string) :
  dash_after_space false s = true -> dash_after_space true s = true.
Proof.
  destruct s as [|c r]; [reflexivity|]. simpl.
  rewrite orb_false_r, orb_true_r. intros H. apply andb_prop in H. apply H.
Qed.

Lemma dash_app_space (p : bool) (a y : string) :
  dash_after_space p (a ++ String " " y)
  = dash_after_space p a && dash_after_space true y.
Proof.
  revert p. induction a as [|c a IH]; intros p; [reflexivity|].
  change (String c a ++ String " " y) with (String c (a ++ String " " y)).
  cbn [dash_after_space]. rewrite IH. apply andb_assoc.
Qed.

Lemma dash_subst_dash (p : bool) (s : string) :
  dash_after_space p (subst_char "-" " -" s) = true.
Proof.
  revert p. induction s as [|c s IH]; intros p; [reflexivity|].
  cbn [subst_char]. destruct (Ascii.eqb "-" c) eqn:E.
  - change (" -" ++ subst_char "-" " -" s)
      with (String " " (String "-" (subst_char "-" " -" s))).
    cbn [dash_after_space]. rewrite IH. reflexivity.
  - cbn [dash_after_space]. rewrite Ascii.eqb_sym, E, IH. reflexivity.
Qed.

Lemma dash_subst_comma (p : bool) (s : string) :
  dash_after_space p s = true ->
  dash_after_space p (subst_char "," " " s) = true.
Proof.
  revert p. induction s as [|c s IH]; intros p H; [reflexivity|].
  cbn [dash_after_space] in H. apply andb_prop in H. destruct H as [H1 H2].
  cbn [subst_char]. destruct (Ascii.eqb "," c) eqn:E.
  - apply Ascii.eqb_eq in E. subst c.
    change (" " ++ subst_char "," " " s) with (String " " (subst_char "," " " s)).
    cbn [dash_after_space]. apply IH. apply dash_mono. exact H2.
  - cbn [dash_after_space]. rewrite H1, (IH _ H2). reflexivity.
Qed.

Lemma dash_collapse_round (k : nat) (p : bool) (s : string) :
  dash_after_space p s = true ->
  dash_after_space p (Str.replace_n "  " " " k s) = true.
Proof.
  revert p s. induction k as [|k IH]; intros p s H; [exact H|].
  cbn [Str.replace_n]. destruct (Str.find "  " s) as [[a b]|] eqn:E; [|exact H].
  rewrite (find_split _ _ _ _ E) in H.
  change ("  " ++ b) with (String " " (String " " b)) in H.
  rewrite dash_app_space in H. apply andb_prop in H. destruct H as [Ha Hb].
  cbn [dash_after_space] in Hb.
  change (" " ++ Str.replace_n "  " " " k b)
    with (String " " (Str.replace_n "  " " " k b)).
  rewrite dash_app_space, Ha. cbn [andb]. apply IH. exact Hb.
Qed.

Lemma dash_collapse (fuel : nat) (p : bool) (s : string) :
  dash_after_space p s = true ->
  dash_after_space p (collapse_spaces fuel s) = true.
Proof.
  revert s. induction fuel as [|fuel IH]; intros s H; [exact H|].
  cbn [collapse_spaces]. destruct (Str.contains "  " s); [|exact H].
  apply IH. apply dash_collapse_round. exact H.
Qed.

Lemma dash_normalize (s : string) : dash_after_space false (normalize s) = true.
Proof.
  unfold normalize. cbv zeta. apply dash_collapse.
  rewrite (replace_char "," " "). apply dash_subst_comma.
  rewrite (replace_char "-" " -"). apply dash_subst_dash.
Qed.

Lemma single_spaces_of_contains (s : string) :
  Str.contains "  " s = false -> single_spaces false s = true.
Proof.
  unfold Str.contains. induction s as [|c s IH]; intros H; [reflexivity|].
  cbn [Str.find] in H.
  destruct (Str.startswith "  " (String c s)) eqn:E; [discriminate H|].
  assert (Hs : single_spaces false s = true).
  { apply IH. destruct (Str.find "  " s) as [[a b]|]; [discriminate H|reflexivity]. }
  cbn [single_spaces]. cbn [andb negb].
  destruct (Ascii.eqb c " ") eqn:Ec; [|exact Hs].
  destruct s as [|x s]; [reflexivity|].
  cbn [single_spaces] in *. cbn [andb negb] in *.
  destruct (Ascii.eqb x " ") eqn:Ex; [|exact Hs].
  exfalso. apply Ascii.eqb_eq in Ec, Ex. subst c x. discriminate E.
Qed.

(** On a text whose minus signs follow a space and whose spaces are
    single, putting a space before each minus sign and then merging the
    double spaces gives the text back. *)
Lemma collapse_restores (n k : nat) (s : string) :
  (String.length s <= n)%nat -> (String.length s <= k)%nat ->
  dash_after_space false s = true -> single_spaces false s = true ->
  Str.replace_n "  " " " k (subst_char "-" " -" s) = s.
Proof.
  revert k s. induction n as [|n IH]; intros k s Hn Hk Hd Hs.
  - destruct s; [|simpl in Hn; lia]. destruct k; reflexivity.
  - destruct s as [|c r]; [destruct k; reflexivity|].
    cbn [dash_after_space single_spaces] in Hd, Hs.
    rewrite orb_false_r in Hd. cbn [andb negb] in Hs.
    apply andb_prop in Hd. destruct Hd as [Hc Hd].
    apply negb_true_iff in Hc.
    cbn [subst_char]. rewrite Ascii.eqb_sym, Hc.
    destruct (Ascii.eqb c " ") eqn:Ec.
    + apply Ascii.eqb_eq in Ec. subst c.
      destruct r as [|x r']; [destruct k; reflexivity|].
      cbn [single_spaces] in Hs. cbn [andb] in Hs.
      apply andb_prop in Hs. destruct Hs as [Hx Hs].
      apply negb_true_iff in Hx.
      cbn [dash_after_space] in Hd. rewrite orb_true_r in Hd. cbn [andb] in Hd.
      rewrite Hx in Hd, Hs.
      cbn [subst_char]. destruct (Ascii.eqb "-" x) eqn:Ex.
      * apply Ascii.eqb_eq in Ex. subst x.
        change (" -" ++ subst_char "-" " -" r')
          with (String " " (String "-" (subst_char "-" " -" r'))).
        destruct k as [|k]; [simpl in Hk; lia|].
        cbn [Str.replace_n Str.find Str.startswith Ascii.eqb Bool.eqb andb
             String.length Str.drop].
        change ("" ++ " " ++
                Str.replace_n "  " " " k (String "-" (subst_char "-" " -" r')))
          with (String " " (Str.replace_n "  " " " k
                              (String "-" (subst_char "-" " -" r')))).
        rewrite replace_n_cons by reflexivity.
        rewrite (IH k r'); [reflexivity|simpl in Hn; lia|simpl in Hk; lia
                           |exact Hd|exact Hs].
      * rewrite replace_n_cons.
        2:{ cbn [Str.startswith]. rewrite (Ascii.eqb_sym " " x), Hx.
            rewrite andb_false_r. reflexivity. }
        assert (E : Str.replace_n "  " " " k (subst_char "-" " -" (String x r'))
                    = String x r').
        { apply IH; [simpl in *; lia|simpl in *; lia| |].
          - cbn [dash_after_space]. rewrite (Ascii.eqb_sym x "-"), Ex, Hx.
            exact Hd.
          - cbn [single_spaces]. rewrite Hx. exact Hs. }
        cbn [subst_char] in E. rewrite Ex in E. rewrite E. reflexivity.
    + rewrite replace_n_cons.
      2:{ cbn [Str.startswith]. rewrite (Ascii.eqb_sym " " c), Ec. reflexivity. }
      rewrite (IH k r); [reflexivity|simpl in Hn; lia|simpl in Hk; lia
                        |exact Hd|exact Hs].
Qed.

Lemma subst_absent (l : ascii) (new s : string) :
  Str.mem_char l s = false -> subst_char l new s = s.
Proof.
  induction s as [|c s IH]; [reflexivity|].
  cbn [Str.mem_char]. intros H. apply orb_false_elim in H. destruct H as [Hc Hs].
  cbn [subst_char]. rewrite Hc, (IH Hs). reflexivity.
Qed.

Lemma collapse_spaces_fixed (fuel : nat) (s : string) :
  Str.contains "  " s = false -> collapse_spaces fuel s = s.
Proof. intros H. destruct fuel; [reflexivity|]. simpl. rewrite H. reflexivity. Qed.

Lemma replace_n_absent (old new : string) (k : nat) (s : string) :
  Str.contains old s = false -> Str.replace_n old new k s = s.
Proof.
  unfold Str.contains. intros H. destruct k; [reflexivity|].
  simpl. destruct (Str.find old s); [discriminate H|reflexivity].
Qed.

(** X26: [normalize] is idempotent: a normalized text is left as it is. *)
Theorem normalize_idempotent (s : string) :
  normalize (normalize s) = normalize s.
Proof.
  assert (Hcomma := normalize_no_comma s).
  assert (Hdouble := normalize_no_double_space s).
  assert (Hd := dash_normalize s).
  assert (Hs := single_spaces_of_contains _ Hdouble).
  set (t := normalize s) in *. clearbody t.
  rewrite mem_char_find in Hcomma.
  unfold normalize at 1. cbv zeta.
  rewrite (replace_char "-" " -").
  assert (Hc : Str.mem_char "," (subst_char "-" " -" t) = false).
  { rewrite mem_char_subst by reflexivity. rewrite Hcomma. reflexivity. }
  rewrite (replace_char "," " "), (subst_absent "," " " _ Hc).
  assert (R : forall k, (String.length t <= k)%nat ->
                        Str.replace_n "  " " " k (subst_char "-" " -" t) = t).
  { intros k Hk. apply (collapse_restores (String.length t));
      [apply Nat.le_refl|exact Hk|exact Hd|exact Hs]. }
  assert (Hl : (String.length t <= String.length (subst_char "-" " -" t))%nat).
  { clear. induction t as [|c t IH]; [apply Nat.le_refl|].
    cbn [subst_char]. destruct (Ascii.eqb "-" c); simpl; lia. }
  destruct (Str.contains "  " (subst_char "-" " -" t)) eqn:E.
  - destruct (String.length (subst_char "-" " -" t)) as [|f] eqn:El.
    + destruct (subst_char "-" " -" t); [discriminate E|discriminate El].
    + cbn [collapse_spaces]. rewrite E. unfold Str.replace.
      rewrite El, (R (S f) Hl). apply collapse_spaces_fixed. exact Hdouble.
  - rewrite (collapse_spaces_fixed _ _ E).
    rewrite <- (R _ Hl) at 2. symmetry. apply replace_n_absent. exact E.
Qed.

(** *** Nodes without attributes *)

(** X27: a shape whose geometry attributes are all missing.  [circle], [line]
    and [rect] take each missing number as 0 and draw a degenerate shape
    without error; [polyline] and [polygon] call [normalize] on the [None]
    that [node.get("points")] returns and raise [AttributeError] before
    any call. *)
Theorem shapes_without_attributes (n : node) (st : surface) :
  (lacks n ["x"; "y"; "cx"; "cy"; "r"] ->
   circle n st
   = (Ok n, after st [Ctx.new_sub_path; Ctx.arc 0 0 0 0 (2 * pi)])) /\
  (lacks n ["x1"; "y1"; "x2"; "y2"] ->
   line n st = (Ok n, after st [Ctx.move_to 0 0; Ctx.line_to 0 0])) /\
  (lacks n ["x"; "y"; "width"; "height"] ->
   rect n st = (Ok n, after st [Ctx.rectangle 0 0 0 0])) /\
  (lacks n ["points"] ->
   polyline n st = (Raise AttributeError, st) /\
   polygon n st = (Raise AttributeError, st)).
Proof.
  split; [|split; [|split]]; intros H; [| | |split].
  - unfold circle.
    rewrite (H "x"), (H "y"), (H "cx"), (H "cy"), (H "r") by (simpl; tauto).
    rewrite <- after_each_eq. reflexivity.
  - unfold line.
    rewrite (H "x1"), (H "y1"), (H "x2"), (H "y2") by (simpl; tauto).
    rewrite <- after_each_eq. reflexivity.
  - unfold rect.
    rewrite (H "x"), (H "y"), (H "width"), (H "height") by (simpl; tauto).
    rewrite <- after_each_eq. reflexivity.
  - unfold polyline. rewrite (H "points") by (simpl; tauto). reflexivity.
  - unfold polygon, polyline, bindM.
    rewrite (H "points") by (simpl; tauto). reflexivity.
Qed.

Lemma shapes_without_attributes_witness :
  rect (Node "rect" [("fill", "red")] [] None false) fresh_surface
  = (Ok (Node "rect" [("fill", "red")] [] None false),
     after fresh_surface [Ctx.rectangle 0 0 0 0]) /\
  polygon (Node "polygon" [] [] None false) fresh_surface
  = (Raise AttributeError, fresh_surface).
Proof.
  split.
  - apply (proj1 (proj2 (proj2 (shapes_without_attributes
                                  (Node "rect" [("fill", "red")] [] None false)
                                  fresh_surface)))).
    intros k Hk. simpl in Hk.
    repeat (destruct Hk as [<-|Hk]; [reflexivity|]). contradiction.
  - apply (proj2 (proj2 (proj2 (shapes_without_attributes
                                  (Node "polygon" [] [] None false)
                                  fresh_surface)))).
    intros k Hk. reflexivity.
Defined.

(** *** [tspan] *)

Lemma get_set_other (k k' v : string) (d : Dict.t) :
  String.eqb k k' = false -> Dict.get k (Dict.set k' v d) = Dict.get k d.
Proof.
  intros H. unfold Dict.set. simpl. rewrite H. apply get_del_other. exact H.
Qed.

Section Tspan.

Variable get_current_point : list Ctx.op -> float * float.
Variable text_extents :
  list Ctx.op -> string -> float * float * float * float * float * float.
Variable COLORS : Dict.t.
Variable str : pyval -> string.

Lemma text_keeps (k : string) (n n' : node) (st st' : surface) :
  String.eqb k "fill" = false ->
  text get_current_point text_extents COLORS n st = (Ok n', st') ->
  get n' k = get n k.
Proof.
  intros Hk. unfold text. cbv zeta. intros H.
  bindM_inv H. bindM_inv H. bindM_inv H.
  bindM_inv H as [[[[[xb ?] w] ?] ?] ?].
  do 11 (bindM_inv H).
  unfold ret in H. injection H as <- _.
  unfold get, set_attr, set_text. cbn [attrs].
  rewrite (get_set_other _ _ _ _ Hk).
  destruct (falsy _); [|reflexivity].
  cbn [attrs]. apply (get_set_other _ _ _ _ Hk).
Qed.

(** X28: a [tspan] without [x] or [y] continues at the cursor position: when
    it returns, the attribute it lacked holds [str] of the cursor
    coordinate plus [size(dx)] (or [size(dy)]), which is where [text]
    then moves to. *)
Theorem tspan_continues_at_cursor (n n' : node) (st st' : surface) :
  tspan get_current_point text_extents COLORS str n st = (Ok n', st') ->
  (get n "x" = None ->
   exists d vx, size (get n "dx") = Ok d /\
                Num.add (fst (cursor_position st)) d = Ok vx /\
                get n' "x" = Some (str vx)) /\
  (get n "y" = None ->
   exists d vy, size (get n "dy") = Ok d /\
                Num.add (snd (cursor_position st)) d = Ok vy /\
                get n' "y" = Some (str vy)).
Proof.
  unfold tspan. intros H.
  bindM_inv H as [cx cy].
  match goal with
  | Hq : _ = (Ok (cx, cy), _) |- _ => cbv beta in Hq; injection Hq as Hc <-
  end.
  bindM_inv H as x. bindM_inv H as y. bindM_inv H as nx. cbv zeta in H.
  bindM_inv H as ny.
  repeat match goal with
         | Hl : lift _ _ = (Ok _, _) |- _ =>
             unfold lift in Hl; injection Hl as Hl <-
         end.
  assert (Kx := text_keeps "x" _ _ _ _ eq_refl H).
  assert (Ky := text_keeps "y" _ _ _ _ eq_refl H).
  unfold get, set_attr in Kx, Ky. cbn [attrs] in Kx, Ky.
  rewrite get_set_other, get_set_same in Kx by reflexivity.
  rewrite get_set_same in Ky.
  split; intros Hn.
  - match goal with
    | Hx : match get n "x" with _ => _ end = Ok x |- _ =>
        rewrite Hn in Hx; injection Hx as <-
    end.
    match goal with
    | Hd : bind (size (get n "dx")) _ = Ok nx |- _ =>
        apply bind_ok in Hd; destruct Hd as (dv & Hd1 & Hd2);
        exists dv, nx; rewrite Hc; cbn [fst]; auto
    end.
  - match goal with
    | Hy : match get n "y" with _ => _ end = Ok y |- _ =>
        rewrite Hn in Hy; injection Hy as <-
    end.
    match goal with
    | Hd : bind (size (get _ "dy")) _ = Ok ny |- _ =>
        apply bind_ok in Hd; destruct Hd as (dv & Hd1 & Hd2);
        exists dv, ny; rewrite Hc; cbn [snd]; split; [|auto]
    end.
    unfold get, set_attr in *. cbn [attrs] in *.
    rewrite get_set_other in * by reflexivity. assumption.
Qed.

End Tspan.

Lemma tspan_continues_at_cursor_witness :
  exists n' st',
    tspan (fun _ => (0, 0)%float) (fun _ _ => (0, 0, 0, 0, 0, 0)%float) []
          (fun _ => "7") (Node "tspan" [("dx", "2")] [] (Some "a") false)
          (Surface [] (VFloat 5, VFloat 0))
    = (Ok n', st') /\ get n' "x" = Some "7".
Proof.
  eexists. eexists. split; [vm_compute; reflexivity|].
  destruct (proj1 (tspan_continues_at_cursor
                     (fun _ => (0, 0)%float)
                     (fun _ _ => (0, 0, 0, 0, 0, 0)%float) []
                     (fun _ => "7")
                     (Node "tspan" [("dx", "2")] [] (Some "a") false)
                     _ (Surface [] (VFloat 5, VFloat 0)) _ eq_refl)
                  eq_refl) as (d & vx & _ & _ & H).
  exact H.
Defined.

(** *** The walker terminates where no path is drawn *)

Lemma float_no_timeout (s : string) : Parse.float s <> Timeout.
Proof. destruct (float_shape s) as [[f ->]| ->]; discriminate. Qed.

Lemma int16_no_timeout (s : string) : Parse.int16 s <> Timeout.
Proof.
  unfold Parse.int16. destruct (Parse.take_sign _) as [neg body]. cbv zeta.
  destruct (Parse.scan_digits _ _ _ _ _) as [[z [|n]] [|c r]]; discriminate.
Qed.

Lemma mapM_no_timeout {A B : Type} (f : A -> res B) (l : list A) :
  (forall x, f x <> Timeout) -> mapM f l <> Timeout.
Proof.
  intros H. induction l as [|a l IH]; [discriminate|].
  cbn [mapM]. apply bind_no_timeout; [apply H|intros b].
  apply bind_no_timeout; [exact IH|intros bs]. discriminate.
Qed.

Ltac no_timeout :=
  repeat first
    [ discriminate
    | apply size_no_timeout | apply as_float_no_timeout
    | apply arith_no_timeout | apply div_no_timeout
    | apply float_no_timeout | apply int16_no_timeout
    | apply point_no_timeout
    | apply mapM_no_timeout; intros ?
    | apply bind_no_timeout; [|intros ?]
    | match goal with
      | |- (match ?x with _ => _ end) <> Timeout => destruct x
      end ].

Lemma neg_no_timeout (a : pyval) : Num.neg a <> Timeout.
Proof. destruct a; discriminate. Qed.

Lemma lt_no_timeout (a b : pyval) : Num.lt a b <> Timeout.
Proof. destruct a, b; cbn [Num.lt]; no_timeout. Qed.

Lemma color_no_timeout (COLORS : Dict.t) (s : option string) (o : pyval) :
  color COLORS s o <> Timeout.
Proof.
  unfold color, hex_color, hex_channel, float_tuple, unpack3, unpack4.
  cbv zeta. no_timeout.
Qed.

Lemma finishes_call1 f (a : pyval) : finishes (call1 f a).
Proof.
  unfold call1.
  apply finishes_bind; [apply finishes_lift, as_float_no_timeout|intros x].
  apply finishes_call.
Qed.

Lemma finishes_call4 f (a b c d : pyval) : finishes (call4 f a b c d).
Proof.
  unfold call4.
  repeat (apply finishes_bind;
          [apply finishes_lift, as_float_no_timeout|intros ?]).
  apply finishes_call.
Qed.

Lemma finishes_call5 f (a b c d e : pyval) : finishes (call5 f a b c d e).
Proof.
  unfold call5.
  repeat (apply finishes_bind;
          [apply finishes_lift, as_float_no_timeout|intros ?]).
  apply finishes_call.
Qed.

Lemma finishes_query {A : Type} (q : surface -> A) :
  finishes (fun s => (Ok (q s), s)).
Proof. intros st. discriminate. Qed.

Lemma finishes_set_cursor_position (p : pyval * pyval) :
  finishes (set_cursor_position p).
Proof. intros st. discriminate. Qed.

Lemma finishes_set_source (COLORS : Dict.t) (s : option string) (o : pyval) :
  finishes (set_source COLORS s o).
Proof.
  unfold set_source.
  apply finishes_bind; [apply finishes_lift, color_no_timeout|].
  intros [[[r g] b] a]. apply finishes_call4.
Qed.

Ltac finish :=
  repeat first
    [ apply finishes_ret | apply finishes_call | apply finishes_call1
    | apply finishes_call2 | apply finishes_call4 | apply finishes_call5
    | apply finishes_set_source | apply finishes_set_cursor_position
    | apply finishes_query
    | apply finishes_lift; no_timeout
    | apply finishes_bind; [|intros ?]
    | match goal with
      | |- finishes (match ?x with _ => _ end) => destruct x
      end ].

Lemma finishes_iterM {A : Type} (f : A -> M unit) (l : list A) :
  (forall x, In x l -> finishes (f x)) -> finishes (iterM f l).
Proof.
  induction l as [|a l IH]; intros H; [apply finishes_ret|].
  cbn [iterM]. apply finishes_bind; [apply H; left; reflexivity|intros _].
  apply IH. intros x Hx. apply H. right. exact Hx.
Qed.

Lemma finishes_apply_transform (ttype : string) (values : list pyval) :
  finishes (apply_transform ttype values).
Proof.
  unfold apply_transform, matrix_of, float_of_value, raise. cbv zeta.
  destruct (String.eqb ttype "matrix"); [finish|].
  destruct (String.eqb ttype "rotate"); [finish|].
  destruct (if Nat.eqb (List.length values) 1 then (values ++ values)%list
            else values) as [|a [|b [|c l]]]; finish.
Qed.

Lemma finishes_transform_types (ttypes : list string) (t : string) :
  finishes (transform_types ttypes t).
Proof.
  revert t. induction ttypes as [|ttype rest IH]; intros t; [apply finishes_ret|].
  cbn [transform_types]. destruct (Str.contains ttype t); [|apply IH].
  cbv zeta. apply finishes_bind.
  - apply finishes_lift.
    rewrite transform_values_words.
    apply mapM_no_timeout. intros x. apply size_no_timeout.
  - intros values. apply finishes_bind; [apply finishes_apply_transform|].
    intros _. apply IH.
Qed.

Lemma finishes_transform (n : node) : finishes (transform n).
Proof.
  unfold transform, resolve_transform.
  destruct (get n "transform") as [t|]; [|apply finishes_ret].
  destruct (Str.truthy t); [|apply finishes_ret].
  apply finishes_iterM. intros x _. apply finishes_transform_types.
Qed.

Open Scope list_scope.

Lemma no_root_inv (c : node) :
  no_root c = true -> root c = false /\ plain_children c = true.
Proof.
  destruct c as [t at_ cs tx r]. simpl. intros H.
  apply andb_prop in H. destruct H as [Hr Hc].
  split; [destruct r; [discriminate Hr|reflexivity]|exact Hc].
Qed.

Lemma depth_after_app (d : nat) (l1 l2 : list Ctx.op) :
  depth_after d (l1 ++ l2)
  = match depth_after d l1 with
    | Some d' => depth_after d' l2
    | None => None
    end.
Proof.
  revert d. induction l1 as [|o l1 IH]; intros d; [reflexivity|].
  destruct o; simpl; try apply IH.
  destruct d; [reflexivity|apply IH].
Qed.

Section Rules.
Context {A B : Type}.

Lemma hoare_ret (x : A) (a : nat) (Q : A -> Prop) :
  Q x -> hoare (ret x) a a Q.
Proof.
  intros HQ st y st' H. injection H as <- <-. split; [exact HQ|].
  exists []. split; [symmetry; apply app_nil_r|reflexivity].
Qed.

Lemma hoare_lift (r : res A) (a : nat) (Q : A -> Prop) :
  (forall x, r = Ok x -> Q x) -> hoare (lift r) a a Q.
Proof.
  intros HQ st y st' H. injection H as -> <-. split; [apply HQ; reflexivity|].
  exists []. split; [symmetry; apply app_nil_r|reflexivity].
Qed.

Lemma hoare_query (q : surface -> A) (a : nat) (Q : A -> Prop) :
  (forall x, Q x) -> hoare (fun s => (Ok (q s), s)) a a Q.
Proof.
  intros HQ st y st' H. injection H as <- <-. split; [apply HQ|].
  exists []. split; [symmetry; apply app_nil_r|reflexivity].
Qed.

Lemma hoare_bind (m : M A) (f : A -> M B) (a b c : nat)
      (P : A -> Prop) (Q : B -> Prop) :
  hoare m a b P -> (forall x, P x -> hoare (f x) b c Q) ->
  hoare (bindM m f) a c Q.
Proof.
  intros Hm Hf st y st' H. unfold bindM in H.
  destruct (m st) as [[x| |] st1] eqn:E; try discriminate H.
  destruct (Hm _ _ _ E) as (HP & ops1 & E1 & D1).
  destruct (Hf x HP _ _ _ H) as (HQ & ops2 & E2 & D2).
  split; [exact HQ|]. exists (ops1 ++ ops2). split.
  - rewrite E2, E1. symmetry. apply app_assoc.
  - intros d. rewrite depth_after_app, D1. apply D2.
Qed.

Lemma hoare_conseq (m : M A) (a b : nat) (P Q : A -> Prop) :
  hoare m a b P -> (forall x, P x -> Q x) -> hoare m a b Q.
Proof.
  intros Hm HPQ st y st' H. destruct (Hm _ _ _ H) as (HP & Hops).
  split; [apply HPQ; exact HP|exact Hops].
Qed.

Lemma hoare_never (m : M A) (a b : nat) (Q : A -> Prop) :
  (forall st x st', m st <> (Ok x, st')) -> hoare m a b Q.
Proof. intros Hn st x st' H. destruct (Hn _ _ _ H). Qed.

End Rules.

Lemma hoare_call (o : Ctx.op) (a : nat) (Q : unit -> Prop) :
  plain o = true -> Q tt -> hoare (call o) a a Q.
Proof.
  intros Hp HQ st [] st' H. injection H as <-. split; [exact HQ|].
  exists [o]. split; [reflexivity|]. intros d.
  destruct o; try discriminate Hp; reflexivity.
Qed.

Lemma hoare_save (a : nat) (Q : unit -> Prop) :
  Q tt -> hoare (call Ctx.save) a (S a) Q.
Proof.
  intros HQ st [] st' H. injection H as <-. split; [exact HQ|].
  exists [Ctx.save]. split; [reflexivity|]. intros d. simpl.
  rewrite Nat.add_succ_r. reflexivity.
Qed.

Lemma hoare_restore (a : nat) (Q : unit -> Prop) :
  Q tt -> hoare (call Ctx.restore) (S a) a Q.
Proof.
  intros HQ st [] st' H. injection H as <-. split; [exact HQ|].
  exists [Ctx.restore]. split; [reflexivity|]. intros d.
  rewrite Nat.add_succ_r. reflexivity.
Qed.

Lemma hoare_set_cursor_position (p : pyval * pyval) (a : nat)
      (Q : unit -> Prop) :
  Q tt -> hoare (set_cursor_position p) a a Q.
Proof.
  intros HQ st [] st' H. injection H as <-. split; [exact HQ|].
  exists []. split; [symmetry; apply app_nil_r|reflexivity].
Qed.

Lemma hoare_raise {A : Type} (e : exn) (a b : nat) (Q : A -> Prop) :
  hoare (raise e) a b Q.
Proof. intros st x st' H. discriminate H. Qed.

Lemma hoare_timeout {A : Type} (a b : nat) (Q : A -> Prop) :
  hoare (lift Timeout) a b Q.
Proof. intros st x st' H. discriminate H. Qed.

Ltac hoare_args :=
  unfold call1, call2, call4, call5, call6;
  repeat (eapply hoare_bind with (P := fun _ => True);
          [apply hoare_lift; intros; exact I|intros ? _]);
  apply hoare_call; [reflexivity|assumption].

Lemma hoare_call1 (f : float -> Ctx.op) (x : pyval) (a : nat) (Q : unit -> Prop) :
  (forall u, plain (f u) = true) -> Q tt -> hoare (call1 f x) a a Q.
Proof.
  intros Hp HQ. unfold call1.
  eapply hoare_bind with (P := fun _ => True); [apply hoare_lift; intros; exact I|].
  intros u _. apply hoare_call; [apply Hp|exact HQ].
Qed.

Lemma hoare_call2 (f : float -> float -> Ctx.op) (x y : pyval) (a : nat)
      (Q : unit -> Prop) :
  (forall u v, plain (f u v) = true) -> Q tt -> hoare (call2 f x y) a a Q.
Proof.
  intros Hp HQ. unfold call2.
  repeat (eapply hoare_bind with (P := fun _ => True);
          [apply hoare_lift; intros; exact I|intros ? _]).
  apply hoare_call; [apply Hp|exact HQ].
Qed.

Lemma hoare_call4 (f : float -> float -> float -> float -> Ctx.op)
      (x y z w : pyval) (a : nat) (Q : unit -> Prop) :
  (forall u v s t, plain (f u v s t) = true) -> Q tt ->
  hoare (call4 f x y z w) a a Q.
Proof.
  intros Hp HQ. unfold call4.
  repeat (eapply hoare_bind with (P := fun _ => True);
          [apply hoare_lift; intros; exact I|intros ? _]).
  apply hoare_call; [apply Hp|exact HQ].
Qed.

Lemma hoare_call5 (f : float -> float -> float -> float -> float -> Ctx.op)
      (x y z w v : pyval) (a : nat) (Q : unit -> Prop) :
  (forall p q r s t, plain (f p q r s t) = true) -> Q tt ->
  hoare (call5 f x y z w v) a a Q.
Proof.
  intros Hp HQ. unfold call5.
  repeat (eapply hoare_bind with (P := fun _ => True);
          [apply hoare_lift; intros; exact I|intros ? _]).
  apply hoare_call; [apply Hp|exact HQ].
Qed.

Lemma hoare_call6
      (f : float -> float -> float -> float -> float -> float -> Ctx.op)
      (x y z w v u : pyval) (a : nat) (Q : unit -> Prop) :
  (forall p q r s t o, plain (f p q r s t o) = true) -> Q tt ->
  hoare (call6 f x y z w v u) a a Q.
Proof.
  intros Hp HQ. unfold call6.
  repeat (eapply hoare_bind with (P := fun _ => True);
          [apply hoare_lift; intros; exact I|intros ? _]).
  apply hoare_call; [apply Hp|exact HQ].
Qed.

Create HintDb hoare.

Ltac plain_ok :=
  intros;
  repeat match goal with
         | |- context [if ?c then _ else _] => destruct c
         end;
  reflexivity.

Ltac hstep :=
  lazymatch goal with
  | |- hoare (ret _) _ _ _ => apply hoare_ret
  | |- hoare (lift Timeout) _ _ _ => apply hoare_timeout
  | |- hoare (lift _) _ _ _ => apply hoare_lift; intros
  | |- hoare (raise _) _ _ _ => apply hoare_raise
  | |- hoare (call Ctx.save) _ _ _ => apply hoare_save
  | |- hoare (call Ctx.restore) _ _ _ => apply hoare_restore
  | |- hoare (call _) _ _ _ => apply hoare_call; [reflexivity|]
  | |- hoare (call1 _ _) _ _ _ => apply hoare_call1; [plain_ok|]
  | |- hoare (call2 _ _ _) _ _ _ => apply hoare_call2; [plain_ok|]
  | |- hoare (call4 _ _ _ _ _) _ _ _ => apply hoare_call4; [plain_ok|]
  | |- hoare (call5 _ _ _ _ _ _) _ _ _ => apply hoare_call5; [plain_ok|]
  | |- hoare (call6 _ _ _ _ _ _ _) _ _ _ => apply hoare_call6; [plain_ok|]
  | |- hoare (set_cursor_position _) _ _ _ => apply hoare_set_cursor_position
  | |- hoare (fun s => (Ok _, s)) _ _ _ => apply hoare_query; intros
  | |- hoare (bindM (lift ?r) _) _ _ _ =>
      eapply hoare_bind with (P := fun x => r = Ok x);
      [apply hoare_lift; intros; assumption|intros ? ?]
  | |- hoare (bindM _ _) _ _ _ =>
      eapply hoare_bind with (P := fun _ => True); [|intros ? _]
  | |- hoare (match ?x with _ => _ end) _ _ _ => destruct x
  | |- hoare (let _ := _ in _) _ _ _ => cbv zeta
  | |- hoare _ _ _ _ => solve [eauto with hoare]
  end.

Ltac hoare_auto := cbv zeta; repeat hstep; try exact I; try (repeat split; reflexivity).

Lemma same_refl (n : node) : same n n.
Proof. repeat split. Qed.

Lemma same_set_attr (k v : string) (n : node) : same n (set_attr k v n).
Proof. repeat split. Qed.

Lemma same_del_attr (k : string) (n : node) : same n (del_attr k n).
Proof. repeat split. Qed.

Lemma same_set_text (t : string) (n : node) : same n (set_text t n).
Proof. repeat split. Qed.

Lemma same_trans (n1 n2 n3 : node) : same n1 n2 -> same n2 n3 -> same n1 n3.
Proof.
  intros (A1 & B1 & C1) (A2 & B2 & C2). repeat split; congruence.
Qed.

Lemma hoare_iterM {A : Type} (f : A -> M unit) (l : list A) (a : nat)
      (Q : unit -> Prop) :
  (forall x, In x l -> hoare (f x) a a (fun _ => True)) -> Q tt ->
  hoare (iterM f l) a a Q.
Proof.
  intros Hf HQ. induction l as [|x l IH].
  - apply hoare_ret. exact HQ.
  - simpl. eapply hoare_bind with (P := fun _ => True).
    + apply Hf. left. reflexivity.
    + intros _ _. apply IH. intros y Hy. apply Hf. right. exact Hy.
Qed.

Lemma hoare_apply_transform (ttype : string) (values : list pyval) (a : nat)
      (Q : unit -> Prop) :
  Q tt -> hoare (apply_transform ttype values) a a Q.
Proof.
  intros HQ. unfold apply_transform.
  destruct (ttype =? "matrix")%string.
  - eapply hoare_bind with (P := fun m => matrix_of values = Ok m);
      [apply hoare_lift; intros; assumption|].
    intros m Hm. apply hoare_call; [|exact HQ].
    unfold matrix_of in Hm. destruct (mapM Num.as_float values) as [fs| |];
      try discriminate Hm. simpl in Hm.
    repeat (destruct fs as [|? fs]; [injection Hm as <-; reflexivity|]).
    discriminate Hm.
  - hoare_auto; assumption.
Qed.
#[local] Hint Resolve hoare_apply_transform : hoare.

Lemma hoare_transform_types (ttypes : list string) (t : string) (a : nat)
      (Q : unit -> Prop) :
  Q tt -> hoare (transform_types ttypes t) a a Q.
Proof.
  intros HQ. revert t. induction ttypes as [|ttype rest IH]; intros t; simpl.
  - apply hoare_ret. exact HQ.
  - destruct (Str.contains ttype t); [|apply IH].
    cbv zeta. hstep. hstep. apply hoare_apply_transform. exact I. apply IH.
Qed.

Lemma hoare_transform (n : node) (a : nat) (Q : unit -> Prop) :
  Q tt -> hoare (transform n) a a Q.
Proof.
  intros HQ. unfold transform. destruct (get n "transform") as [t|].
  - destruct (Str.truthy t); [|apply hoare_ret; exact HQ].
    unfold resolve_transform. apply hoare_iterM; [|exact HQ].
    intros x _. apply hoare_transform_types. exact I.
  - apply hoare_ret. exact HQ.
Qed.

Lemma hoare_set_context_size (w h : pyval) (vb : option (list pyval)) (a : nat)
      (Q : unit -> Prop) :
  Q tt -> hoare (_set_context_size w h vb) a a Q.
Proof.
  intros HQ. unfold _set_context_size. hoare_auto; assumption.
Qed.

Lemma hoare_set_source (COLORS : Dict.t) (s : option string) (o : pyval)
      (a : nat) (Q : unit -> Prop) :
  Q tt -> hoare (set_source COLORS s o) a a Q.
Proof. intros HQ. unfold set_source. hoare_auto; assumption. Qed.

#[local] Hint Resolve hoare_transform hoare_set_context_size hoare_set_source : hoare.
#[local] Hint Resolve same_refl same_set_attr same_del_attr same_set_text : hoare.

Section Handlers.

Variables cos sin atan : float -> float.
Variable pow : float -> float -> float.
Variable get_current_point : list Ctx.op -> float * float.
Variable text_extents :
  list Ctx.op -> string -> float * float * float * float * float * float.
Variable COLORS : Dict.t.
Variable str : pyval -> string.
Variable Tree : option string -> node -> res node.

Lemma hoare_current_point (a : nat) (Q : float * float -> Prop) :
  (forall p, Q p) -> hoare (current_point get_current_point) a a Q.
Proof. intros HQ. unfold current_point. apply hoare_query. exact HQ. Qed.

Ltac hstep' :=
  lazymatch goal with
  | |- hoare (current_point _) _ _ _ => apply hoare_current_point; intros
  | |- hoare (rel_curve_to _ _ _ _ _ _) _ _ _ =>
      unfold rel_curve_to; apply hoare_call6; [intros; reflexivity|]
  | |- hoare (curve_to _ _ _ _ _ _) _ _ _ =>
      unfold curve_to; apply hoare_call6; [intros; reflexivity|]
  | |- _ => hstep
  end.

Ltac same_node :=
  repeat match goal with
         | |- context [if ?c then _ else _] => destruct c
         end;
  repeat split.

Ltac hauto := cbv zeta; repeat hstep'; try exact I; auto with hoare.

Lemma hoare_circle (n : node) (a : nat) (Q : node -> Prop) :
  (forall n', same n n' -> Q n') -> hoare (circle n) a a Q.
Proof. intros HQ. unfold circle. hauto. Qed.

Lemma hoare_ellipse (n : node) (a : nat) (Q : node -> Prop) :
  (forall n', same n n' -> Q n') -> hoare (ellipse n) a a Q.
Proof. intros HQ. unfold ellipse. hauto. Qed.

Lemma hoare_line (n : node) (a : nat) (Q : node -> Prop) :
  (forall n', same n n' -> Q n') -> hoare (line n) a a Q.
Proof. intros HQ. unfold line. hauto. Qed.

Lemma hoare_polyline_loop (fuel : nat) (points : string) (a : nat)
      (Q : unit -> Prop) :
  Q tt -> hoare (polyline_loop fuel points) a a Q.
Proof.
  intros HQ. revert points. induction fuel as [|fuel IH]; intros points; simpl;
    destruct (Str.truthy points); simpl; try (apply hoare_ret; exact HQ).
  - apply hoare_timeout.
  - hauto.
Qed.

Lemma hoare_polyline (n : node) (a : nat) (Q : node -> Prop) :
  (forall n', same n n' -> Q n') -> hoare (polyline n) a a Q.
Proof.
  intros HQ. unfold polyline. hauto.
  apply hoare_polyline_loop. exact I.
Qed.

Lemma hoare_polygon (n : node) (a : nat) (Q : node -> Prop) :
  (forall n', same n n' -> Q n') -> hoare (polygon n) a a Q.
Proof.
  intros HQ. unfold polygon.
  eapply hoare_bind with (P := same n); [apply hoare_polyline; auto|].
  intros n' Hn'. hauto.
Qed.

Lemma hoare_rect (n : node) (a : nat) (Q : node -> Prop) :
  (forall n', same n n' -> Q n') -> hoare (rect n) a a Q.
Proof. intros HQ. unfold rect. hauto. Qed.

Lemma hoare_text (n : node) (a : nat) (Q : node -> Prop) :
  (forall n', same n n' -> Q n') -> hoare (text get_current_point text_extents COLORS n) a a Q.
Proof.
  intros HQ. unfold text. hauto; apply HQ; same_node.
Qed.

Lemma hoare_tspan (n : node) (a : nat) (Q : node -> Prop) :
  (forall n', same n n' -> Q n') ->
  hoare (tspan get_current_point text_extents COLORS str n) a a Q.
Proof.
  intros HQ. unfold tspan. hauto.
  apply hoare_text. intros n' Hn'. apply HQ.
  eapply same_trans; [|exact Hn']. same_node.
Qed.

Lemma hoare_path_arc (string : String.string) (L : locals) (a : nat)
      (Q : String.string * locals -> Prop) :
  (forall r, Q r) ->
  hoare (path_arc cos sin atan pow get_current_point string L) a a Q.
Proof.
  intros HQ. unfold path_arc. hauto.
Qed.

Lemma hoare_quadratic_loop
      (curve : pyval -> pyval -> pyval -> pyval -> pyval -> pyval -> M unit)
      (fuel : nat) (string : String.string) (L : locals) (a : nat)
      (Q : locals -> Prop) :
  (forall p q r s t u, hoare (curve p q r s t u) a a (fun _ => True)) ->
  (forall r, Q r) ->
  hoare (quadratic_loop fuel curve string L) a a Q.
Proof.
  intros Hc HQ. revert string L.
  induction fuel as [|fuel IH]; intros string L; simpl;
    destruct (Str.truthy string); simpl; try (apply hoare_ret; apply HQ).
  - apply hoare_timeout.
  - hauto.
Qed.

Lemma hoare_quadratic_end
      (curve : pyval -> pyval -> pyval -> pyval -> pyval -> pyval -> M unit)
      (p1x p1y : pyval) (string : String.string) (L : locals) (a : nat)
      (Q : String.string * locals -> Prop) :
  (forall p q r s t u, hoare (curve p q r s t u) a a (fun _ => True)) ->
  (forall r, Q r) ->
  hoare (quadratic_end curve p1x p1y string L) a a Q.
Proof. intros Hc HQ. unfold quadratic_end. hauto. Qed.

Lemma hoare_rel_curve_to (p q r s t u : pyval) (a : nat) :
  hoare (rel_curve_to p q r s t u) a a (fun _ => True).
Proof. hauto. Qed.

Lemma hoare_curve_to (p q r s t u : pyval) (a : nat) :
  hoare (curve_to p q r s t u) a a (fun _ => True).
Proof. hauto. Qed.

Lemma hoare_path_step (string : String.string) (L : locals) (a : nat)
      (Q : String.string * locals -> Prop) :
  (forall r, Q r) ->
  hoare (path_step cos sin atan pow get_current_point string L) a a Q.
Proof.
  intros HQ. unfold path_step. cbv zeta.
  eapply hoare_bind with (P := fun _ => True); [hauto|]. intros [s1 L1] _.
  eapply hoare_bind with (P := fun _ => True); [|intros [s2 L2] _; hauto].
  repeat match goal with
         | |- hoare (if ?c then _ else _) _ _ _ => destruct c
         end;
    try (apply hoare_path_arc; auto);
    try (hauto; first [apply hoare_quadratic_loop | apply hoare_quadratic_end];
         auto using hoare_rel_curve_to, hoare_curve_to).
Qed.

Lemma hoare_path_rounds (fuel : nat) (string : String.string) (L : locals)
      (a : nat) (Q : unit -> Prop) :
  Q tt ->
  hoare (path_rounds cos sin atan pow get_current_point fuel string L) a a Q.
Proof.
  intros HQ. revert string L. induction fuel as [|fuel IH]; intros string L.
  - apply hoare_timeout.
  - simpl. eapply hoare_bind with (P := fun _ => True);
      [apply hoare_path_step; auto|].
    intros [s1 L1] _. destruct (Str.truthy s1); [apply IH|].
    apply hoare_ret. exact HQ.
Qed.

Lemma hoare_path (fuel : nat) (n : node) (a : nat) (Q : unit -> Prop) :
  Q tt ->
  hoare (path cos sin atan pow get_current_point fuel n) a a Q.
Proof.
  intros HQ. unfold path, path_data, path_loop.
  destruct (Str.truthy _); [apply hoare_path_rounds|apply hoare_ret]; exact HQ.
Qed.

Lemma hoare_use (drawf : node -> M unit) (n : node) (a : nat)
      (Q : node -> Prop) :
  (forall href m t b,
      Tree href m = Ok t -> hoare (drawf t) b (S b) (fun _ => True)) ->
  (forall n', same n n' -> Q n') ->
  hoare (use Tree drawf n) a a Q.
Proof.
  intros Hd HQ. unfold use. hauto. apply HQ. repeat split.
Qed.

Variable _create_surface : node -> M unit.
Variable other_attr : string -> option (node -> M node).

Lemma hoare_init (drawf : node -> M unit) (n : node) (a b : nat)
      (Q : unit -> Prop) :
  (forall c d (P : unit -> Prop), hoare (drawf n) c d P) ->
  hoare (__init__ _create_surface drawf n) a b Q.
Proof.
  intros Hd st x st' H. unfold __init__ in H.
  bindM_inv H. bindM_inv H.
  destruct (Hd 0 0 (fun _ => False) _ _ _ H) as [[] _].
Qed.

Lemma hoare_dispatch (drawf : node -> M unit) (fuel : nat) (n : node)
      (a : nat) (Q : node -> Prop) :
  (forall href m t b,
      Tree href m = Ok t -> hoare (drawf t) b (S b) (fun _ => True)) ->
  (recursive_tag (tag n) = true ->
   forall b c (P : unit -> Prop), hoare (drawf n) b c P) ->
  foreign other_attr (tag n) = false ->
  (forall n', same n n' -> Q n') ->
  hoare (dispatch cos sin atan pow get_current_point text_extents COLORS str
                  Tree _create_surface other_attr drawf fuel n) a a Q.
Proof.
  intros Hd Hn Hf HQ. unfold dispatch, recursive_tag in *. cbv zeta.
  unfold foreign in Hf. apply orb_false_elim in Hf. destruct Hf as [Hc Ho].
  rewrite Hc.
  repeat match goal with
         | |- hoare (if String.eqb ?x ?y then _ else _) _ _ _ =>
             let E := fresh "E" in destruct (String.eqb x y) eqn:E
         end.
  - apply hoare_circle; exact HQ.
  - apply hoare_ellipse; exact HQ.
  - eapply hoare_bind with (P := fun _ => True); [apply hoare_path; exact I|].
    intros _ _. apply hoare_ret. apply HQ. apply same_refl.
  - apply hoare_line; exact HQ.
  - apply hoare_polyline; exact HQ.
  - apply hoare_polygon; exact HQ.
  - apply hoare_rect; exact HQ.
  - apply hoare_use; assumption.
  - apply hoare_tspan; exact HQ.
  - apply hoare_text; exact HQ.
  - apply hoare_use; assumption.
  - eapply hoare_bind with (P := fun _ => True); [apply Hn; reflexivity|].
    intros _ _. apply hoare_ret. apply HQ. apply same_refl.
  - eapply hoare_bind with (P := fun _ => True);
      [apply hoare_init; apply Hn; reflexivity|].
    intros _ _. apply hoare_ret. apply HQ. apply same_refl.
  - destruct (mem_string _ _); [apply hoare_raise|].
    destruct (other_attr (tag n)); [discriminate Ho|].
    apply hoare_ret. apply HQ. apply same_refl.
Qed.

Let drawf := draw cos sin atan pow get_current_point text_extents COLORS str
                  Tree _create_surface other_attr.

(** A [Surface] that is not of a subclass draws nothing. *)
Lemma init_of_abstract_surface (d : node -> M unit) (tree : node)
      (st : surface) :
  __init__ abstract_create_surface d tree st
  = (Raise NotImplementedError, Surface [] (VInt 0, VInt 0)).
Proof. reflexivity. Qed.

(** An element named [draw] or [__init__]: the method found under that
    name draws the same node again, so [draw] does not return. *)
Lemma draw_never (fuel : nat) :
  forall (n : node) (a b : nat) (Q : unit -> Prop),
    recursive_tag (tag n) = true -> hoare (drawf fuel n) a b Q.
Proof.
  induction fuel as [|fuel IH]; intros n a b Q Ht; [apply hoare_timeout|].
  assert (Hd : dispatch cos sin atan pow get_current_point text_extents
                        COLORS str Tree _create_surface other_attr
                        (drawf fuel) fuel n
               = (if String.eqb (tag n) "draw" then drawf fuel n ;;; ret n
                  else __init__ _create_surface (drawf fuel) n ;;; ret n)%surface
               /\ String.eqb (tag n) "defs" = false
               /\ mem_string (tag n) PATH_TAGS = false).
  { unfold recursive_tag in Ht. unfold dispatch.
    destruct (String.eqb (tag n) "draw") eqn:E1.
    - apply String.eqb_eq in E1. rewrite E1. repeat split.
    - cbn [orb] in Ht. apply String.eqb_eq in Ht. rewrite Ht. repeat split. }
  destruct Hd as (Hd & Hdefs & Hpath).
  unfold drawf. cbn [draw]. fold (drawf fuel). rewrite Hdefs, Hpath.
  cbn [andb]. rewrite Hd.
  eapply hoare_bind with (P := fun _ => True); [apply hoare_save; exact I|].
  intros _ _.
  eapply hoare_bind with (P := fun _ => True); [apply hoare_lift; auto|].
  intros x _.
  eapply hoare_bind with (P := fun _ => True); [apply hoare_lift; auto|].
  intros y _.
  eapply hoare_bind with (P := fun _ => True);
    [apply hoare_call2; [plain_ok|exact I]|].
  intros _ _.
  eapply hoare_bind with (P := fun _ => True);
    [apply hoare_transform; exact I|].
  intros _ _.
  eapply hoare_bind with (b := O) (P := fun _ => False); [|intros _ []].
  destruct (String.eqb (tag n) "draw").
  - eapply hoare_bind with (b := O) (P := fun _ => False);
      [apply IH; exact Ht|intros _ []].
  - eapply hoare_bind with (b := O) (P := fun _ => False);
      [apply hoare_init; intros; apply IH; exact Ht|intros _ []].
Qed.

(** *** The calls of a frame *)

Lemma closes_bind {A B : Type} (m : M A) (f : A -> M B) (a b c : nat)
      (tail : list Ctx.op) (P : A -> Prop) (Q : B -> Prop) :
  hoare m a b P -> (forall x, P x -> closes (f x) b c tail Q) ->
  closes (bindM m f) a c tail Q.
Proof.
  intros Hm Hf st y st' H. apply bindM_ok in H.
  destruct H as (x & st1 & E & H).
  destruct (Hm _ _ _ E) as (HP & ops1 & E1 & D1).
  destruct (Hf x HP _ _ _ H) as (HQ & body & E2 & D2).
  split; [exact HQ|]. exists (ops1 ++ body). split.
  - rewrite E2, E1. rewrite <- !app_assoc. reflexivity.
  - intros d. rewrite depth_after_app, D1. apply D2.
Qed.

Lemma closes_ret {A : Type} (x : A) (a : nat) (Q : A -> Prop) :
  Q x -> closes (ret x) a a [] Q.
Proof.
  intros HQ st y st' H. injection H as <- <-. split; [exact HQ|].
  exists []. split; [rewrite !app_nil_r; reflexivity|reflexivity].
Qed.

Lemma closes_call (o : Ctx.op) (a : nat) (Q : unit -> Prop) :
  Q tt -> closes (call o) a a [o] Q.
Proof.
  intros HQ st [] st' H. injection H as <-. split; [exact HQ|].
  exists []. split; reflexivity.
Qed.

Lemma closes_calls {A : Type} (o1 o2 : Ctx.op) (x : A) (a : nat)
      (Q : A -> Prop) :
  Q x -> closes (call o1 ;;; call o2 ;;; ret x)%surface a a [o1; o2] Q.
Proof.
  intros HQ st y st' H. injection H as <- <-. split; [exact HQ|].
  exists []. split; [|reflexivity]. cbn [context app].
  rewrite <- app_assoc. reflexivity.
Qed.

(** The net effect of a frame on the stack of saved states. *)
Lemma frame_depth_after (n : node) (ops : list Ctx.op) :
  frame n ops -> forall d, depth_after d ops = Some (d + frame_depth n).
Proof.
  unfold frame, frame_depth. intros F d.
  destruct (String.eqb (tag n) "defs").
  - subst ops. rewrite Nat.add_0_r. reflexivity.
  - destruct F as (body & -> & D). cbn [depth_after].
    rewrite depth_after_app, D.
    destruct (root n); cbn [depth_after].
    + rewrite Nat.add_1_r. reflexivity.
    + rewrite Nat.add_0_r. reflexivity.
Qed.

Lemma framed_hoare (m : M unit) (n : node) (a : nat) :
  framed m n -> hoare m a (a + frame_depth n) (fun _ => True).
Proof.
  intros F st [] st' H. split; [exact I|].
  destruct (F st st' H) as (ops & E & Hf).
  exists ops. split; [exact E|]. intros d.
  rewrite (frame_depth_after n ops Hf). rewrite Nat.add_assoc. reflexivity.
Qed.

Hypothesis Tree_roots : loads_roots other_attr Tree.

Lemma known_tags_inv (n : node) :
  known_tags other_attr n = true ->
  foreign other_attr (tag n) = false /\
  forall c, In c (children n) -> known_tags other_attr c = true.
Proof.
  destruct n as [t at_ cs tx r]. cbn [known_tags tag children]. intros H.
  apply andb_prop in H. destruct H as [Ht Hc].
  split; [apply negb_true_iff; exact Ht|].
  rewrite forallb_forall in Hc. exact Hc.
Qed.

Lemma hoare_loaded (fuel : nat) :
  (forall n, plain_children n = true -> known_tags other_attr n = true ->
             framed (drawf fuel n) n) ->
  forall href m t b,
    Tree href m = Ok t -> hoare (drawf fuel t) b (S b) (fun _ => True).
Proof.
  intros IH href m t b Ht.
  destruct (Tree_roots _ _ _ Ht) as (Hr & Hd & Hc & Hk).
  generalize (framed_hoare _ _ b (IH t Hc Hk)).
  unfold frame_depth. rewrite Hd, Hr. rewrite Nat.add_1_r. exact (fun H => H).
Qed.

Lemma framed_draw (fuel : nat) :
  forall n : node,
    plain_children n = true -> known_tags other_attr n = true ->
    framed (drawf fuel n) n.
Proof.
  induction fuel as [|fuel IH]; intros n Hn Hk st st' H; [discriminate H|].
  unfold frame. unfold drawf in H. cbn [draw] in H. fold (drawf fuel) in H.
  destruct (String.eqb (tag n) "defs") eqn:Ed.
  { injection H as <-. exists []. split; [symmetry; apply app_nil_r|reflexivity]. }
  destruct (known_tags_inv n Hk) as [Hf Hkc].
  apply bindM_ok in H. destruct H as ([] & st1 & E1 & H).
  injection E1 as <-.
  match type of H with
  | ?m _ = _ =>
      assert (C : closes m 0 0 (if root n then [] else [Ctx.restore])
                         (fun _ => True))
  end.
  { eapply closes_bind with (P := fun _ => True); [apply hoare_lift; auto|].
    intros x _.
    eapply closes_bind with (P := fun _ => True); [apply hoare_lift; auto|].
    intros y _.
    eapply closes_bind with (P := fun _ => True);
      [apply hoare_call2; [plain_ok|exact I]|].
    intros _ _.
    eapply closes_bind with (P := fun _ => True);
      [apply hoare_transform; exact I|].
    intros _ _. cbv zeta.
    set (n0 := if mem_string (tag n) PATH_TAGS && falsy (get n "stroke-width")
               then set_attr "stroke-width" "1" n else n).
    assert (S0 : same n n0) by (subst n0; destruct (_ && _); repeat split).
    eapply closes_bind with (P := same n).
    - apply hoare_dispatch.
      + apply hoare_loaded. exact IH.
      + intros Hrec b c P. apply draw_never. exact Hrec.
      + destruct S0 as (-> & _). exact Hf.
      + intros n' Hn'. eapply same_trans; [exact S0|exact Hn'].
    - intros n' (Ht & Hc & Hr).
      eapply closes_bind with (P := fun _ => True); [hauto|]. intros ? _.
      eapply closes_bind with (P := fun _ => True); [hauto|]. intros ? _.
      eapply closes_bind with (P := fun _ => True); [hauto|]. intros ? _.
      eapply closes_bind with (P := fun _ => True); [hauto|]. intros ? _.
      eapply closes_bind with (P := fun _ => True); [hauto|]. intros ? _.
      eapply closes_bind with (P := fun _ => True); [hauto|]. intros ? _.
      eapply closes_bind with (P := fun _ => True); [hauto|]. intros ? _.
      eapply closes_bind with (P := fun _ => True); [hauto|]. intros ? _.
      eapply closes_bind with (P := fun _ => True); [hauto|]. intros ? _.
      eapply closes_bind with (P := fun _ => True); [hauto|]. intros ? _.
      eapply closes_bind with (P := fun _ => True).
      + apply hoare_iterM; [|exact I]. intros c Hin.
        rewrite Hc in Hin.
        assert (Hno : no_root c = true).
        { unfold plain_children in Hn. rewrite forallb_forall in Hn.
          apply Hn. exact Hin. }
        destruct (no_root_inv c Hno) as [Hrc Hcc].
        generalize (framed_hoare _ _ 0 (IH c Hcc (Hkc c Hin))).
        unfold frame_depth. rewrite Hrc.
        destruct (String.eqb (tag c) "defs"); exact (fun H => H).
      + intros _ _. rewrite Hr. destruct (root n); cbn [negb].
        * apply closes_ret. exact I.
        * apply closes_call. exact I. }
  destruct (C _ _ _ H) as (_ & body & E & D).
  exists (Ctx.save :: body ++ (if root n then [] else [Ctx.restore])).
  split.
  - rewrite E. cbn [context]. rewrite <- app_assoc. reflexivity.
  - exists body. split; [reflexivity|]. intros d.
    generalize (D d). rewrite !Nat.add_0_r. exact (fun X => X).
Qed.

(** The calls of [use]: its own [save], calls that leave one saved state
    more than they find (the one of the tree, whose frame does not
    restore), and the two [restore]s. *)
Lemma use_calls (fuel : nat) (n n' : node) (st st' : surface) :
  use Tree (drawf fuel) n st = (Ok n', st') ->
  exists body,
    context st' = context st ++ Ctx.save :: body ++ [Ctx.restore; Ctx.restore] /\
    forall d, depth_after d body = Some (S d).
Proof.
  intros H. unfold use in H.
  apply bindM_ok in H. destruct H as ([] & st1 & E1 & H).
  injection E1 as <-.
  match type of H with
  | ?m _ = _ =>
      assert (C : closes m 0 1 [Ctx.restore; Ctx.restore] (fun _ => True))
  end.
  { eapply closes_bind with (P := fun _ => True); [apply hoare_lift; auto|].
    intros x _.
    eapply closes_bind with (P := fun _ => True); [apply hoare_lift; auto|].
    intros y _.
    eapply closes_bind with (P := fun _ => True);
      [apply hoare_call2; [plain_ok|exact I]|].
    intros _ _. cbv zeta.
    eapply closes_bind with (b := O);
      [apply hoare_lift; intros t Ht; exact Ht|].
    intros t Ht.
    eapply closes_bind with (P := fun _ => True); [apply hoare_lift; auto|].
    intros [[w h] vb] _.
    eapply closes_bind with (P := fun _ => True);
      [apply hoare_set_context_size; exact I|].
    intros _ _.
    eapply closes_bind with (P := fun _ => True).
    - eapply hoare_loaded; [intros; apply framed_draw; assumption|exact Ht].
    - intros _ _. apply closes_calls. exact I. }
  destruct (C _ _ _ H) as (_ & body & E & D).
  exists body. split.
  - rewrite E. cbn [context]. rewrite <- app_assoc. reflexivity.
  - intros d. generalize (D d). rewrite Nat.add_0_r, Nat.add_1_r.
    exact (fun X => X).
Qed.

End Handlers.


Lemma example_Tree_roots : loads_roots example_attr example_Tree.
Proof.
  intros href n t H. injection H as <-. repeat split.
Qed.



(** *** Elements named after the walker itself *)

Section Walker.

Variables cos sin atan : float -> float.
Variable pow : float -> float -> float.
Variable get_current_point : list Ctx.op -> float * float.
Variable text_extents :
  list Ctx.op -> string -> float * float * float * float * float * float.
Variable COLORS : Dict.t.
Variable str : pyval -> string.
Variable Tree : option string -> node -> res node.
Variable _create_surface : node -> M unit.
Variable other_attr : string -> option (node -> M node).

(** X22: [draw] looks its handlers up by tag with [hasattr(self, node.tag)],
    and [draw] itself is such an attribute: on an element whose tag is
    [draw] the walker calls itself on the same node, again and again.  It
    never returns, whatever the depth allowed. *)
Theorem draw_element_named_draw (fuel : nat) (n : node) (st : surface) :
  tag n = "draw" ->
  fst (draw cos sin atan pow get_current_point text_extents COLORS str Tree
            _create_surface other_attr fuel n st)
  <> Ok tt.
Proof.
  intros Ht.
  destruct (draw cos sin atan pow get_current_point text_extents COLORS str
                 Tree _create_surface other_attr fuel n st) as [r st'] eqn:E.
  cbn [fst]. intros ->.
  assert (Hr : recursive_tag (tag n) = true) by (rewrite Ht; reflexivity).
  exact (proj1 (draw_never cos sin atan pow get_current_point text_extents
                           COLORS str Tree _create_surface other_attr fuel n
                           0 0 (fun _ => False) Hr st tt st' E)).
Qed.

End Walker.

Lemma draw_element_named_draw_witness :
  fst (example_draw 5 (Node "draw" [] [] None false) fresh_surface) <> Ok tt.
Proof.
  apply (draw_element_named_draw Exact.cos Exact.sin Exact.atan Exact.pow
           (fun _ => (0, 0)%float) (fun _ _ => (0, 0, 0, 0, 0, 0)%float)
           [("red", "#ff0000")] (fun _ => "0") example_Tree
           example_create_surface example_attr 5
           (Node "draw" [] [] None false) fresh_surface).
  reflexivity.
Defined.

(** *** Termination of the walker *)

Section Termination.

Variables cos sin atan : float -> float.
Variable pow : float -> float -> float.
Variable get_current_point : list Ctx.op -> float * float.
Variable text_extents :
  list Ctx.op -> string -> float * float * float * float * float * float.
Variable COLORS : Dict.t.
Variable str : pyval -> string.
Variable Tree : option string -> node -> res node.
Variable _create_surface : node -> M unit.
Variable other_attr : string -> option (node -> M node).

Lemma finishes_circle (n : node) : finishes (circle n).
Proof. unfold circle. finish. Qed.

Lemma finishes_ellipse (n : node) : finishes (ellipse n).
Proof. unfold ellipse. finish. Qed.

Lemma finishes_line (n : node) : finishes (line n).
Proof. unfold line, unpack4. finish. Qed.

Lemma finishes_rect (n : node) : finishes (rect n).
Proof. unfold rect. finish. Qed.

Lemma finishes_text (n : node) :
  finishes (text get_current_point text_extents COLORS n).
Proof. unfold text, float_attr, current_point. cbv zeta. finish. Qed.

Lemma finishes_tspan (n : node) :
  finishes (tspan get_current_point text_extents COLORS str n).
Proof.
  unfold tspan. cbv zeta.
  apply finishes_bind; [apply finishes_query|intros [x y]].
  apply finishes_bind; [finish|intros x'].
  apply finishes_bind; [finish|intros y'].
  apply finishes_bind; [finish|intros nx].
  apply finishes_bind; [finish|intros ny].
  apply finishes_text.
Qed.

Let drawf := draw cos sin atan pow get_current_point text_extents COLORS str
                  Tree _create_surface other_attr.

(** What [dispatch] is on a tag that is none of the unbounded ones. *)
Lemma dispatch_bounded (d : node -> M unit) (fuel : nat) (n : node) :
  unbounded_tag other_attr (tag n) = false ->
  dispatch cos sin atan pow get_current_point text_extents COLORS str Tree
           _create_surface other_attr d fuel n
  = (let t := tag n in
     if String.eqb t "circle" then circle n
     else if String.eqb t "ellipse" then ellipse n
     else if String.eqb t "line" then line n
     else if String.eqb t "polyline" then polyline n
     else if String.eqb t "polygon" then polygon n
     else if String.eqb t "rect" then rect n
     else if String.eqb t "tspan"
          then tspan get_current_point text_extents COLORS str n
     else if String.eqb t "text"
          then text get_current_point text_extents COLORS n
     else if mem_string t not_handlers then raise TypeError
     else ret n).
Proof.
  unfold unbounded_tag, recursive_tag, foreign. intros H.
  apply orb_false_elim in H. destruct H as [H Hf].
  apply orb_false_elim in Hf. destruct Hf as [Hcreate Hother].
  apply orb_false_elim in H. destruct H as [H Hrec].
  apply orb_false_elim in Hrec. destruct Hrec as [Hdraw Hinit].
  apply orb_false_elim in H. destruct H as [H Htref].
  apply orb_false_elim in H. destruct H as [Hpath Huse].
  unfold dispatch. cbv zeta.
  rewrite Hpath, Huse, Htref, Hdraw, Hinit, Hcreate.
  destruct (other_attr (tag n)); [discriminate Hother|]. reflexivity.
Qed.

Lemma finishes_dispatch (d : node -> M unit) (fuel : nat) (n : node) :
  unbounded_tag other_attr (tag n) = false ->
  finishes (dispatch cos sin atan pow get_current_point text_extents COLORS
                     str Tree _create_surface other_attr d fuel n).
Proof.
  intros H. rewrite (dispatch_bounded d fuel n H). cbv zeta.
  destruct (String.eqb (tag n) "circle"); [apply finishes_circle|].
  destruct (String.eqb (tag n) "ellipse"); [apply finishes_ellipse|].
  destruct (String.eqb (tag n) "line"); [apply finishes_line|].
  destruct (String.eqb (tag n) "polyline");
    [apply finishes_polyline|].
  destruct (String.eqb (tag n) "polygon");
    [apply finishes_polygon|].
  destruct (String.eqb (tag n) "rect"); [apply finishes_rect|].
  destruct (String.eqb (tag n) "tspan"); [apply finishes_tspan|].
  destruct (String.eqb (tag n) "text"); [apply finishes_text|].
  destruct (mem_string (tag n) not_handlers);
    [apply finishes_lift; discriminate|apply finishes_ret].
Qed.

Lemma finishes_bind_post {A B : Type} (m : M A) (f : A -> M B) (P : A -> Prop) :
  (forall st x st', m st = (Ok x, st') -> P x) ->
  finishes m -> (forall x, P x -> finishes (f x)) -> finishes (bindM m f).
Proof.
  intros HP Hm Hf st. unfold bindM. generalize (Hm st) (HP st).
  destruct (m st) as [[x|e|] st1]; simpl; intros H H'.
  - apply Hf. apply (H' x st1). reflexivity.
  - discriminate.
  - exfalso. apply H. reflexivity.
Qed.

(** The handlers that [dispatch] reaches on a bounded tag return a node
    with the children of the one they were given. *)
Lemma dispatch_children (d : node -> M unit) (fuel : nat) (n n' : node)
      (st st' : surface) :
  unbounded_tag other_attr (tag n) = false ->
  dispatch cos sin atan pow get_current_point text_extents COLORS str Tree
           _create_surface other_attr d fuel n st = (Ok n', st') ->
  children n' = children n.
Proof.
  intros H. rewrite (dispatch_bounded d fuel n H). cbv zeta.
  assert (S : forall m, hoare m 0 0 (same n) -> m st = (Ok n', st') ->
                        children n' = children n).
  { intros m Hm E. destruct (Hm st n' st' E) as [(_ & Hc & _) _]. exact Hc. }
  destruct (String.eqb (tag n) "circle");
    [apply S, hoare_circle; auto|].
  destruct (String.eqb (tag n) "ellipse");
    [apply S, hoare_ellipse; auto|].
  destruct (String.eqb (tag n) "line"); [apply S, hoare_line; auto|].
  destruct (String.eqb (tag n) "polyline"); [apply S, hoare_polyline; auto|].
  destruct (String.eqb (tag n) "polygon"); [apply S, hoare_polygon; auto|].
  destruct (String.eqb (tag n) "rect"); [apply S, hoare_rect; auto|].
  destruct (String.eqb (tag n) "tspan"); [apply S, hoare_tspan; auto|].
  destruct (String.eqb (tag n) "text"); [apply S, hoare_text; auto|].
  destruct (mem_string (tag n) not_handlers); [discriminate|].
  intros E. injection E as <- _. reflexivity.
Qed.

Lemma height_child (n c : node) :
  In c (children n) -> (height c < height n)%nat.
Proof.
  destruct n as [t a cs x r]. cbn [children height]. intros H.
  apply Nat.lt_succ_r.
  induction cs as [|c' cs IH]; [contradiction|].
  cbn [fold_right]. destruct H as [->|H]; [apply Nat.le_max_l|].
  eapply Nat.le_trans; [apply IH; exact H|apply Nat.le_max_r].
Qed.

Lemma bounded_inv (n : node) :
  bounded other_attr n = true ->
  unbounded_tag other_attr (tag n) = false /\
  forall c, In c (children n) -> bounded other_attr c = true.
Proof.
  destruct n as [t a cs x r]. cbn [bounded tag children]. intros H.
  apply andb_prop in H. destruct H as [Ht Hc].
  split; [apply negb_true_iff; exact Ht|].
  rewrite forallb_forall in Hc. exact Hc.
Qed.

(** X29: [draw] terminates on every tree in which no element is named
    [path], [use], [tref], [draw], [__init__] or [_create_surface], or
    after an attribute that [Surface] does not define: with a depth
    allowance of the height of the tree it returns or raises, and is
    never cut off.  The loops of the parsers and of the other handlers
    all consume their text; the loop of [path], the trees that [use]
    loads and the methods that draw the same node again are the sources
    of a run without end. *)
Theorem draw_terminates (fuel : nat) (n : node) :
  bounded other_attr n = true -> (height n <= fuel)%nat ->
  finishes (drawf fuel n).
Proof.
  revert n. induction fuel as [|fuel IH]; intros n Hb Hh.
  - destruct n; simpl in Hh; lia.
  - unfold drawf. cbn [draw]. fold (drawf fuel).
    destruct (String.eqb (tag n) "defs"); [apply finishes_ret|].
    destruct (bounded_inv n Hb) as [Ht Hc].
    apply finishes_bind; [apply finishes_call|intros _].
    apply finishes_bind; [apply finishes_lift, size_no_timeout|intros x].
    apply finishes_bind; [apply finishes_lift, size_no_timeout|intros y].
    apply finishes_bind; [apply finishes_call2|intros _].
    apply finishes_bind; [apply finishes_transform|intros _].
    cbv zeta.
    set (n0 := if mem_string (tag n) PATH_TAGS && falsy (get n "stroke-width")
               then set_attr "stroke-width" "1" n else n).
    assert (Ht0 : tag n0 = tag n) by (subst n0; destruct (_ && _); reflexivity).
    assert (Hc0 : children n0 = children n)
      by (subst n0; destruct (_ && _); reflexivity).
    apply finishes_bind_post with (P := fun n' => children n' = children n).
    + intros st n' st' E. rewrite <- Hc0.
      refine (dispatch_children _ _ _ _ _ _ _ E).
      rewrite Ht0. exact Ht.
    + apply finishes_dispatch. rewrite Ht0. exact Ht.
    + intros n' Hn'. unfold float_attr.
      repeat (apply finishes_bind;
              [first [ apply finishes_call | apply finishes_call1
                     | apply finishes_set_source
                     | apply finishes_lift; no_timeout
                     | destruct (match get n' "fill-rule" with
                                 | Some r => String.eqb r "evenodd"
                                 | None => false
                                 end);
                       [apply finishes_call|apply finishes_ret] ]
              |intros ?]).
      rewrite Hn'. apply finishes_bind; [|intros _].
      * apply finishes_iterM. intros c Hin.
        apply IH; [apply Hc; exact Hin|].
        assert (Hl := height_child n c Hin). lia.
      * destruct (negb (root n')); [apply finishes_call|apply finishes_ret].
Qed.

End Termination.

Lemma draw_terminates_witness :
  finishes (example_draw 2 (Node "svg" [] [Node "circle" [] [] None false]
                                 None true)).
Proof.
  apply (draw_terminates Exact.cos Exact.sin Exact.atan Exact.pow
           (fun _ => (0, 0)%float) (fun _ _ => (0, 0, 0, 0, 0, 0)%float)
           [("red", "#ff0000")] (fun _ => "0") example_Tree
           example_create_surface example_attr 2
           (Node "svg" [] [Node "circle" [] [] None false] None true)).
  - reflexivity.
  - simpl. lia.
Defined.
